(** * Lost-and-found card service: the card store and the HTTP routes

    A shallow embedding of the backend of the campus lost-ID service:
    - [redIdEmailMap.js]  (the static RedID -> email table),
    - [cardsStore.js]     (the in-memory array of card objects),
    - [routes/cards.js]   (the Express handlers that drive the card
                           lifecycle: intake, pickup, lookup, set-email),
    followed by the properties of the card lifecycle and of the pickup-code
    protocol that the specification states.

    Conventions of the embedding.
    - A JS value that is "a string, or null/undefined" is an [option string];
      [truthy] is JS truthiness on such a value (the empty string is falsy).
    - Strings are 8-bit character strings; the model is exact on ASCII text.
    - The array [cardsStore] is a [list Card.t] in insertion order ([push]
      appends at the end); card objects are only reached through the array,
      so [Object.assign] on a found card is an in-place replacement of that
      list element.
    - Everything the handlers obtain from outside (the request fields,
      [crypto.randomUUID()], [Math.random()], [new Date()], the OCR service,
      the notification service, [fs.existsSync]) is carried by the request
      value, so a handler is a pure function from a request and a store to a
      response and a store.
    - Request fields are strings or absent, as the clients of the API send
      them.
    - A handler is modelled as running to completion before the next request
      is served; [run] serves a sequence of requests one after the other.
      The handlers that call the OCR or the notification service [await]
      them; the two halves of the set-email handler are also given
      separately, to show what serving another request during the [await]
      can do.
    - GET /cards (the list) and POST /test-sendgrid do not write to the
      store and are not part of the model. *)

From Stdlib Require Import Ascii.
From stdpp Require Import base tactics option list strings gmap sorting.

(* ===================================================================== *)
(** ** JavaScript primitives used by the routes                            *)
(* ===================================================================== *)

Module Js.

(** [!!x] for a value that is a string or null/undefined. *)
Definition truthy (x : option string) : bool :=
  match x with
  | Some s => negb (bool_decide (s = ""))
  | None => false
  end.

(** [a || b]. *)
Definition or (a b : option string) : option string :=
  if truthy a then a else b.

(** [a || null]. *)
Definition or_null (a : option string) : option string := or a None.

(** [String.prototype.trim]. *)
Fixpoint trimStart (s : string) : string :=
  match s with
  | "" => ""
  | String a s' => if Ascii.is_space a then trimStart s' else s
  end.

Fixpoint trimEnd (s : string) : string :=
  match s with
  | "" => ""
  | String a s' =>
      match trimEnd s' with
      | "" => if Ascii.is_space a then "" else String a ""
      | t => String a t
      end
  end.

Definition trim (s : string) : string := trimEnd (trimStart s).

(** [s.replace(/\s+/g, '')]: every white-space character is removed. *)
Fixpoint removeWhitespace (s : string) : string :=
  match s with
  | "" => ""
  | String a s' =>
      if Ascii.is_space a then removeWhitespace s'
      else String a (removeWhitespace s')
  end.

(** [String.prototype.toUpperCase] on ASCII letters. *)
Definition upper_char (a : ascii) : ascii :=
  let n := nat_of_ascii a in
  if (97 <=? n) && (n <=? 122) then ascii_of_nat (n - 32) else a.

Fixpoint toUpperCase (s : string) : string :=
  match s with
  | "" => ""
  | String a s' => String (upper_char a) (toUpperCase s')
  end.

(** [s.substring(0, n)]. *)
Fixpoint substring0 (n : nat) (s : string) : string :=
  match n, s with
  | S n', String a s' => String a (substring0 n' s')
  | _, _ => ""
  end.

(** [s.indexOf(c) !== -1]. *)
Fixpoint includes_char (c : ascii) (s : string) : bool :=
  match s with
  | "" => false
  | String a s' => bool_decide (a = c) || includes_char c s'
  end.

(** [Math.random()] returns a double in [0, 1).  Every finite double is an
    integer multiple of 2^-1074, so a draw is represented by its numerator
    [m] over [random_den]; it lies in [0, 1) exactly when
    [m < random_den].  Multiplying a double below 1 by the array length 4
    is exact, so [Math.floor(Math.random() * 4)] is the integer quotient
    below. *)
Definition random_den : N := 2 ^ 1074.

Definition in_unit_interval (m : N) : Prop := (m < random_den)%N.

Definition floor_random_times (len : N) (m : N) : N :=
  (m * len / random_den)%N.

End Js.

(* ===================================================================== *)
(** ** services/redIdEmailMap.js                                            *)
(* ===================================================================== *)

Module RedIdEmailMap.

(** The object literal; the key '132264610' is listed twice with the same
    value, the later entry wins. *)
Definition redIdEmailMap : gmap string string :=
  <["132264610" := "ajasti7720@sdsu.edu"]>
  (<["131740957" := "ngaribi3916sdsu.edu"]>
  (<["132274230" := "ckotsiopulos5746@sdsu.edu"]>
  (<["132264610" := "ajasti7720@sdsu.edu"]> ∅))).

(** [getEmailByRedId(redId)]; only own properties of the table are
    modelled. *)
Definition getEmailByRedId (redId : option string) : option string :=
  match redId with
  | Some r =>
      if Js.truthy redId then
        let normalizedRedId := Js.removeWhitespace (Js.trim r) in
        Js.or_null (redIdEmailMap !! normalizedRedId)
      else None
  | None => None
  end.

End RedIdEmailMap.

(* ===================================================================== *)
(** ** store/cardsStore.js                                                  *)
(* ===================================================================== *)

(** Card status types, as documented in the store. *)
Inductive status := waiting_for_email | email_sent | picked_up.

Global Instance status_eq_dec : EqDecision status.
Proof. solve_decision. Defined.

(** The string that a status is in the source. *)
Definition status_string (s : status) : string :=
  match s with
  | waiting_for_email => "waiting_for_email"
  | email_sent => "email_sent"
  | picked_up => "picked_up"
  end.

(** ['web'] or ['box']. *)
Inductive source := web | box.

Global Instance source_eq_dec : EqDecision source.
Proof. solve_decision. Defined.

(** A [Date], in milliseconds since the epoch. *)
Definition Date := Z.

Module Card.

(** The card object.  [pickedUpAt] is not written by [createCard]; the
    property is absent ([None]) until a pickup assigns it. *)
Record t := mk {
  id : string;
  redId : option string;
  fullName : option string;
  email : option string;
  source_ : source;
  finderContact : option string;
  locationDescription : option string;
  boxId : option string;
  pickupCode : option string;
  status_ : status;
  createdAt : Date;
  openRequestedAt : option Date;
  pickedUpAt : option Date
}.

Global Instance eq_dec : EqDecision t.
Proof. solve_decision. Defined.

End Card.

Module CardsStore.

(** [const cardsStore = []]. *)
Definition store := list Card.t.

(** The object literals passed to [createCard].  A field is [None] when
    the literal does not have the property and [Some v] when it has it
    with value [v] (which may itself be null). *)
Record cardData := {
  cd_redId : option (option string);
  cd_source : option source;
  cd_finderContact : option (option string);
  cd_locationDescription : option (option string);
  cd_boxId : option (option string);
  cd_pickupCode : option (option string);
  cd_status : option status
}.

(** One field of the literal in [createCard]: [f: cardData.f || null]
    followed by the spread [...cardData], which overwrites the default
    whenever the property is present. *)
Definition field_or_null (x : option (option string)) : option string :=
  match x with
  | Some v => v
  | None => Js.or_null None
  end.

(** [createCard(cardData)]: [uuid] is the result of [crypto.randomUUID()]
    and [now] that of [new Date()]. *)
Definition new_card (cardData : cardData) (uuid : string) (now : Date) : Card.t :=
  {| Card.id := uuid;
     Card.redId := field_or_null (cd_redId cardData);
     Card.fullName := None;
     Card.email := None;
     Card.source_ := default web (cd_source cardData);
     Card.finderContact := field_or_null (cd_finderContact cardData);
     Card.locationDescription := field_or_null (cd_locationDescription cardData);
     Card.boxId := field_or_null (cd_boxId cardData);
     Card.pickupCode := field_or_null (cd_pickupCode cardData);
     Card.status_ := default waiting_for_email (cd_status cardData);
     Card.createdAt := now;
     Card.openRequestedAt := None;
     Card.pickedUpAt := None |}.

Definition createCard (cardData : cardData) (uuid : string) (now : Date)
    (cardsStore : store) : Card.t * store :=
  let card := new_card cardData uuid now in
  (card, cardsStore ++ [card]).

(** [cardsStore.find(card => card.id === cardId) || null]. *)
Fixpoint findCardById (cardId : string) (cardsStore : store) : option Card.t :=
  match cardsStore with
  | [] => None
  | card :: rest =>
      if bool_decide (Card.id card = cardId) then Some card
      else findCardById cardId rest
  end.

(** [card.id.substring(0, 8).toUpperCase()]. *)
Definition cardRefCode (card : Card.t) : string :=
  Js.toUpperCase (Js.substring0 8 (Card.id card)).

Fixpoint find_ref (normalizedCode : string) (cardsStore : store) : option Card.t :=
  match cardsStore with
  | [] => None
  | card :: rest =>
      if bool_decide (cardRefCode card = normalizedCode) then Some card
      else find_ref normalizedCode rest
  end.

Definition findCardByReferenceCode (referenceCode : string)
    (cardsStore : store) : option Card.t :=
  if bool_decide (referenceCode = "") then None
  else find_ref (Js.toUpperCase (Js.trim referenceCode)) cardsStore.

(** [card.pickupCode === pickupCode && card.boxId === boxId]. *)
Definition matches_pickup (pickupCode boxId : option string) (card : Card.t) : bool :=
  bool_decide (Card.pickupCode card = pickupCode)
  && bool_decide (Card.boxId card = boxId).

Fixpoint findCardByPickupCode (pickupCode boxId : option string)
    (cardsStore : store) : option Card.t :=
  match cardsStore with
  | [] => None
  | card :: rest =>
      if matches_pickup pickupCode boxId card then Some card
      else findCardByPickupCode pickupCode boxId rest
  end.

(** The [updates] objects that the routes pass to [updateCard]: a field is
    [None] when the object does not have the property. *)
Record updates := {
  u_redId : option (option string);
  u_fullName : option (option string);
  u_email : option (option string);
  u_pickupCode : option (option string);
  u_status : option status;
  u_pickedUpAt : option Date
}.

(** [Object.assign(card, updates)]. *)
Definition assign (card : Card.t) (u : updates) : Card.t :=
  {| Card.id := Card.id card;
     Card.redId := default (Card.redId card) (u_redId u);
     Card.fullName := default (Card.fullName card) (u_fullName u);
     Card.email := default (Card.email card) (u_email u);
     Card.source_ := Card.source_ card;
     Card.finderContact := Card.finderContact card;
     Card.locationDescription := Card.locationDescription card;
     Card.boxId := Card.boxId card;
     Card.pickupCode := default (Card.pickupCode card) (u_pickupCode u);
     Card.status_ := default (Card.status_ card) (u_status u);
     Card.createdAt := Card.createdAt card;
     Card.openRequestedAt := Card.openRequestedAt card;
     Card.pickedUpAt :=
       match u_pickedUpAt u with
       | Some d => Some d
       | None => Card.pickedUpAt card
       end |}.

(** [updateCard(cardId, updates)]: the first card whose id is [cardId] is
    assigned in place; the store is unchanged when there is none. *)
Fixpoint updateCard (cardId : string) (u : updates) (cardsStore : store) : store :=
  match cardsStore with
  | [] => []
  | card :: rest =>
      if bool_decide (Card.id card = cardId) then assign card u :: rest
      else card :: updateCard cardId u rest
  end.

End CardsStore.

(* ===================================================================== *)
(** ** routes/cards.js                                                      *)
(* ===================================================================== *)

Module Routes.
Import CardsStore.

(** *** generatePickupCode *)

Definition allowedDigits : list string := ["1"; "2"; "3"; "4"].

(** [allowedDigits[randomIndex]] as appended by [code += ...]: reading
    past the end of the array gives [undefined], which string
    concatenation renders as the text "undefined". *)
Definition digit_at (randomIndex : N) : string :=
  default "undefined" (allowedDigits !! N.to_nat randomIndex).

(** The [for] loop of [generatePickupCode]; [random i] is the numerator of
    the [i]-th result of [Math.random()] in the call. *)
Fixpoint generatePickupCode_loop (remaining i : nat) (random : nat → N)
    (code : string) : string :=
  match remaining with
  | 0 => code
  | S remaining' =>
      let randomIndex :=
        Js.floor_random_times (N.of_nat (length allowedDigits)) (random i) in
      generatePickupCode_loop remaining' (S i) random
        (code +:+ digit_at randomIndex)
  end.

Definition generatePickupCode (length : nat) (random : nat → N) : string :=
  generatePickupCode_loop length 0 random "".

(** *** Collaborators *)

(** What [extractInfoFromImage] resolves to. *)
Record extractedInfo := {
  ei_redId : option string;
  ei_fullName : option string
}.

Inductive ocrOutcome :=
| OcrReturns (info : option extractedInfo)
| OcrThrows.

(** What [notifyOwnerOfFoundCard] does. *)
Inductive notifyOutcome :=
| NotifyReturns (emailSent : bool)
| NotifyThrows (message : string).

(** *** Responses *)

Record photoResponse := {
  r_cardId : string;
  r_referenceCode : string;
  r_message : string;
  r_boxId : option string;
  r_pickupCode : option string;
  r_redId : option string;
  r_extractedInfo : option extractedInfo;
  r_emailSent : bool;
  r_emailAddress : option string
}.

Inductive body :=
| Error (error : string)
| ErrorWithMessage (error message : string)
| PhotoData (responseData : photoResponse)
| RedidData (cardId pickupCode : string)
| PickupOk (message cardId : string)
| PickupRefused (reason : string)
| CardJson (card : Card.t)
| SetEmailResult (success : bool) (message : string) (card : option Card.t).

(** [res.status(code).json(body)]; [res.json(body)] has code 200. *)
Record response := { code : nat; json : body }.

Definition ok (b : body) : response := {| code := 200; json := b |}.

(** *** POST /found-card-photo *)

Record photoRequest := {
  ph_finderContact : option string;
  ph_locationDescription : option string;
  ph_boxId : option string;
  ph_manualRedId : option string;
  ph_filePath : option string;          (* req.file ? req.file.path : null *)
  ph_existsSync : bool;                 (* fs.existsSync(imagePath) *)
  ph_random : nat → N;                  (* Math.random() *)
  ph_uuid : string;                     (* crypto.randomUUID() *)
  ph_now : Date;                        (* new Date() *)
  ph_ocr : ocrOutcome;                  (* await extractInfoFromImage *)
  ph_notify : notifyOutcome             (* await notifyOwnerOfFoundCard *)
}.

(** The text appended for a truthy string. *)
Definition text (x : option string) : string := default "" x.

(** The locals of the handler between the OCR step and the email lookup.
    [extractedInfo] stays null when [extractInfoFromImage] throws. *)
Definition extractedInfo_after (ocr : ocrOutcome) : option extractedInfo :=
  match ocr with
  | OcrReturns info => info
  | OcrThrows => None
  end.

Definition extractedRedId (extractedInfo : option extractedInfo)
    : option string :=
  match extractedInfo with
  | Some info => if Js.truthy (ei_redId info) then ei_redId info else None
  | None => None
  end.

Definition extractedFullName (extractedInfo : option extractedInfo)
    : option string :=
  match extractedInfo with
  | Some info =>
      if Js.truthy (ei_fullName info) then ei_fullName info else None
  | None => None
  end.

Definition trimmedManualRedId (manualRedId : option string) : option string :=
  Js.trim <$> manualRedId.

(** [redIdToUse = trimmedManualRedId || extractedRedId]. *)
Definition redIdToUse (manualRedId : option string)
    (extractedInfo : option extractedInfo) : option string :=
  Js.or (trimmedManualRedId manualRedId) (extractedRedId extractedInfo).

(** The email lookup: [owner.email] when an owner is found, null when
    [owner] stays null. *)
Definition owner_email (redIdToUse : option string) : option string :=
  if Js.truthy redIdToUse then
    let normalizedRedId := Js.removeWhitespace (Js.trim (text redIdToUse)) in
    RedIdEmailMap.getEmailByRedId (Some normalizedRedId)
  else None.

Definition foundCardPhoto (req : photoRequest) (cardsStore : store)
    : response * store :=
  let finderContact := ph_finderContact req in
  let locationDescription := ph_locationDescription req in
  let boxId := ph_boxId req in
  let manualRedId := ph_manualRedId req in
  let imagePath := ph_filePath req in
  if negb (Js.truthy imagePath) then
    ({| code := 400; json := Error "No image file provided" |}, cardsStore)
  else if negb (ph_existsSync req) then
    ({| code := 400; json := Error "Uploaded file not found on server" |},
     cardsStore)
  else
    let pickupCode :=
      if Js.truthy boxId then Some (generatePickupCode 4 (ph_random req))
      else None in
    let '(card, store1) :=
      createCard
        {| cd_redId := None;
           cd_source := Some web;
           cd_finderContact := Some (Js.or_null finderContact);
           cd_locationDescription := Some (Js.or_null locationDescription);
           cd_boxId := Some (Js.or_null boxId);
           cd_pickupCode := Some pickupCode;
           cd_status := Some waiting_for_email |}
        (ph_uuid req) (ph_now req) cardsStore in
    let extractedInfo := extractedInfo_after (ph_ocr req) in
    let redIdToUse := redIdToUse manualRedId extractedInfo in
    let extractedFullName := extractedFullName extractedInfo in
    let store2 :=
      if Js.truthy redIdToUse || Js.truthy extractedFullName then
        updateCard (Card.id card)
          {| u_redId := Some (Js.or_null redIdToUse);
             u_fullName := Some (Js.or_null extractedFullName);
             u_email := None; u_pickupCode := None;
             u_status := None; u_pickedUpAt := None |}
          store1
      else store1 in
    let owner_email := owner_email redIdToUse in
    let owner_fullName := Js.or_null extractedFullName in
    (* email notification *)
    let '(store3, emailSentStatus, emailAddress) :=
      if Js.truthy owner_email then
        let saved_name :=
          Some (Js.or owner_fullName (Js.or_null extractedFullName)) in
        match ph_notify req with
        | NotifyReturns true =>
            (updateCard (Card.id card)
               {| u_redId := None; u_fullName := saved_name;
                  u_email := Some owner_email; u_pickupCode := None;
                  u_status := Some email_sent; u_pickedUpAt := None |}
               store2,
             true, owner_email)
        | NotifyReturns false | NotifyThrows _ =>
            (updateCard (Card.id card)
               {| u_redId := None; u_fullName := saved_name;
                  u_email := Some owner_email; u_pickupCode := None;
                  u_status := None; u_pickedUpAt := None |}
               store2,
             false, owner_email)
        end
      else (store2, false, None) in
    (* final card and response *)
    match findCardById (Card.id card) store3 with
    | None =>
        ({| code := 500; json := Error "Failed to process card photo" |},
         store3)
    | Some finalCard =>
        let referenceCode :=
          Js.toUpperCase (Js.substring0 8 (Card.id card)) in
        let redIdForMessage := Js.or redIdToUse (Card.redId finalCard) in
        let message0 :=
          match extractedInfo with
          | Some info =>
              if Js.truthy (ei_redId info) || Js.truthy (ei_fullName info)
              then "Thanks! We extracted information from the card."
              else "Thanks! Your report has been recorded."
          | None => "Thanks! Your report has been recorded."
          end in
        let message1 :=
          if Js.truthy redIdForMessage then
            message0 +:+ " Your RedID is " +:+ text redIdForMessage +:+ "."
          else message0 in
        let message2 :=
          if Js.truthy (Card.boxId finalCard)
             && Js.truthy (Card.pickupCode finalCard) then
            message1 +:+ " The card is stored at "
              +:+ text (Card.boxId finalCard) +:+ ". Pickup code: "
              +:+ text (Card.pickupCode finalCard) +:+ "."
          else message1 in
        let message :=
          message2 +:+ " Your reference ID is " +:+ referenceCode +:+ "." in
        (ok (PhotoData
           {| r_cardId := Card.id finalCard;
              r_referenceCode := referenceCode;
              r_message := message;
              r_boxId := Js.or_null (Card.boxId finalCard);
              r_pickupCode := Js.or_null (Card.pickupCode finalCard);
              r_redId :=
                Js.or redIdForMessage (Js.or_null (Card.redId finalCard));
              r_extractedInfo := extractedInfo;
              r_emailSent := emailSentStatus;
              r_emailAddress := Js.or_null emailAddress |}),
         store3)
    end.

(** *** POST /found-card-redid *)

Record redidRequest := {
  rd_redId : option string;
  rd_boxId : option string;
  rd_random : nat → N;
  rd_uuid : string;
  rd_now : Date;
  rd_notify : notifyOutcome
}.

Definition foundCardRedid (req : redidRequest) (cardsStore : store)
    : response * store :=
  let redId := rd_redId req in
  let boxId := rd_boxId req in
  if negb (Js.truthy redId) || negb (Js.truthy boxId) then
    ({| code := 400; json := Error "redId and boxId are required" |},
     cardsStore)
  else
    let pickupCode := generatePickupCode 4 (rd_random req) in
    let '(card, store1) :=
      createCard
        {| cd_redId := Some redId;
           cd_source := Some box;
           cd_finderContact := None;
           cd_locationDescription := None;
           cd_boxId := Some boxId;
           cd_pickupCode := Some (Some pickupCode);
           cd_status := Some waiting_for_email |}
        (rd_uuid req) (rd_now req) cardsStore in
    let owner_email := RedIdEmailMap.getEmailByRedId redId in
    let store2 :=
      if Js.truthy owner_email then
        match rd_notify req with
        | NotifyReturns true =>
            updateCard (Card.id card)
              {| u_redId := None; u_fullName := Some None;
                 u_email := Some owner_email; u_pickupCode := None;
                 u_status := Some email_sent; u_pickedUpAt := None |}
              store1
        | NotifyReturns false | NotifyThrows _ =>
            updateCard (Card.id card)
              {| u_redId := None; u_fullName := Some None;
                 u_email := Some owner_email; u_pickupCode := None;
                 u_status := None; u_pickedUpAt := None |}
              store1
        end
      else store1 in
    (ok (RedidData (Card.id card) pickupCode), store2).

(** *** POST /pickup-request *)

Definition pickupRequest (pickupCode boxId : option string) (now : Date)
    (cardsStore : store) : response * store :=
  if negb (Js.truthy pickupCode) || negb (Js.truthy boxId) then
    ({| code := 400; json := Error "pickupCode and boxId are required" |},
     cardsStore)
  else
    match findCardByPickupCode pickupCode boxId cardsStore with
    | None => (ok (PickupRefused "invalid_code"), cardsStore)
    | Some card =>
        if bool_decide (Card.status_ card = picked_up) then
          (ok (PickupRefused "already_picked_up"), cardsStore)
        else
          (ok (PickupOk "Card has been taken out successfully" (Card.id card)),
           updateCard (Card.id card)
             {| u_redId := None; u_fullName := None; u_email := None;
                u_pickupCode := None;
                u_status := Some picked_up; u_pickedUpAt := Some now |}
             cardsStore)
    end.

(** *** GET /cards/:id *)

Definition getCard (id : string) (cardsStore : store) : response :=
  let card := findCardById id cardsStore in
  let card :=
    match card with
    | None =>
        if bool_decide (String.length id = 8)
        then findCardByReferenceCode id cardsStore else None
    | Some _ => card
    end in
  let card :=
    match card with
    | None => findCardByReferenceCode id cardsStore
    | Some _ => card
    end in
  match card with
  | None =>
      {| code := 404;
         json := Error "Card not found. Please check your reference code." |}
  | Some c => ok (CardJson c)
  end.

(** *** POST /cards/:id/set-email *)

Record setEmailRequest := {
  se_id : string;
  se_email : option string;
  se_random : nat → N;
  se_notify : notifyOutcome
}.

Definition setEmail (req : setEmailRequest) (cardsStore : store)
    : response * store :=
  let id := se_id req in
  let email := se_email req in
  if negb (Js.truthy email) || negb (Js.includes_char "@" (text email)) then
    ({| code := 400; json := Error "Valid email address is required" |},
     cardsStore)
  else
    match findCardById id cardsStore with
    | None => ({| code := 404; json := Error "Card not found" |}, cardsStore)
    | Some card =>
        if negb (bool_decide (Card.status_ card = waiting_for_email)) then
          ({| code := 400;
              json := Error ("Card is not waiting for email. Current status: "
                             +:+ status_string (Card.status_ card)) |},
           cardsStore)
        else
          let store1 :=
            if Js.truthy (Card.boxId card)
               && negb (Js.truthy (Card.pickupCode card)) then
              updateCard (Card.id card)
                {| u_redId := None; u_fullName := None; u_email := None;
                   u_pickupCode :=
                     Some (Some (generatePickupCode 4 (se_random req)));
                   u_status := None; u_pickedUpAt := None |}
                cardsStore
            else cardsStore in
          let store2 :=
            updateCard (Card.id card)
              {| u_redId := None; u_fullName := None;
                 u_email := Some email; u_pickupCode := None;
                 u_status := None; u_pickedUpAt := None |}
              store1 in
          match se_notify req with
          | NotifyReturns true =>
              let store3 :=
                updateCard (Card.id card)
                  {| u_redId := None; u_fullName := None; u_email := None;
                     u_pickupCode := None;
                     u_status := Some email_sent; u_pickedUpAt := None |}
                  store2 in
              (ok (SetEmailResult true "Email sent successfully"
                     (findCardById id store3)),
               store3)
          | NotifyReturns false =>
              ({| code := 500;
                  json :=
                    SetEmailResult false
                      "Email address saved but failed to send email. Check SendGrid configuration."
                      (findCardById id store2) |},
               store2)
          | NotifyThrows message =>
              ({| code := 500;
                  json :=
                    ErrorWithMessage
                      "Failed to set email and send notification" message |},
               store2)
          end
    end.

(** The handler is an [async] function: it runs without interruption up to
    [await notifyOwnerOfFoundCard(owner, updatedCard)] and resumes with the
    result once the notifier has answered; other requests can be served in
    between.  [setEmail_before_await] is the part before the [await] (a
    response when the handler returns early, otherwise the [card.id] it goes
    on with) and [setEmail_after_await] the part after it. *)
Definition setEmail_before_await (req : setEmailRequest) (cardsStore : store)
    : (response + string) * store :=
  let id := se_id req in
  let email := se_email req in
  if negb (Js.truthy email) || negb (Js.includes_char "@" (text email)) then
    (inl {| code := 400; json := Error "Valid email address is required" |},
     cardsStore)
  else
    match findCardById id cardsStore with
    | None =>
        (inl {| code := 404; json := Error "Card not found" |}, cardsStore)
    | Some card =>
        if negb (bool_decide (Card.status_ card = waiting_for_email)) then
          (inl {| code := 400;
                  json :=
                    Error ("Card is not waiting for email. Current status: "
                           +:+ status_string (Card.status_ card)) |},
           cardsStore)
        else
          let store1 :=
            if Js.truthy (Card.boxId card)
               && negb (Js.truthy (Card.pickupCode card)) then
              updateCard (Card.id card)
                {| u_redId := None; u_fullName := None; u_email := None;
                   u_pickupCode :=
                     Some (Some (generatePickupCode 4 (se_random req)));
                   u_status := None; u_pickedUpAt := None |}
                cardsStore
            else cardsStore in
          (inr (Card.id card),
           updateCard (Card.id card)
             {| u_redId := None; u_fullName := None;
                u_email := Some email; u_pickupCode := None;
                u_status := None; u_pickedUpAt := None |}
             store1)
    end.

Definition setEmail_after_await (req : setEmailRequest) (card_id : string)
    (cardsStore : store) : response * store :=
  let id := se_id req in
  match se_notify req with
  | NotifyReturns true =>
      let store3 :=
        updateCard card_id
          {| u_redId := None; u_fullName := None; u_email := None;
             u_pickupCode := None;
             u_status := Some email_sent; u_pickedUpAt := None |}
          cardsStore in
      (ok (SetEmailResult true "Email sent successfully"
             (findCardById id store3)),
       store3)
  | NotifyReturns false =>
      ({| code := 500;
          json :=
            SetEmailResult false
              "Email address saved but failed to send email. Check SendGrid configuration."
              (findCardById id cardsStore) |},
       cardsStore)
  | NotifyThrows message =>
      ({| code := 500;
          json :=
            ErrorWithMessage
              "Failed to set email and send notification" message |},
       cardsStore)
  end.

(** *** The service as a whole

    One request to the API, with everything its handler obtains from
    outside.  The handlers are the only code that touches the store. *)
Inductive request :=
| PostFoundCardPhoto (req : photoRequest)
| PostFoundCardRedid (req : redidRequest)
| PostPickupRequest (pickupCode boxId : option string) (now : Date)
| GetCard (id : string)
| PostSetEmail (req : setEmailRequest).

Definition handle (r : request) (cardsStore : store) : response * store :=
  match r with
  | PostFoundCardPhoto req => foundCardPhoto req cardsStore
  | PostFoundCardRedid req => foundCardRedid req cardsStore
  | PostPickupRequest pickupCode boxId now =>
      pickupRequest pickupCode boxId now cardsStore
  | GetCard id => (getCard id cardsStore, cardsStore)
  | PostSetEmail req => setEmail req cardsStore
  end.

(** The store after a sequence of requests, served one after the other. *)
Fixpoint run (rs : list request) (cardsStore : store) : store :=
  match rs with
  | [] => cardsStore
  | r :: rs' => run rs' (handle r cardsStore).2
  end.

(** [crypto.randomUUID()] returns an identifier that no stored card has:
    the requirement on the identifier a request brings, and on those of a
    sequence of requests. *)
Definition fresh_id (r : request) (cardsStore : store) : Prop :=
  match r with
  | PostFoundCardPhoto req => ph_uuid req ∉ (Card.id <$> cardsStore)
  | PostFoundCardRedid req => rd_uuid req ∉ (Card.id <$> cardsStore)
  | _ => True
  end.

Fixpoint fresh_ids (rs : list request) (cardsStore : store) : Prop :=
  match rs with
  | [] => True
  | r :: rs' => fresh_id r cardsStore ∧ fresh_ids rs' (handle r cardsStore).2
  end.

End Routes.

(* ===================================================================== *)
(** ** The card lifecycle                                                   *)
(* ===================================================================== *)

Module Lifecycle.
Import CardsStore Routes.

(** The position of a status in the lifecycle
    waiting_for_email -> email_sent -> picked_up. *)
Definition rank (s : status) : nat :=
  match s with
  | waiting_for_email => 0
  | email_sent => 1
  | picked_up => 2
  end.

(** Every stored card has its own id. *)
Definition unique_ids (cardsStore : store) : Prop :=
  NoDup (Card.id <$> cardsStore).

(** A card that sits in a box has a pickup code. *)
Definition code_issued (c : Card.t) : Prop :=
  Js.truthy (Card.boxId c) → Js.truthy (Card.pickupCode c).


(** A pickup code as the generator is meant to produce it: four characters
    over the alphabet 1, 2, 3, 4. *)
Definition is_pickup_code (s : string) : Prop :=
  String.length s = 4
  ∧ Forall (λ a, a ∈ ["1"; "2"; "3"; "4"]%char) (String.list_ascii_of_string s).

(** Two queries that differ in letter case only. *)
Definition same_up_to_case (q1 q2 : string) : Prop :=
  Js.toUpperCase q1 = Js.toUpperCase q2.

(** The notification service reported success. *)
Definition notified (o : notifyOutcome) : bool :=
  match o with
  | NotifyReturns emailSent => emailSent
  | NotifyThrows _ => false
  end.

(** The results of [Math.random()] that the handler of a request sees. *)
Definition random_of (r : request) : nat → N :=
  match r with
  | PostFoundCardPhoto req => ph_random req
  | PostFoundCardRedid req => rd_random req
  | PostSetEmail req => se_random req
  | _ => λ _, 0%N
  end.

(** The [pickupCode] field of an intake response. *)
Definition response_pickupCode (res : response) : option string :=
  match json res with
  | PhotoData responseData => r_pickupCode responseData
  | RedidData _ pickupCode => Some pickupCode
  | _ => None
  end.

(** The [emailSent] field of a photo-intake response. *)
Definition response_emailSent (res : response) : option bool :=
  match json res with
  | PhotoData responseData => Some (r_emailSent responseData)
  | _ => None
  end.

(** The update that a successful pickup applies. *)
Definition pickup_updates (now : Date) : updates :=
  {| u_redId := None; u_fullName := None; u_email := None;
     u_pickupCode := None;
     u_status := Some picked_up; u_pickedUpAt := Some now |}.

(** What any number of requests may turn a stored card into: the id and
    the box never change, an issued pickup code never changes, the status
    never moves backwards, and a picked-up card is frozen. *)
Definition evolves (c c' : Card.t) : Prop :=
  Card.id c' = Card.id c
  ∧ Card.boxId c' = Card.boxId c
  ∧ (Js.truthy (Card.pickupCode c) ∨ ¬ Js.truthy (Card.boxId c) →
     Card.pickupCode c' = Card.pickupCode c)
  ∧ rank (Card.status_ c) ≤ rank (Card.status_ c')
  ∧ (Card.status_ c = picked_up → c' = c).

(** The lifecycle as a transition system on stores: what one request may
    do to the store. *)
Inductive step (cardsStore : store) : store → Prop :=
| step_stay :
    step cardsStore cardsStore
| step_create new :
    Card.id new ∉ (Card.id <$> cardsStore) →
    Card.status_ new ≠ picked_up →
    code_issued new →
    step cardsStore (cardsStore ++ [new])
| step_edit l1 c l2 c' :
    cardsStore = l1 ++ c :: l2 →
    Card.status_ c = waiting_for_email →
    Card.status_ c' ≠ picked_up →
    evolves c c' →
    step cardsStore (l1 ++ c' :: l2)
| step_pickup l1 c l2 now :
    cardsStore = l1 ++ c :: l2 →
    Card.status_ c ≠ picked_up →
    Js.truthy (Card.pickupCode c) →
    Js.truthy (Card.boxId c) →
    findCardByPickupCode (Card.pickupCode c) (Card.boxId c) cardsStore
      = Some c →
    step cardsStore (l1 ++ assign c (pickup_updates now) :: l2).

End Lifecycle.

(* ===================================================================== *)
(** ** Sample requests and cards                                          *)
(* ===================================================================== *)

Module Examples.
Import CardsStore Routes.

(** A card left in BOX_1 whose owner has not been notified. *)
Definition card_waiting : Card.t :=
  {| Card.id := "3f2a9c1e-7b4d-4e6a-9c0f-1a2b3c4d5e6f";
     Card.redId := Some "999999999";
     Card.fullName := None;
     Card.email := None;
     Card.source_ := web;
     Card.finderContact := None;
     Card.locationDescription := Some "Library, 2nd floor";
     Card.boxId := Some "BOX_1";
     Card.pickupCode := Some "1234";
     Card.status_ := waiting_for_email;
     Card.createdAt := 1000%Z;
     Card.openRequestedAt := None;
     Card.pickedUpAt := None |}.

(** A later card in the same box that was given the same code. *)
Definition card_same_code : Card.t :=
  {| Card.id := "a1b2c3d4-1111-4222-8333-444455556666";
     Card.redId := Some "132274230";
     Card.fullName := None;
     Card.email := Some "ckotsiopulos5746@sdsu.edu";
     Card.source_ := box;
     Card.finderContact := None;
     Card.locationDescription := None;
     Card.boxId := Some "BOX_1";
     Card.pickupCode := Some "1234";
     Card.status_ := email_sent;
     Card.createdAt := 2000%Z;
     Card.openRequestedAt := None;
     Card.pickedUpAt := None |}.

(** [card_waiting] once it has been picked up. *)
Definition card_picked : Card.t :=
  assign card_waiting
    {| u_redId := None; u_fullName := None; u_email := None;
       u_pickupCode := None;
       u_status := Some picked_up; u_pickedUpAt := Some 5000%Z |}.

(** [card_waiting] once staff has set the owner's email and the owner has
    been notified. *)
Definition card_notified : Card.t :=
  assign card_waiting
    {| u_redId := None; u_fullName := None;
       u_email := Some (Some "owner@sdsu.edu"); u_pickupCode := None;
       u_status := Some email_sent; u_pickedUpAt := None |}.

(** Draws of [Math.random()] that select the digits 1, 2, 3, 4 in turn. *)
Definition draws (i : nat) : N :=
  (N.of_nat (i `mod` 4) * (Js.random_den / 4))%N.

Definition photo_no_identifier : photoRequest :=
  {| ph_finderContact := None;
     ph_locationDescription := None;
     ph_boxId := Some "BOX_1";
     ph_manualRedId := None;
     ph_filePath := Some "uploads/card-1700000000000-123456789.jpg";
     ph_existsSync := true;
     ph_random := draws;
     ph_uuid := "0c9d8e7f-6a5b-4c3d-9e1f-a0b1c2d3e4f5";
     ph_now := 3000%Z;
     ph_ocr := OcrReturns None;
     ph_notify := NotifyReturns true |}.

(** The OCR service fails, the finder typed the RedID, and SendGrid
    reports a failure. *)
Definition photo_manual_email_fails : photoRequest :=
  {| ph_finderContact := Some "finder@example.org";
     ph_locationDescription := None;
     ph_boxId := Some "BOX_1";
     ph_manualRedId := Some " 132264610 ";
     ph_filePath := Some "uploads/card-1700000000001-987654321.jpg";
     ph_existsSync := true;
     ph_random := draws;
     ph_uuid := "0c9d8e7f-6a5b-4c3d-9e1f-a0b1c2d3e4f5";
     ph_now := 3000%Z;
     ph_ocr := OcrThrows;
     ph_notify := NotifyReturns false |}.

Definition redid_scan : redidRequest :=
  {| rd_redId := Some "132274230";
     rd_boxId := Some "BOX_1";
     rd_random := draws;
     rd_uuid := "77777777-6a5b-4c3d-9e1f-a0b1c2d3e4f5";
     rd_now := 4000%Z;
     rd_notify := NotifyReturns true |}.

Definition set_email_request (id : string) : setEmailRequest :=
  {| se_id := id;
     se_email := Some "owner@sdsu.edu";
     se_random := draws;
     se_notify := NotifyReturns true |}.

End Examples.

(* ===================================================================== *)
(** ** What an accepted request leaves in the store                        *)
(* ===================================================================== *)

Module Outcome.
Import CardsStore Routes Lifecycle.

(** The card that an accepted POST /found-card-photo leaves at the end of
    the store: the card of [createCard] after the updates of the handler. *)
Definition photo_card (req : photoRequest) : Card.t :=
  let extractedInfo := extractedInfo_after (ph_ocr req) in
  let id_used := redIdToUse (ph_manualRedId req) extractedInfo in
  {| Card.id := ph_uuid req;
     Card.redId := Js.or_null id_used;
     Card.fullName := Js.or_null (extractedFullName extractedInfo);
     Card.email := owner_email id_used;
     Card.source_ := web;
     Card.finderContact := Js.or_null (ph_finderContact req);
     Card.locationDescription := Js.or_null (ph_locationDescription req);
     Card.boxId := Js.or_null (ph_boxId req);
     Card.pickupCode :=
       if Js.truthy (ph_boxId req)
       then Some (generatePickupCode 4 (ph_random req)) else None;
     Card.status_ :=
       if Js.truthy (owner_email id_used) && notified (ph_notify req)
       then email_sent else waiting_for_email;
     Card.createdAt := ph_now req;
     Card.openRequestedAt := None;
     Card.pickedUpAt := None |}.

(** The card that an accepted POST /found-card-redid leaves at the end of
    the store. *)
Definition redid_card (req : redidRequest) : Card.t :=
  let email := RedIdEmailMap.getEmailByRedId (rd_redId req) in
  {| Card.id := rd_uuid req;
     Card.redId := rd_redId req;
     Card.fullName := None;
     Card.email := email;
     Card.source_ := box;
     Card.finderContact := None;
     Card.locationDescription := None;
     Card.boxId := rd_boxId req;
     Card.pickupCode := Some (generatePickupCode 4 (rd_random req));
     Card.status_ :=
       if Js.truthy email && notified (rd_notify req)
       then email_sent else waiting_for_email;
     Card.createdAt := rd_now req;
     Card.openRequestedAt := None;
     Card.pickedUpAt := None |}.

(** The card that an accepted POST /cards/:id/set-email makes of the card
    [c] it found. *)
Definition setEmail_card (req : setEmailRequest) (c : Card.t) : Card.t :=
  {| Card.id := Card.id c;
     Card.redId := Card.redId c;
     Card.fullName := Card.fullName c;
     Card.email := se_email req;
     Card.source_ := Card.source_ c;
     Card.finderContact := Card.finderContact c;
     Card.locationDescription := Card.locationDescription c;
     Card.boxId := Card.boxId c;
     Card.pickupCode :=
       if Js.truthy (Card.boxId c) && negb (Js.truthy (Card.pickupCode c))
       then Some (generatePickupCode 4 (se_random req))
       else Card.pickupCode c;
     Card.status_ :=
       if notified (se_notify req) then email_sent else Card.status_ c;
     Card.createdAt := Card.createdAt c;
     Card.openRequestedAt := Card.openRequestedAt c;
     Card.pickedUpAt := Card.pickedUpAt c |}.

(** The email passes the check at the top of the set-email handler. *)
Definition valid_email (email : option string) : bool :=
  Js.truthy email && Js.includes_char "@" (text email).

(** [pickedUpAt] is set exactly on the cards that are picked up. *)
Definition stamp_consistent (c : Card.t) : Prop :=
  is_Some (Card.pickedUpAt c) ↔ Card.status_ c = picked_up.

(** A card has a pickup code exactly when it has a box, and a card whose
    owner was notified has an email. *)
Definition box_has_code (c : Card.t) : Prop :=
  Js.truthy (Card.pickupCode c) ↔ Js.truthy (Card.boxId c).

Definition notified_has_email (c : Card.t) : Prop :=
  Card.status_ c = email_sent → Js.truthy (Card.email c).

(** A stored pickup code, when there is one, is a four-digit code. *)
Definition code_well_formed (c : Card.t) : Prop :=
  ∀ pickupCode, Card.pickupCode c = Some pickupCode →
                is_pickup_code pickupCode.

(** All draws of [Math.random()] in a sequence of requests are in [0, 1). *)
Definition draws_in_unit_interval (rs : list request) : Prop :=
  Forall (λ r, ∀ j, Js.in_unit_interval (random_of r j)) rs.

(** A stored card answers to a token when the token is its id or, trimmed
    and in upper case, its reference code. *)
Definition answers_to (q : string) (c : Card.t) : Prop :=
  Card.id c = q ∨ (q ≠ "" ∧ cardRefCode c = Js.toUpperCase (Js.trim q)).

(** The fields of a card that are written at intake only. *)
Definition same_intake_data (c c' : Card.t) : Prop :=
  Card.id c' = Card.id c
  ∧ Card.redId c' = Card.redId c
  ∧ Card.fullName c' = Card.fullName c
  ∧ Card.source_ c' = Card.source_ c
  ∧ Card.finderContact c' = Card.finderContact c
  ∧ Card.locationDescription c' = Card.locationDescription c
  ∧ Card.boxId c' = Card.boxId c
  ∧ Card.createdAt c' = Card.createdAt c.

End Outcome.

(* ===================================================================== *)
(** ** More sample data                                                    *)
(* ===================================================================== *)

Module Samples.
Import CardsStore Routes Examples.

(** A notified card that waits in another box. *)
Definition card_elsewhere : Card.t :=
  {| Card.id := "5e6f7a8b-2222-4333-8444-555566667777";
     Card.redId := Some "131740957";
     Card.fullName := None;
     Card.email := Some "ngaribi3916sdsu.edu";
     Card.source_ := box;
     Card.finderContact := None;
     Card.locationDescription := None;
     Card.boxId := Some "BOX_2";
     Card.pickupCode := Some "4321";
     Card.status_ := email_sent;
     Card.createdAt := 1500%Z;
     Card.openRequestedAt := None;
     Card.pickedUpAt := None |}.

End Samples.

(* ===================================================================== *)
(** ** store/cardsStore.js: getAllCards, and GET /cards                     *)
(* ===================================================================== *)

Module CardsList.
Import CardsStore.

(** The comparator passed to [sort]:
    [(a, b) => new Date(b.createdAt) - new Date(a.createdAt)]. *)
Definition newest_first (a b : Card.t) : Z :=
  (Card.createdAt b - Card.createdAt a)%Z.

(** [Array.prototype.sort] is stable: with a comparator that is a
    difference of numbers its result is the stable sort of the array, which
    insertion from the right computes.  [a] goes before the first element
    that the comparator does not put before it. *)
Fixpoint sort_insert (comparefn : Card.t → Card.t → Z) (a : Card.t)
    (sorted : list Card.t) : list Card.t :=
  match sorted with
  | [] => [a]
  | b :: rest =>
      if (comparefn a b <=? 0)%Z then a :: b :: rest
      else b :: sort_insert comparefn a rest
  end.

Definition sort (comparefn : Card.t → Card.t → Z) (cards : list Card.t)
    : list Card.t :=
  foldr (sort_insert comparefn) [] cards.

(** [card.status === filters.status]. *)
Definition has_status (status : string) (card : Card.t) : Prop :=
  status_string (Card.status_ card) = status.

Global Instance has_status_dec (status : string) (card : Card.t) :
  Decision (has_status status card).
Proof. unfold has_status. apply _. Defined.

(** [getAllCards(filters)]; [filters_status] is [filters.status]. *)
Definition getAllCards (filters_status : option string) (cardsStore : store)
    : list Card.t :=
  let cards := cardsStore in
  let cards :=
    if Js.truthy filters_status
    then filter (has_status (default "" filters_status)) cards
    else cards in
  sort newest_first cards.

(** GET /cards: [filters = status ? { status } : {}]; the body of the 200
    response is the array. *)
Definition getCards (status : option string) (cardsStore : store)
    : list Card.t :=
  let filters_status := if Js.truthy status then status else None in
  getAllCards filters_status cardsStore.

End CardsList.

(* ===================================================================== *)
(** ** services/redIdEmailMap.js: the table as a mutable object            *)
(* ===================================================================== *)

Module RedIdTable.

(** The names that every object inherits from [Object.prototype]; reading
    one of them from the table gives a function (or, for [__proto__], the
    prototype itself) unless the table has an own property of that name. *)
Definition object_prototype_names : list string :=
  [ "constructor"; "__defineGetter__"; "__defineSetter__"; "hasOwnProperty";
    "__lookupGetter__"; "__lookupSetter__"; "isPrototypeOf";
    "propertyIsEnumerable"; "toString"; "valueOf"; "__proto__";
    "toLocaleString" ].

(** What reading a property of the table gives: a stored email, or the
    inherited member of that name. *)
Inductive value :=
| Email (email : string)
| Inherited (name : string).

Global Instance value_eq_dec : EqDecision value.
Proof. solve_decision. Defined.

(** [redIdEmailMap[key]]; [None] is [undefined]. *)
Definition get (table : gmap string string) (key : string) : option value :=
  match table !! key with
  | Some email => Some (Email email)
  | None =>
      if bool_decide (key ∈ object_prototype_names)
      then Some (Inherited key) else None
  end.

(** [v || null]: an empty string is falsy, an inherited member is an object
    and truthy. *)
Definition or_null (v : option value) : option value :=
  match v with
  | Some (Email email) => if bool_decide (email = "") then None else v
  | Some (Inherited _) => v
  | None => None
  end.

(** [getEmailByRedId] on a given content of the table; the table is mutable
    through [addRedIdMapping]. *)
Definition getEmailByRedId_in (table : gmap string string)
    (redId : option string) : option value :=
  match redId with
  | Some r =>
      if Js.truthy redId then
        let normalizedRedId := Js.removeWhitespace (Js.trim r) in
        or_null (get table normalizedRedId)
      else None
  | None => None
  end.

(** [redIdEmailMap[key] = email]: assigning a string to [__proto__] does
    nothing, any other name becomes an own property. *)
Definition set (key email : string) (table : gmap string string)
    : gmap string string :=
  if bool_decide (key = "__proto__") then table else <[key := email]> table.

(** [addRedIdMapping(redId, email)]. *)
Definition addRedIdMapping (redId email : option string)
    (table : gmap string string) : gmap string string :=
  match redId, email with
  | Some r, Some e =>
      if Js.truthy redId && Js.truthy email
      then set (Js.trim r) (Js.trim e) table
      else table
  | _, _ => table
  end.

End RedIdTable.

(* ===================================================================== *)
(** ** services/arduino.js                                                  *)
(* ===================================================================== *)

Module Arduino.

(** An element of [pickupCodesStore]. *)
Record codeEntry := {
  ce_pickupCode : string;
  ce_boxId : string;
  ce_cardId : option string;
  ce_timestamp : Date;
  ce_sent : bool
}.

(** The variables of the module: [serialPort] is represented by whether it
    is set. *)
Record state := {
  pickupCodesStore : list codeEntry;
  serialPort : bool;
  isPortOpen : bool
}.

(** The line feed that ends a message. *)
Definition LF : string := String "010"%char "".

(** [sendCodeToArduino(pickupCode, boxId)]: the messages handed to
    [serialPort.write]. *)
Definition sendCodeToArduino (pickupCode boxId : string) (st : state)
    : list string :=
  if negb (serialPort st) || negb (isPortOpen st) then []
  else ["CODE:" +:+ pickupCode +:+ ":" +:+ boxId +:+ LF].

(** [sendPickupCodeToArduino(pickupCode, boxId, cardId)] at time [now]: the
    state after the call and the messages written during it.  The call of
    [initializeArduinoConnection] that it starts when the port is not open
    reaches an [await] before it assigns a variable, so it has no effect
    within this call. *)
Definition sendPickupCodeToArduino (pickupCode boxId cardId : option string)
    (now : Date) (st : state) : state * list string :=
  match pickupCode, boxId with
  | Some code, Some boxid =>
      if negb (Js.truthy pickupCode) || negb (Js.truthy boxId) then (st, [])
      else
        let codeEntry sent :=
          {| ce_pickupCode := code; ce_boxId := boxid; ce_cardId := cardId;
             ce_timestamp := now; ce_sent := sent |} in
        if isPortOpen st && serialPort st then
          ({| pickupCodesStore := pickupCodesStore st ++ [codeEntry true];
              serialPort := serialPort st; isPortOpen := isPortOpen st |},
           sendCodeToArduino code boxid st)
        else
          ({| pickupCodesStore := pickupCodesStore st ++ [codeEntry false];
              serialPort := serialPort st; isPortOpen := isPortOpen st |},
           [])
  | _, _ => (st, [])
  end.

End Arduino.

(* ===================================================================== *)
(** ** arduino_integrated_code.ino                                          *)
(* ===================================================================== *)

(** The functions of Arduino's [String] class that the sketch uses.  A
    [String] is a C string: the model is about characters other than NUL. *)
Module WString.

(** [s.trim()]: [isspace] recognises the six characters of
    [Ascii.is_space]. *)
Definition trim (s : string) : string := Js.trimEnd (Js.trimStart s).

(** [s.startsWith(prefix)]. *)
Fixpoint startsWith (s prefix : string) {struct prefix} : bool :=
  match prefix, s with
  | "", _ => true
  | String a prefix', String b s' => bool_decide (a = b) && startsWith s' prefix'
  | String _ _, "" => false
  end.

Fixpoint drop (n : nat) (s : string) : string :=
  match n, s with
  | 0, _ => s
  | S n', String _ s' => drop n' s'
  | S _, "" => ""
  end.

(** [strchr]: the position of the first [ch]. *)
Fixpoint find_char (ch : ascii) (s : string) : option nat :=
  match s with
  | "" => None
  | String a s' => if bool_decide (a = ch) then Some 0 else S <$> find_char ch s'
  end.

(** [s.indexOf(ch, fromIndex)]. *)
Definition indexOf (s : string) (ch : ascii) (fromIndex : nat) : Z :=
  if bool_decide (String.length s ≤ fromIndex) then (-1)%Z
  else
    match find_char ch (drop fromIndex s) with
    | Some i => Z.of_nat (fromIndex + i)
    | None => (-1)%Z
    end.

(** [s.indexOf(pattern)], with [strstr]. *)
Definition indexOf_string (s pattern : string) : Z :=
  if bool_decide (String.length s ≤ 0) then (-1)%Z
  else
    match String.index 0 pattern s with
    | Some i => Z.of_nat i
    | None => (-1)%Z
    end.

(** [s.substring(left, right)]: the bounds are swapped when they are in
    the wrong order, and [right] is cut at the length. *)
Definition substring (s : string) (from to : nat) : string :=
  let lo := if bool_decide (to < from) then to else from in
  let hi := if bool_decide (to < from) then from else to in
  if bool_decide (String.length s ≤ lo) then ""
  else
    let hi := if bool_decide (String.length s < hi)
              then String.length s else hi in
    Js.substring0 (hi - lo) (drop lo s).

(** [s.substring(left)]. *)
Definition substring_from (s : string) (from : nat) : string :=
  substring s from (String.length s).

End WString.

Module Sketch.
Import WString.

Definition serverUrl : string := "http://10.130.55.25:4000".
Definition boxId : string := "BOX_1".

(** The global variables that the code entry uses; [validCodes] is the
    array of 20 strings. *)
Record state := {
  inputCode : string;
  validCodes : list string;
  codeCount : nat;
  serialBuffer : string
}.

Definition initial : state :=
  {| inputCode := ""; validCodes := replicate 20 ""; codeCount := 0;
     serialBuffer := "" |}.

Definition set_inputCode (v : string) (s : state) : state :=
  {| inputCode := v; validCodes := validCodes s; codeCount := codeCount s;
     serialBuffer := serialBuffer s |}.

Definition set_serialBuffer (v : string) (s : state) : state :=
  {| inputCode := inputCode s; validCodes := validCodes s;
     codeCount := codeCount s; serialBuffer := v |}.

(** [validCodes[0]], ..., [validCodes[codeCount - 1]]. *)
Definition stored (s : state) : list string :=
  take (codeCount s) (validCodes s).

(** [addValidCode(code)]. *)
Definition addValidCode (code : string) (s : state) : state :=
  if bool_decide (code ∈ stored s) then s
  else if bool_decide (codeCount s < 20) then
    {| inputCode := inputCode s;
       validCodes := <[codeCount s := code]> (validCodes s);
       codeCount := S (codeCount s);
       serialBuffer := serialBuffer s |}
  else s.

(** What the network gives during a call of [checkCode]: [WiFi.status()]
    and, when connected, the result of [http.POST] and [http.getString]. *)
Record network := {
  connected : bool;
  httpResponseCode : Z;
  response : string
}.

(** What [checkCode] does to the outside. *)
Inductive action :=
| Post (url jsonPayload : string)
| OpenDoor.

Global Instance action_eq_dec : EqDecision action.
Proof. solve_decision. Defined.

Definition quoted (s : string) : string :=
  String "034"%char (s +:+ String "034"%char "").

Definition jsonPayload (code : string) : string :=
  "{" +:+ quoted "pickupCode" +:+ ":" +:+ quoted code +:+ ","
  +:+ quoted "boxId" +:+ ":" +:+ quoted boxId +:+ "}".

(** [checkCode()]; it assigns none of the variables. *)
Definition checkCode (net : network) (s : state) : list action :=
  let foundInList := bool_decide (inputCode s ∈ stored s) in
  if connected net then
    Post (serverUrl +:+ "/api/pickup-request") (jsonPayload (inputCode s)) ::
    if (0 <? httpResponseCode net)%Z then
      if (httpResponseCode net =? 200)%Z
         && (0 <? indexOf_string (response net) (quoted "ok" +:+ ":true"))%Z
      then [OpenDoor]
      else []
    else
      if foundInList then [OpenDoor] else []
  else
    if foundInList then [OpenDoor] else [].

Definition is_line_end (c : ascii) : bool :=
  bool_decide (c = "010"%char) || bool_decide (c = "013"%char).

(** The block that parses a complete line [CODE:<code>:<box>] held in
    [serialBuffer]. *)
Definition parse_code_line (s : state) : state :=
  if startsWith (serialBuffer s) "CODE:" then
    let codeStart := 5 in
    let codeEnd := indexOf (serialBuffer s) ":"%char codeStart in
    if (Z.of_nat codeStart <? codeEnd)%Z then
      let pickupCode :=
        substring (serialBuffer s) codeStart (Z.to_nat codeEnd) in
      let receivedBoxId :=
        substring_from (serialBuffer s) (Z.to_nat (codeEnd + 1)) in
      if bool_decide (receivedBoxId = boxId)
      then addValidCode pickupCode s
      else s
    else s
  else s.

(** The body of [while (Serial.available() > 0)] for the character [c]
    read: the state after it, and the states in which it calls
    [checkCode]. *)
Definition serial_char (c : ascii) (s : state) : state * list state :=
  if bool_decide (c = "C"%char) && (String.length (serialBuffer s) =? 0) then
    (set_serialBuffer "C" s, [])
  else if 0 <? String.length (serialBuffer s) then
    let s := set_serialBuffer (serialBuffer s +:+ String c "") s in
    let s :=
      if is_line_end c then
        let s := set_serialBuffer (trim (serialBuffer s)) s in
        let s := parse_code_line s in
        set_serialBuffer "" s
      else s in
    let s :=
      if 50 <? String.length (serialBuffer s)
      then set_serialBuffer "" s else s in
    (s, [])
  else if (49 <=? nat_of_ascii c) && (nat_of_ascii c <=? 52) then
    if String.length (inputCode s) <? 4
    then (set_inputCode (inputCode s +:+ String c "") s, [])
    else (s, [])
  else if is_line_end c then
    if 0 <? String.length (inputCode s)
    then (set_inputCode "" s, [s])
    else (s, [])
  else if bool_decide (c = "008"%char) || bool_decide (c = "127"%char) then
    if 0 <? String.length (inputCode s)
    then (set_inputCode
            (substring (inputCode s) 0 (String.length (inputCode s) - 1)) s,
          [])
    else (s, [])
  else (s, []).

(** The [while] loop on the characters that are available. *)
Fixpoint while_available (available : string) (s : state)
    : state * list state :=
  match available with
  | "" => (s, [])
  | String c rest =>
      let '(s1, calls1) := serial_char c s in
      let '(s2, calls2) := while_available rest s1 in
      (s2, calls1 ++ calls2)
  end.

(** One run of [loop()] from the serial input on: the [while] loop and the
    submission of a code of four digits. *)
Definition loop (available : string) (s : state) : state * list state :=
  let '(s1, calls) := while_available available s in
  if String.length (inputCode s1) =? 4
  then (set_inputCode "" s1, calls ++ [s1])
  else (s1, calls).

(** Runs of [loop()], one after the other. *)
Fixpoint loops (available : list string) (s : state) : state * list state :=
  match available with
  | [] => (s, [])
  | input :: rest =>
      let '(s1, calls1) := loop input s in
      let '(s2, calls2) := loops rest s1 in
      (s2, calls1 ++ calls2)
  end.

(** The characters that the keypad branch accepts. *)
Definition keypad_digits (code : string) : Prop :=
  Forall (λ a, a ∈ ["1"; "2"; "3"; "4"]%char)
    (String.list_ascii_of_string code).

(** What the sketch keeps true of its variables. *)
Record well_formed (s : state) : Prop := {
  wf_array : length (validCodes s) = 20;
  wf_count : codeCount s ≤ 20;
  wf_distinct : NoDup (stored s);
  wf_input_length : String.length (inputCode s) ≤ 4;
  wf_input_digits : keypad_digits (inputCode s);
  wf_buffer : String.length (serialBuffer s) ≤ 50
}.

(** No NUL character in the input. *)
Definition no_NUL (input : string) : Prop :=
  Forall (λ a, a ≠ "000"%char) (String.list_ascii_of_string input).

(** No line feed and no carriage return in a text. *)
Definition one_line (text : string) : Prop :=
  Forall (λ a, is_line_end a = false) (String.list_ascii_of_string text).

(** [checkCode] gets no answer: WiFi is down, or [http.POST] returns an
    error code. *)
Definition backend_unreachable (net : network) : Prop :=
  connected net = false ∨ (httpResponseCode net ≤ 0)%Z.

End Sketch.

(* ===================================================================== *)
(** ** frontend: pages/AdminPage.jsx and pages/LostCardStatusPage.jsx       *)
(* ===================================================================== *)

Module AdminPage.

(** The status that [fetchCards] asks GET /cards for. *)
Definition fetchCards_status : option string := Some "waiting_for_email".

(** The check at the top of [handleSetEmail]: the request is sent unless
    [!emailInput.trim() || !emailInput.includes('@')]. *)
Definition handleSetEmail_sends (emailInput : string) : bool :=
  negb (negb (Js.truthy (Some (Js.trim emailInput)))
        || negb (Js.includes_char "@" emailInput)).

(** The [email] of the body that [handleSetEmail] posts. *)
Definition handleSetEmail_email (emailInput : string) : option string :=
  Some (Js.trim emailInput).

End AdminPage.

Module LostCardStatusPage.

(** [value.replace(/[^1-4]/g, '')]. *)
Fixpoint keep_1_to_4 (value : string) : string :=
  match value with
  | "" => ""
  | String a rest =>
      if (49 <=? nat_of_ascii a) && (nat_of_ascii a <=? 52)
      then String a (keep_1_to_4 rest)
      else keep_1_to_4 rest
  end.

(** [onChange] of the pickup code field: the new [pickupCode] state for the
    value of the field. *)
Definition onChange (value : string) : string := keep_1_to_4 value.

(** The pickup form sends nothing when [!pickupCode.trim()]; otherwise the
    [pickupCode] of the body is [pickupCode.trim()]. *)
Definition onSubmit_pickupCode (pickupCode : string) : option string :=
  if negb (Js.truthy (Some (Js.trim pickupCode))) then None
  else Some (Js.trim pickupCode).

End LostCardStatusPage.

(* ===================================================================== *)
(** ** The strings on which the string functions of [Js] are exact          *)
(* ===================================================================== *)

Module Domain.

(** [Js.trim], [Js.removeWhitespace] and [Js.toUpperCase] are
    [String.prototype.trim], [replace(/\s+/g, '')] and
    [String.prototype.toUpperCase] on strings of ASCII characters: there the
    white space is the six characters of [Ascii.is_space] and the letters
    with an upper case are a to z.  Outside ASCII the JavaScript functions
    also take the no-break space and the other Unicode white space, and map
    other letters. *)
Definition ascii_only (s : string) : Prop :=
  Forall (λ a, nat_of_ascii a < 128) (String.list_ascii_of_string s).

Global Instance ascii_only_dec (s : string) : Decision (ascii_only s).
Proof. unfold ascii_only. apply _. Defined.

(** The property [key] of the table [redIdEmailMap] is its own or absent:
    [RedIdEmailMap.getEmailByRedId] reads own properties, and an object
    literal also answers to the names it inherits from
    [Object.prototype]. *)
Definition own_or_absent (key : string) : Prop :=
  key ∉ RedIdTable.object_prototype_names.

Global Instance own_or_absent_dec (key : string) :
  Decision (own_or_absent key).
Proof. unfold own_or_absent. apply _. Defined.

End Domain.

(* ===================================================================== *)
(** * Properties                                                            *)
(* ===================================================================== *)

(** ** Strings and truthiness *)

Section JsFacts.

Lemma truthy_Some (s : string) : Js.truthy (Some s) ↔ s ≠ "".
Proof.
  unfold Js.truthy. case_bool_decide; simpl; intuition.
Qed.

Lemma or_null_truthy (x : option string) : Js.truthy x → Js.or_null x = x.
Proof. unfold Js.or_null, Js.or. by destruct (Js.truthy x). Qed.

Lemma or_null_falsy (x : option string) :
  Js.truthy x = false → Js.or_null x = None.
Proof. unfold Js.or_null, Js.or. by intros ->. Qed.

Lemma or_null_cases (x : option string) :
  (Js.truthy x ∧ Js.or_null x = x) ∨ (¬ Js.truthy x ∧ Js.or_null x = None).
Proof.
  unfold Js.or_null, Js.or. destruct (Js.truthy x); [left|right]; naive_solver.
Qed.

Lemma string_length_app (s1 s2 : string) :
  String.length (s1 +:+ s2) = String.length s1 + String.length s2.
Proof. induction s1 as [|a s1 IH]; simpl; [done|]. by rewrite IH. Qed.

Lemma list_ascii_app (s1 s2 : string) :
  String.list_ascii_of_string (s1 +:+ s2)
  = String.list_ascii_of_string s1 ++ String.list_ascii_of_string s2.
Proof. induction s1 as [|a s1 IH]; simpl; [done|]. by rewrite IH. Qed.

Lemma upper_char_space (a : ascii) :
  Ascii.is_space (Js.upper_char a) = Ascii.is_space a.
Proof. by destruct a as [[] [] [] [] [] [] [] []]. Qed.

Lemma upper_char_idemp (a : ascii) :
  Js.upper_char (Js.upper_char a) = Js.upper_char a.
Proof. by destruct a as [[] [] [] [] [] [] [] []]. Qed.

Lemma toUpperCase_idemp (s : string) :
  Js.toUpperCase (Js.toUpperCase s) = Js.toUpperCase s.
Proof.
  induction s as [|a s IH]; simpl; [done|].
  by rewrite upper_char_idemp, IH.
Qed.

Lemma toUpperCase_empty (s : string) : Js.toUpperCase s = "" ↔ s = "".
Proof. by destruct s. Qed.

Lemma toUpperCase_length (s : string) :
  String.length (Js.toUpperCase s) = String.length s.
Proof. induction s as [|a s IH]; simpl; [done|]. by rewrite IH. Qed.

Lemma trimStart_upper (s : string) :
  Js.toUpperCase (Js.trimStart s) = Js.trimStart (Js.toUpperCase s).
Proof.
  induction s as [|a s IH]; simpl; [done|].
  rewrite upper_char_space. by destruct (Ascii.is_space a).
Qed.

Lemma trimEnd_upper (s : string) :
  Js.toUpperCase (Js.trimEnd s) = Js.trimEnd (Js.toUpperCase s).
Proof.
  induction s as [|a s IH]; simpl; [done|].
  rewrite <- IH, upper_char_space.
  destruct (Js.trimEnd s); simpl; [|done].
  by destruct (Ascii.is_space a).
Qed.

Lemma trim_upper (s : string) :
  Js.toUpperCase (Js.trim s) = Js.trim (Js.toUpperCase s).
Proof. unfold Js.trim. by rewrite trimEnd_upper, trimStart_upper. Qed.

(** White space that [trim] strips would be removed anyway. *)
Lemma removeWhitespace_trimStart (s : string) :
  Js.removeWhitespace (Js.trimStart s) = Js.removeWhitespace s.
Proof.
  induction s as [|a s IH]; simpl; [done|].
  destruct (Ascii.is_space a) eqn:E; simpl; [done|]. by rewrite E.
Qed.

Lemma removeWhitespace_trimEnd (s : string) :
  Js.removeWhitespace (Js.trimEnd s) = Js.removeWhitespace s.
Proof.
  induction s as [|a s IH]; simpl; [done|].
  rewrite <- IH.
  destruct (Js.trimEnd s); simpl.
  - destruct (Ascii.is_space a) eqn:E; simpl; [done|]. by rewrite E.
  - done.
Qed.

Lemma removeWhitespace_trim (s : string) :
  Js.removeWhitespace (Js.trim s) = Js.removeWhitespace s.
Proof.
  unfold Js.trim. by rewrite removeWhitespace_trimEnd, removeWhitespace_trimStart.
Qed.

Lemma removeWhitespace_idemp (s : string) :
  Js.removeWhitespace (Js.removeWhitespace s) = Js.removeWhitespace s.
Proof.
  induction s as [|a s IH]; simpl; [done|].
  destruct (Ascii.is_space a) eqn:E; simpl; [done|]. by rewrite E, IH.
Qed.

Lemma random_den_nonzero : Js.random_den ≠ 0%N.
Proof. unfold Js.random_den. by apply N.pow_nonzero. Qed.

Lemma floor_random_times_lt (len m : N) :
  (0 < len)%N → Js.in_unit_interval m →
  (Js.floor_random_times len m < len)%N.
Proof.
  unfold Js.in_unit_interval, Js.floor_random_times. intros Hlen Hm.
  apply N.Div0.div_lt_upper_bound. nia.
Qed.

End JsFacts.

(** ** The pickup-code generator *)

Section Generator.
Import Routes Lifecycle.

Lemma digit_at_nonempty (idx : N) : 1 ≤ String.length (digit_at idx).
Proof.
  unfold digit_at, allowedDigits.
  destruct (N.to_nat idx) as [|[|[|[|n]]]]; simpl; lia.
Qed.

Lemma digit_at_digit (idx : N) :
  (idx < 4)%N →
  String.length (digit_at idx) = 1
  ∧ Forall (λ a, a ∈ ["1"; "2"; "3"; "4"]%char)
      (String.list_ascii_of_string (digit_at idx)).
Proof.
  intros Hidx. unfold digit_at, allowedDigits.
  assert (N.to_nat idx < 4) as Hn by lia.
  destruct (N.to_nat idx) as [|[|[|[|n]]]]; simpl; [..|lia];
    (split; [done|]); repeat constructor.
Qed.

Lemma generatePickupCode_loop_length (random : nat → N) (n i : nat)
    (code : string) :
  (∀ j, Js.in_unit_interval (random j)) →
  String.length (generatePickupCode_loop n i random code)
  = String.length code + n.
Proof.
  intros Hr. revert i code.
  induction n as [|n IH]; intros i code; cbn [generatePickupCode_loop]; [lia|].
  rewrite IH, string_length_app.
  destruct (digit_at_digit
    (Js.floor_random_times (N.of_nat (length allowedDigits)) (random i)))
    as [-> _]; [|lia].
  by apply floor_random_times_lt.
Qed.

Lemma generatePickupCode_loop_alphabet (random : nat → N) (n i : nat)
    (code : string) :
  (∀ j, Js.in_unit_interval (random j)) →
  Forall (λ a, a ∈ ["1"; "2"; "3"; "4"]%char)
    (String.list_ascii_of_string code) →
  Forall (λ a, a ∈ ["1"; "2"; "3"; "4"]%char)
    (String.list_ascii_of_string (generatePickupCode_loop n i random code)).
Proof.
  intros Hr. revert i code.
  induction n as [|n IH]; intros i code Hcode; cbn [generatePickupCode_loop]; [done|].
  apply IH. rewrite list_ascii_app. apply Forall_app. split; [done|].
  apply digit_at_digit. by apply floor_random_times_lt.
Qed.

Lemma generatePickupCode_is_pickup_code (random : nat → N) :
  (∀ j, Js.in_unit_interval (random j)) →
  is_pickup_code (generatePickupCode 4 random).
Proof.
  intros Hr. split.
  - unfold generatePickupCode. by rewrite generatePickupCode_loop_length.
  - by apply generatePickupCode_loop_alphabet.
Qed.

(** Whatever [Math.random] returns, the loop appends something at every
    round, so the generated code is never the empty string. *)
Lemma generatePickupCode_loop_grows (random : nat → N) (n i : nat)
    (code : string) :
  String.length code + n
  ≤ String.length (generatePickupCode_loop n i random code).
Proof.
  revert i code.
  induction n as [|n IH]; intros i code; cbn [generatePickupCode_loop]; [lia|].
  etrans; [|apply IH]. rewrite string_length_app.
  pose proof (digit_at_nonempty
    (Js.floor_random_times (N.of_nat (length allowedDigits)) (random i))).
  lia.
Qed.

Lemma generatePickupCode_truthy (random : nat → N) :
  Js.truthy (Some (generatePickupCode 4 random)).
Proof.
  apply truthy_Some. intros Heq.
  pose proof (generatePickupCode_loop_grows random 4 0 "") as Hlen.
  unfold generatePickupCode in Heq. rewrite Heq in Hlen. simpl in Hlen. lia.
Qed.

End Generator.

(** ** The store *)

Section StoreFacts.
Import CardsStore Lifecycle.

Lemma findCardById_Some (i : string) (cs : store) (c : Card.t) :
  findCardById i cs = Some c → Card.id c = i ∧ c ∈ cs.
Proof.
  induction cs as [|d cs IH]; simpl; [done|].
  case_bool_decide.
  - intros [= ->]. split; [done|left].
  - intros [? ?]%IH. split; [done|by right].
Qed.

Lemma findCardById_None (i : string) (cs : store) :
  findCardById i cs = None ↔ i ∉ (Card.id <$> cs).
Proof.
  induction cs as [|d cs IH]; simpl.
  - split; [intros _; apply not_elem_of_nil|done].
  - rewrite not_elem_of_cons. case_bool_decide as Hd.
    + split; [done|]. intros [Hne _]. by destruct Hne.
    + rewrite IH. split; [by split|by intros [_ ?]].
Qed.

Lemma findCardById_split (i : string) (cs : store) (c : Card.t) :
  findCardById i cs = Some c →
  ∃ l1 l2, cs = l1 ++ c :: l2 ∧ i ∉ (Card.id <$> l1).
Proof.
  induction cs as [|d cs IH]; simpl; [done|].
  case_bool_decide as Hd.
  - intros [= ->]. exists [], cs. split; [done|apply not_elem_of_nil].
  - intros (l1 & l2 & -> & Hl1)%IH. exists (d :: l1), l2.
    split; [done|]. rewrite fmap_cons, not_elem_of_cons. naive_solver.
Qed.

Lemma findCardById_at (l1 l2 : store) (c : Card.t) :
  Card.id c ∉ (Card.id <$> l1) →
  findCardById (Card.id c) (l1 ++ c :: l2) = Some c.
Proof.
  induction l1 as [|d l1 IH]; simpl.
  - intros _. by rewrite bool_decide_eq_true_2.
  - rewrite not_elem_of_cons. intros [? ?].
    rewrite bool_decide_eq_false_2 by done. by apply IH.
Qed.

Lemma findCardById_app_l (i : string) (cs l : store) (c : Card.t) :
  findCardById i cs = Some c → findCardById i (cs ++ l) = Some c.
Proof.
  induction cs as [|d cs IH]; simpl; [done|]. by case_bool_decide.
Qed.

(** Replacing a card by one with the same id keeps every lookup by id
    pointing at the same place. *)
Lemma findCardById_replace (i : string) (l1 l2 : store) (c c' d : Card.t) :
  Card.id c' = Card.id c →
  findCardById i (l1 ++ c :: l2) = Some d →
  ∃ d', findCardById i (l1 ++ c' :: l2) = Some d'
        ∧ (d' = d ∨ (d = c ∧ d' = c')).
Proof.
  intros Hid. induction l1 as [|e l1 IH]; simpl.
  - rewrite Hid. case_bool_decide; naive_solver.
  - case_bool_decide; naive_solver.
Qed.

Lemma updateCard_at (j : string) (u : updates) (l1 l2 : store) (c : Card.t) :
  j ∉ (Card.id <$> l1) → Card.id c = j →
  updateCard j u (l1 ++ c :: l2) = l1 ++ assign c u :: l2.
Proof.
  intros Hl1 Hc. induction l1 as [|d l1 IH]; simpl.
  - by rewrite bool_decide_eq_true_2.
  - rewrite fmap_cons, not_elem_of_cons in Hl1. destruct Hl1 as [? ?].
    rewrite bool_decide_eq_false_2 by done. by rewrite IH.
Qed.

Lemma updateCard_last (j : string) (u : updates) (cs : store) (c : Card.t) :
  j ∉ (Card.id <$> cs) → Card.id c = j →
  updateCard j u (cs ++ [c]) = cs ++ [assign c u].
Proof. apply updateCard_at. Qed.

Lemma unique_ids_split (l1 l2 : store) (c : Card.t) :
  unique_ids (l1 ++ c :: l2) →
  (Card.id c ∉ (Card.id <$> l1)) ∧ (Card.id c ∉ (Card.id <$> l2)).
Proof.
  unfold unique_ids. rewrite fmap_app, fmap_cons.
  intros (? & Hdisj & [? ?]%NoDup_cons)%NoDup_app. split; [|done].
  intros Hin. apply (Hdisj _ Hin). left.
Qed.


Lemma unique_ids_replace (l1 l2 : store) (c c' : Card.t) :
  Card.id c' = Card.id c →
  unique_ids (l1 ++ c :: l2) → unique_ids (l1 ++ c' :: l2).
Proof.
  unfold unique_ids. intros Hid.
  by rewrite !fmap_app, !fmap_cons, Hid.
Qed.

Lemma unique_ids_snoc (cs : store) (c : Card.t) :
  Card.id c ∉ (Card.id <$> cs) → unique_ids cs → unique_ids (cs ++ [c]).
Proof.
  unfold unique_ids. intros Hc Hu. rewrite fmap_app. apply NoDup_app.
  split; [done|]. split; [|apply NoDup_singleton].
  intros x Hx [->|[]%elem_of_nil]%elem_of_cons. done.
Qed.

Lemma findCardByPickupCode_Some (p b : option string) (cs : store)
    (c : Card.t) :
  findCardByPickupCode p b cs = Some c →
  c ∈ cs ∧ Card.pickupCode c = p ∧ Card.boxId c = b.
Proof.
  induction cs as [|d cs IH]; simpl; [done|].
  destruct (matches_pickup p b d) eqn:E.
  - intros [= ->]. unfold matches_pickup in E.
    apply andb_true_iff in E as [?%bool_decide_eq_true ?%bool_decide_eq_true].
    split; [left|done].
  - intros (? & ? & ?)%IH. split; [by right|done].
Qed.

Lemma findCardByPickupCode_split (p b : option string) (cs : store)
    (c : Card.t) :
  findCardByPickupCode p b cs = Some c →
  ∃ l1 l2, cs = l1 ++ c :: l2
           ∧ Forall (λ d, matches_pickup p b d = false) l1.
Proof.
  induction cs as [|d cs IH]; simpl; [done|].
  destruct (matches_pickup p b d) eqn:E.
  - intros [= ->]. by exists [], cs.
  - intros (l1 & l2 & -> & Hl1)%IH. exists (d :: l1), l2.
    split; [done|]. by constructor.
Qed.

Lemma findCardByPickupCode_first (p b : option string) (l1 l2 : store)
    (c : Card.t) :
  Forall (λ d, matches_pickup p b d = false) l1 →
  matches_pickup p b c = true →
  findCardByPickupCode p b (l1 ++ c :: l2) = Some c.
Proof.
  intros Hl1 Hc. induction Hl1 as [|d l1 Hd _ IH]; simpl.
  - by rewrite Hc.
  - by rewrite Hd.
Qed.

Lemma matches_pickup_self (c : Card.t) :
  matches_pickup (Card.pickupCode c) (Card.boxId c) c = true.
Proof. unfold matches_pickup. by rewrite !bool_decide_eq_true_2. Qed.


End StoreFacts.

(** ** The lifecycle relation *)

Section LifecycleFacts.
Import CardsStore Routes Lifecycle.

Lemma evolves_refl (c : Card.t) : evolves c c.
Proof. by repeat split. Qed.

Lemma evolves_trans (c1 c2 c3 : Card.t) :
  evolves c1 c2 → evolves c2 c3 → evolves c1 c3.
Proof.
  intros (Hid & Hbox & Hcode & Hrank & Hfrozen)
         (Hid' & Hbox' & Hcode' & Hrank' & Hfrozen').
  repeat split.
  - congruence.
  - congruence.
  - intros H. rewrite Hcode', Hcode; [done..|].
    rewrite Hcode, Hbox by done. done.
  - lia.
  - intros H. specialize (Hfrozen H). subst c2. by apply Hfrozen'.
Qed.



Lemma evolves_pickup (c : Card.t) (now : Date) :
  Card.status_ c ≠ picked_up → evolves c (assign c (pickup_updates now)).
Proof.
  intros Hs. repeat split; try done.
  simpl. destruct (Card.status_ c); simpl; lia.
Qed.

Lemma step_unique_ids (cs cs' : store) :
  step cs cs' → unique_ids cs → unique_ids cs'.
Proof.
  intros [|new Hnew _ _|l1 c l2 c' -> _ _ (Hid & _)|l1 c l2 now -> _ _ _ _] Hu.
  - done.
  - by apply unique_ids_snoc.
  - by apply (unique_ids_replace l1 l2 c).
  - by apply (unique_ids_replace l1 l2 c).
Qed.


(** One step seen from a stored card: it is still stored under its id, and
    it has evolved. *)
Lemma step_find (cs cs' : store) (i : string) (c : Card.t) :
  step cs cs' → findCardById i cs = Some c →
  ∃ c', findCardById i cs' = Some c' ∧ evolves c c'.
Proof.
  intros [|new _ _ _|l1 d l2 d' -> Hs Hs' Hev|l1 d l2 now -> Hs _ _ _] Hfind.
  - exists c. split; [done|apply evolves_refl].
  - exists c. split; [by apply findCardById_app_l|apply evolves_refl].
  - destruct (findCardById_replace i l1 l2 d d' c) as (c' & ? & Hc');
      [by destruct Hev|done|].
    exists c'. split; [done|].
    destruct Hc' as [->|[-> ->]]; [apply evolves_refl|done].
  - destruct (findCardById_replace i l1 l2 d (assign d (pickup_updates now)) c)
      as (c' & ? & Hc'); [done..|].
    exists c'. split; [done|].
    destruct Hc' as [->|[-> ->]]; [apply evolves_refl|by apply evolves_pickup].
Qed.


End LifecycleFacts.

(** ** The handlers implement the lifecycle *)

Section Refinement.
Import CardsStore Routes Lifecycle.

(** The store after an accepted photo intake. *)
Lemma foundCardPhoto_store (req : photoRequest) (cs : store) :
  ph_uuid req ∉ (Card.id <$> cs) →
  (foundCardPhoto req cs).2 = cs
  ∨ ∃ new, (foundCardPhoto req cs).2 = cs ++ [new]
           ∧ Card.id new = ph_uuid req
           ∧ Card.status_ new ≠ picked_up
           ∧ Card.boxId new = Js.or_null (ph_boxId req)
           ∧ Card.pickupCode new =
               (if Js.truthy (ph_boxId req)
                then Some (generatePickupCode 4 (ph_random req)) else None).
Proof.
  intros Hfresh. unfold foundCardPhoto.
  destruct (negb (Js.truthy (ph_filePath req))); [by left|].
  destruct (negb (ph_existsSync req)); [by left|].
  right. cbn [createCard].
  destruct (_ || _); destruct (Js.truthy (owner_email _));
    try destruct (ph_notify req) as [[]|];
    repeat (rewrite updateCard_last by done);
    (eexists; split; [by destruct (findCardById _ _)|]); done.
Qed.

Lemma foundCardRedid_store (req : redidRequest) (cs : store) :
  rd_uuid req ∉ (Card.id <$> cs) →
  (foundCardRedid req cs).2 = cs
  ∨ ∃ new, (foundCardRedid req cs).2 = cs ++ [new]
           ∧ Card.id new = rd_uuid req
           ∧ Card.status_ new ≠ picked_up
           ∧ Card.boxId new = rd_boxId req
           ∧ Card.pickupCode new
             = Some (generatePickupCode 4 (rd_random req)).
Proof.
  intros Hfresh. unfold foundCardRedid.
  destruct (_ || _); [by left|].
  right. cbn [createCard].
  destruct (Js.truthy (RedIdEmailMap.getEmailByRedId _));
    try destruct (rd_notify req) as [[]|];
    repeat (rewrite updateCard_last by done);
    (eexists; split; [done|]); done.
Qed.

(** The store after a pickup request. *)
Lemma pickupRequest_store (p b : option string) (now : Date) (cs : store) :
  unique_ids cs →
  (pickupRequest p b now cs).2 = cs
  ∨ ∃ l1 c l2,
      cs = l1 ++ c :: l2
      ∧ (pickupRequest p b now cs).2
        = l1 ++ assign c (pickup_updates now) :: l2
      ∧ Js.truthy p ∧ Js.truthy b
      ∧ findCardByPickupCode p b cs = Some c
      ∧ Card.status_ c ≠ picked_up.
Proof.
  intros Hu. unfold pickupRequest.
  destruct (Js.truthy p) eqn:Hp; [|by left].
  destruct (Js.truthy b) eqn:Hb; [|by left]. simpl.
  destruct (findCardByPickupCode p b cs) as [c|] eqn:Hfind; [|by left].
  case_bool_decide as Hs; [by left|]. right.
  pose proof Hfind as (Hin & _)%findCardByPickupCode_Some.
  apply list_elem_of_split in Hin as (l1 & l2 & ->).
  exists l1, c, l2. split; [done|].
  apply unique_ids_split in Hu as [? _].
  split; [by apply updateCard_at|]. done.
Qed.

(** The store after a manual email assignment. *)
Lemma setEmail_store (req : setEmailRequest) (cs : store) :
  (setEmail req cs).2 = cs
  ∨ ∃ l1 c l2 c',
      cs = l1 ++ c :: l2
      ∧ (setEmail req cs).2 = l1 ++ c' :: l2
      ∧ findCardById (se_id req) cs = Some c
      ∧ Card.status_ c = waiting_for_email
      ∧ Card.status_ c' ≠ picked_up
      ∧ Card.email c' = se_email req
      ∧ evolves c c'.
Proof.
  unfold setEmail.
  destruct (_ || _); [by left|].
  destruct (findCardById (se_id req) cs) as [c|] eqn:Hfind; [|by left].
  case_bool_decide as Hs; [|by left]. right. simpl.
  pose proof Hfind as [Hid _]%findCardById_Some.
  apply findCardById_split in Hfind as (l1 & l2 & -> & Hl1).
  rewrite <- Hid in Hl1.
  exists l1, c, l2.
  destruct (Js.truthy (Card.boxId c)) eqn:Hbox;
    destruct (Js.truthy (Card.pickupCode c)) eqn:Hcode;
    destruct (se_notify req) as [[]|]; simpl;
    repeat (rewrite updateCard_at by done);
    (eexists; split; [done|]; split; [done|]);
    (split; [done|]);
    (split; [done|]); (split; [by simpl; rewrite ?Hs|]);
    (split; [done|]);
    (repeat split; simpl; rewrite ?Hs; simpl; try done; try lia;
     rewrite ?Hbox, ?Hcode; try (intros [[]|H]; by try destruct H)).
Qed.

(** Every handler takes a step of the lifecycle. *)
Theorem handle_step (r : request) (cs : store) :
  unique_ids cs → fresh_id r cs → step cs (handle r cs).2.
Proof.
  intros Hu Hfresh. destruct r as [req|req|p b now|id|req]; simpl in *.
  - destruct (foundCardPhoto_store req cs Hfresh)
      as [->|(new & -> & Hid & Hs & Hbox & Hcode)]; [constructor|].
    apply step_create; [by rewrite Hid|done|].
    unfold code_issued. rewrite Hbox, Hcode.
    destruct (or_null_cases (ph_boxId req)) as [[Ht ->]|[_ ->]]; [|done].
    intros _. destruct (Js.truthy (ph_boxId req)); [|done].
    apply generatePickupCode_truthy.
  - destruct (foundCardRedid_store req cs Hfresh)
      as [->|(new & -> & Hid & Hs & Hbox & Hcode)]; [constructor|].
    apply step_create; [by rewrite Hid|done|].
    unfold code_issued. rewrite Hcode. intros _.
    apply generatePickupCode_truthy.
  - destruct (pickupRequest_store p b now cs Hu)
      as [->|(l1 & c & l2 & -> & -> & Hp & Hb & Hfind & Hs)]; [constructor|].
    pose proof Hfind as (_ & Hcp & Hcb)%findCardByPickupCode_Some.
    apply step_pickup; rewrite ?Hcp, ?Hcb; done.
  - constructor.
  - destruct (setEmail_store req cs)
      as [->|(l1 & c & l2 & c' & -> & -> & _ & Hs & Hs' & _ & Hev)];
      [constructor|].
    by apply (step_edit _ l1 c l2 c').
Qed.

End Refinement.

(** ** Sequences of requests *)

Section Traces.
Import CardsStore Routes Lifecycle.

Lemma run_app (rs1 rs2 : list request) (cs : store) :
  run (rs1 ++ rs2) cs = run rs2 (run rs1 cs).
Proof. revert cs. induction rs1 as [|r rs1 IH]; intros cs; simpl; auto. Qed.

Lemma fresh_ids_app (rs1 rs2 : list request) (cs : store) :
  fresh_ids (rs1 ++ rs2) cs ↔ fresh_ids rs1 cs ∧ fresh_ids rs2 (run rs1 cs).
Proof.
  revert cs. induction rs1 as [|r rs1 IH]; intros cs; simpl; [tauto|].
  rewrite IH. tauto.
Qed.

(** Induction along a sequence of requests: a property of the store that
    every step of the lifecycle keeps holds after the sequence. *)
Lemma run_invariant (P : store → Prop) :
  (∀ cs cs', unique_ids cs → P cs → step cs cs' → P cs') →
  ∀ rs cs, unique_ids cs → fresh_ids rs cs → P cs →
           P (run rs cs) ∧ unique_ids (run rs cs).
Proof.
  intros HP rs. induction rs as [|r rs IH]; intros cs Hu Hf Hcs; simpl.
  - done.
  - destruct Hf as [Hr Hrs].
    pose proof (handle_step r cs Hu Hr) as Hstep.
    apply IH; [by eapply step_unique_ids|done|by eapply HP].
Qed.

Lemma run_unique_ids (rs : list request) (cs : store) :
  unique_ids cs → fresh_ids rs cs → unique_ids (run rs cs).
Proof. intros Hu Hf. by apply (run_invariant (λ _, True)). Qed.

(** A stored card stays stored under its id, and evolves. *)
Lemma run_find (rs : list request) (cs : store) (i : string) (c : Card.t) :
  unique_ids cs → fresh_ids rs cs → findCardById i cs = Some c →
  ∃ c', findCardById i (run rs cs) = Some c' ∧ evolves c c'.
Proof.
  intros Hu Hf Hfind.
  apply (run_invariant
    (λ s, ∃ c', findCardById i s = Some c' ∧ evolves c c')); [|done..|].
  - intros s s' _ (c1 & Hc1 & Hev) Hstep.
    destruct (step_find s s' i c1 Hstep Hc1) as (c2 & ? & ?).
    exists c2. split; [done|]. by eapply evolves_trans.
  - exists c. split; [done|apply evolves_refl].
Qed.



End Traces.

(** ** The pickup protocol *)

Section Pickup.
Import CardsStore Routes Lifecycle Examples.

(** A request whose pair designates a card that is not picked up yet: the
    response, and the store after it. *)
Lemma pickupRequest_accepts (p b : option string) (now : Date) (cs : store)
    (c : Card.t) :
  unique_ids cs → Js.truthy p → Js.truthy b →
  findCardByPickupCode p b cs = Some c → Card.status_ c ≠ picked_up →
  ∃ l1 l2,
    cs = l1 ++ c :: l2
    ∧ Forall (λ d, matches_pickup p b d = false) l1
    ∧ (Card.id c ∉ (Card.id <$> l1))
    ∧ pickupRequest p b now cs
      = (ok (PickupOk "Card has been taken out successfully" (Card.id c)),
         l1 ++ assign c (pickup_updates now) :: l2).
Proof.
  intros Hu Hp Hb Hfind Hs. unfold pickupRequest.
  apply Is_true_true in Hp. apply Is_true_true in Hb. rewrite Hp, Hb, Hfind. simpl.
  rewrite bool_decide_eq_false_2 by done.
  apply findCardByPickupCode_split in Hfind as (l1 & l2 & -> & Hl1).
  apply unique_ids_split in Hu as [Hid _].
  exists l1, l2. repeat split; [done..|].
  f_equal. by apply updateCard_at.
Qed.




(** C5.  A pickup request does not look at whether the owner was ever
    notified: for a card that is still [waiting_for_email] (as for one that
    is [email_sent]) the request with its code and box succeeds, and the
    stored card becomes the same card with status [picked_up] and
    [pickedUpAt] set to the time of the call. *)
Theorem pickup_from_any_open_status (cs : store) (p b : option string)
    (c : Card.t) (now : Date) :
  unique_ids cs → Js.truthy p → Js.truthy b →
  findCardByPickupCode p b cs = Some c →
  Card.status_ c = waiting_for_email ∨ Card.status_ c = email_sent →
  ∃ c',
    (pickupRequest p b now cs).1
      = ok (PickupOk "Card has been taken out successfully" (Card.id c))
    ∧ findCardById (Card.id c) (pickupRequest p b now cs).2 = Some c'
    ∧ Card.status_ c' = picked_up
    ∧ Card.pickedUpAt c' = Some now
    ∧ c' = assign c (pickup_updates now).
Proof.
  intros Hu Hp Hb Hfind Hs.
  assert (Card.status_ c ≠ picked_up) as Hs' by (destruct Hs; congruence).
  destruct (pickupRequest_accepts p b now cs c Hu Hp Hb Hfind Hs')
    as (l1 & l2 & Hcs & Hl1 & Hid & ->).
  exists (assign c (pickup_updates now)). split; [done|]. split; [|done].
  by apply (findCardById_at l1 l2 (assign c (pickup_updates now))).
Qed.

Lemma pickup_from_any_open_status_witness :
  ∃ c',
    (pickupRequest (Some "1234") (Some "BOX_1") 5000%Z [card_waiting]).1
      = ok (PickupOk "Card has been taken out successfully"
              (Card.id card_waiting))
    ∧ findCardById (Card.id card_waiting)
        (pickupRequest (Some "1234") (Some "BOX_1") 5000%Z [card_waiting]).2
      = Some c'
    ∧ Card.status_ c' = picked_up
    ∧ Card.pickedUpAt c' = Some 5000%Z
    ∧ c' = assign card_waiting (pickup_updates 5000%Z).
Proof.
  apply (pickup_from_any_open_status [card_waiting] (Some "1234")
           (Some "BOX_1") card_waiting 5000%Z).
  - apply NoDup_singleton.
  - exact I.
  - exact I.
  - reflexivity.
  - left. reflexivity.
Defined.







(** C7.  A manual email assignment on a stored card whose status is not
    [waiting_for_email] is refused with status 400 and leaves the store,
    and so the card, exactly as it was; for a well-formed email the
    response is the error that names the card's current status. *)
Theorem setEmail_refused_when_not_waiting (req : setEmailRequest)
    (cs : store) (c : Card.t) :
  findCardById (se_id req) cs = Some c →
  Card.status_ c ≠ waiting_for_email →
  (setEmail req cs).2 = cs
  ∧ findCardById (se_id req) (setEmail req cs).2 = Some c
  ∧ code (setEmail req cs).1 = 400
  ∧ (Js.truthy (se_email req) →
     Js.includes_char "@" (text (se_email req)) →
     json (setEmail req cs).1
     = Error ("Card is not waiting for email. Current status: "
              +:+ status_string (Card.status_ c))).
Proof.
  intros Hfind Hs. unfold setEmail. rewrite Hfind.
  rewrite bool_decide_eq_false_2 by done. simpl.
  destruct (Js.truthy (se_email req)),
    (Js.includes_char "@" (text (se_email req))); simpl; naive_solver.
Qed.

Lemma setEmail_refused_when_not_waiting_witness :
  let req := set_email_request (Card.id card_picked) in
  (setEmail req [card_picked]).2 = [card_picked]
  ∧ findCardById (se_id req) (setEmail req [card_picked]).2
    = Some card_picked
  ∧ code (setEmail req [card_picked]).1 = 400
  ∧ json (setEmail req [card_picked]).1
    = Error "Card is not waiting for email. Current status: picked_up".
Proof.
  intros req.
  destruct (setEmail_refused_when_not_waiting req [card_picked] card_picked)
    as (Hstore & Hfind & Hcode & Hjson).
  - reflexivity.
  - discriminate.
  - split; [exact Hstore|]. split; [exact Hfind|]. split; [exact Hcode|].
    apply Hjson; exact I.
Defined.

(** When every handler runs to its end before the next request is served, a
    stored card stays stored under its id and its status never moves
    backwards in the order waiting_for_email, email_sent, picked_up: an
    [email_sent] card is never [waiting_for_email] again and a [picked_up]
    card stays [picked_up].  The handlers are [async], and a request served
    during an [await] is outside this statement: see the section on
    requests served during an await. *)
Theorem status_never_regresses (cs : store) (rs1 rs2 : list request)
    (i : string) (c : Card.t) :
  unique_ids cs → fresh_ids (rs1 ++ rs2) cs →
  findCardById i (run rs1 cs) = Some c →
  ∃ c', findCardById i (run (rs1 ++ rs2) cs) = Some c'
        ∧ rank (Card.status_ c) ≤ rank (Card.status_ c')
        ∧ (Card.status_ c = email_sent →
           Card.status_ c' ≠ waiting_for_email)
        ∧ (Card.status_ c = picked_up → Card.status_ c' = picked_up).
Proof.
  intros Hu [Hf1 Hf2]%fresh_ids_app Hc. rewrite run_app.
  pose proof (run_unique_ids rs1 cs Hu Hf1) as Hu1.
  destruct (run_find rs2 _ i c Hu1 Hf2 Hc) as (c' & Hc' & Hev).
  exists c'. split; [done|].
  destruct Hev as (_ & _ & _ & Hrank & Hfrozen).
  split; [done|]. split.
  - intros Hs Hs'. rewrite Hs, Hs' in Hrank. simpl in Hrank. lia.
  - intros Hs. by rewrite (Hfrozen Hs).
Qed.

Lemma status_never_regresses_witness :
  let i := Card.id card_waiting in
  let rs1 := [PostSetEmail (set_email_request i)] in
  let rs2 :=
    [PostPickupRequest (Some "1234") (Some "BOX_1") 5000%Z;
     PostSetEmail (set_email_request i);
     PostFoundCardPhoto photo_manual_email_fails] in
  ∃ c', findCardById i (run (rs1 ++ rs2) [card_waiting]) = Some c'
        ∧ rank (Card.status_ card_notified) ≤ rank (Card.status_ c')
        ∧ (Card.status_ card_notified = email_sent →
           Card.status_ c' ≠ waiting_for_email)
        ∧ (Card.status_ card_notified = picked_up →
           Card.status_ c' = picked_up).
Proof.
  intros i rs1 rs2.
  apply (status_never_regresses [card_waiting] rs1 rs2 i card_notified).
  - apply NoDup_singleton.
  - simpl. repeat split.
    apply (bool_decide_unpack _). vm_compute. exact I.
  - reflexivity.
Defined.

End Pickup.

(** ** Intake *)

Section Intake.
Import CardsStore Routes Lifecycle Examples.

(** The email lookup returns a non-empty address or nothing. *)
Lemma getEmailByRedId_cases (redId : option string) :
  RedIdEmailMap.getEmailByRedId redId = None
  ∨ Js.truthy (RedIdEmailMap.getEmailByRedId redId).
Proof.
  unfold RedIdEmailMap.getEmailByRedId.
  destruct redId as [r|]; [|by left].
  destruct (Js.truthy (Some r)); [|by left].
  destruct (or_null_cases
    (RedIdEmailMap.redIdEmailMap !! Js.removeWhitespace (Js.trim r)))
    as [[? ->]|[_ ->]]; [by right|by left].
Qed.

Lemma owner_email_cases (redIdToUse : option string) :
  owner_email redIdToUse = None ∨ Js.truthy (owner_email redIdToUse).
Proof.
  unfold owner_email. destruct (Js.truthy redIdToUse); [|by left].
  apply getEmailByRedId_cases.
Qed.

Lemma owner_email_or_null (redIdToUse : option string) :
  Js.or_null (owner_email redIdToUse) = owner_email redIdToUse.
Proof.
  destruct (owner_email_cases redIdToUse) as [->|H]; [done|].
  by apply or_null_truthy.
Qed.

(** An accepted photo intake: the response, the store, and the card that
    the call leaves in the store. *)
Lemma foundCardPhoto_accepted (req : photoRequest) (cs : store) :
  Js.truthy (ph_filePath req) → ph_existsSync req = true →
  ph_uuid req ∉ (Card.id <$> cs) →
  let id_used :=
    redIdToUse (ph_manualRedId req) (extractedInfo_after (ph_ocr req)) in
  let sent :=
    Js.truthy (owner_email id_used) && notified (ph_notify req) in
  ∃ final d,
    foundCardPhoto req cs = (ok (PhotoData d), cs ++ [final])
    ∧ findCardById (ph_uuid req) (cs ++ [final]) = Some final
    ∧ Card.id final = ph_uuid req
    ∧ Card.boxId final = Js.or_null (ph_boxId req)
    ∧ Card.pickupCode final
      = (if Js.truthy (ph_boxId req)
         then Some (generatePickupCode 4 (ph_random req)) else None)
    ∧ Card.redId final = Js.or_null id_used
    ∧ Card.email final = owner_email id_used
    ∧ Card.status_ final = (if sent then email_sent else waiting_for_email)
    ∧ Card.pickedUpAt final = None
    ∧ r_cardId d = ph_uuid req
    ∧ r_boxId d = Card.boxId final
    ∧ r_pickupCode d = Card.pickupCode final
    ∧ r_redId d = Js.or_null id_used
    ∧ r_emailSent d = sent
    ∧ r_emailAddress d = owner_email id_used.
Proof.
  intros Hfile Hexists Hfresh id_used sent. subst sent.
  unfold foundCardPhoto.
  apply Is_true_true in Hfile. rewrite Hfile, Hexists. simpl negb. cbv iota.
  cbn [createCard]. fold id_used.
  assert (Hfind : ∀ c : Card.t, Card.id c = ph_uuid req →
            findCardById (ph_uuid req) (cs ++ [c]) = Some c).
  { intros c Hc. rewrite <- Hc in *. by apply findCardById_at. }
  pose proof (owner_email_or_null id_used) as Hoe_null.
  assert (Hredid : Js.truthy id_used = false → Js.or_null id_used = None)
    by apply or_null_falsy.
  assert (Hredid' : Js.truthy id_used = true → Js.or_null id_used = id_used).
  { intros H. apply or_null_truthy. by rewrite H. }
  assert (Hoe_none : Js.truthy (owner_email id_used) = false →
            owner_email id_used = None).
  { intros H. destruct (owner_email_cases id_used) as [?|H']; [done|].
    by rewrite H in H'. }
  assert (Hbox : Js.or_null (Js.or_null (ph_boxId req))
                 = Js.or_null (ph_boxId req)).
  { by destruct (or_null_cases (ph_boxId req)) as [[? ->]|[_ ->]];
      [apply or_null_truthy|]. }
  assert (Hcode : Js.or_null
            (if Js.truthy (ph_boxId req)
             then Some (generatePickupCode 4 (ph_random req)) else None)
          = (if Js.truthy (ph_boxId req)
             then Some (generatePickupCode 4 (ph_random req)) else None)).
  { destruct (Js.truthy (ph_boxId req)); [|done].
    apply or_null_truthy, generatePickupCode_truthy. }
  destruct (Js.truthy id_used) eqn:Hid;
    destruct (Js.truthy (extractedFullName _)) eqn:Hfn; simpl orb; cbv iota;
    destruct (Js.truthy (owner_email id_used)) eqn:Hoe;
    try destruct (ph_notify req) as [[]|];
    repeat (rewrite updateCard_last by done);
    rewrite Hfind by done;
    (eexists _, _; split; [reflexivity|]); simpl.
  all: rewrite ?Hoe_null, ?Hbox, ?Hcode, ?Hid, ?Hoe.
  all: rewrite ?Hredid, ?Hredid', ?Hoe_none by done.
  all: simpl.
  all: (split; [by apply Hfind|]).
  all: unfold Js.or_null, Js.or; rewrite ?Hid; simpl; rewrite ?Hid.
  all: repeat split; try done.
  all: by apply Hoe_none.
Qed.
Lemma foundCardRedid_accepted (req : redidRequest) (cs : store) :
  Js.truthy (rd_redId req) → Js.truthy (rd_boxId req) →
  rd_uuid req ∉ (Card.id <$> cs) →
  ∃ final,
    foundCardRedid req cs
    = (ok (RedidData (rd_uuid req) (generatePickupCode 4 (rd_random req))),
       cs ++ [final])
    ∧ Card.id final = rd_uuid req
    ∧ Card.boxId final = rd_boxId req
    ∧ Card.pickupCode final = Some (generatePickupCode 4 (rd_random req)).
Proof.
  intros Hredid Hbox Hfresh. unfold foundCardRedid.
  apply Is_true_true in Hredid. apply Is_true_true in Hbox.
  rewrite Hredid, Hbox. simpl. cbn [createCard].
  destruct (Js.truthy (RedIdEmailMap.getEmailByRedId _));
    try destruct (rd_notify req) as [[]|];
    repeat (rewrite updateCard_last by done);
    by eexists.
Qed.

Lemma updateCard_length (j : string) (u : updates) (cs : store) :
  length (updateCard j u cs) = length cs.
Proof.
  induction cs as [|d cs IH]; simpl; [done|].
  case_bool_decide; simpl; by rewrite ?IH.
Qed.

(** Only the two intake handlers add a card to the store. *)
Lemma handle_adds_card (r : request) (cs : store) (new : Card.t) :
  (handle r cs).2 = cs ++ [new] →
  (∃ req, r = PostFoundCardPhoto req) ∨ (∃ req, r = PostFoundCardRedid req).
Proof.
  intros Hnew.
  assert (length (handle r cs).2 = S (length cs)) as Hlen.
  { rewrite Hnew, length_app. simpl. lia. }
  destruct r as [req|req|p b now|id|req]; [by eauto..| | |]; exfalso.
  - simpl in Hlen. unfold pickupRequest in Hlen.
    destruct (_ || _); [simpl in Hlen; lia|].
    destruct (findCardByPickupCode p b cs); [|simpl in Hlen; lia].
    case_bool_decide; simpl in Hlen; [lia|].
    rewrite updateCard_length in Hlen. lia.
  - simpl in Hlen. lia.
  - simpl in Hlen.
    destruct (setEmail_store req cs)
      as [Heq|(l1 & c & l2 & c' & -> & Heq & _)];
      rewrite Heq in Hlen; [lia|].
    rewrite !length_app in Hlen. simpl in Hlen. lia.
Qed.

(** C2.  A card that a request adds to the store with a box id has, in the
    store that the call returns and in the response, a pickup code of
    exactly four characters over 1, 2, 3, 4.  When the request is a photo
    intake that brings no manual RedID (none, or blank) and whose OCR step
    yields no RedID, the card is [waiting_for_email] and the response has
    [emailSent: false]. *)
Theorem intake_issues_pickup_code (r : request) (cs : store)
    (new : Card.t) :
  fresh_id r cs →
  (∀ j, Js.in_unit_interval (random_of r j)) →
  (handle r cs).2 = cs ++ [new] →
  Js.truthy (Card.boxId new) →
  (∃ pickupCode,
     Card.pickupCode new = Some pickupCode
     ∧ is_pickup_code pickupCode
     ∧ code (handle r cs).1 = 200
     ∧ response_pickupCode (handle r cs).1 = Some pickupCode)
  ∧ (∀ req, r = PostFoundCardPhoto req →
       Js.truthy (trimmedManualRedId (ph_manualRedId req)) = false →
       extractedRedId (extractedInfo_after (ph_ocr req)) = None →
       Card.status_ new = waiting_for_email
       ∧ response_emailSent (handle r cs).1 = Some false).
Proof.
  intros Hfresh Hrandom Hnew Hbox.
  destruct (handle_adds_card r cs new Hnew) as [[req ->]|[req ->]];
    simpl in *.
  - assert (Js.truthy (ph_filePath req) ∧ ph_existsSync req = true)
      as [Hfile Hexists].
    { unfold foundCardPhoto in Hnew.
      destruct (Js.truthy (ph_filePath req)); simpl in Hnew.
      - destruct (ph_existsSync req); [done|]. simpl in Hnew.
        apply (f_equal length) in Hnew. rewrite length_app in Hnew.
        simpl in Hnew. lia.
      - apply (f_equal length) in Hnew. rewrite length_app in Hnew.
        simpl in Hnew. lia. }
    destruct (foundCardPhoto_accepted req cs Hfile Hexists Hfresh)
      as (final & d & Hreq & _ & _ & Hfbox & Hfcode & _ & _ & Hstatus
          & _ & _ & _ & Hdcode & _ & Hsent & _).
    rewrite Hreq in Hnew |- *. simpl in Hnew.
    apply app_inj_tail in Hnew as [_ ->]. split.
    + exists (generatePickupCode 4 (ph_random req)).
      assert (Js.truthy (ph_boxId req) = true) as Hb.
      { rewrite Hfbox in Hbox.
        destruct (or_null_cases (ph_boxId req)) as [[? _]|[_ Hn]];
          [by apply Is_true_true|]. by rewrite Hn in Hbox. }
      rewrite Hb in Hfcode. split; [done|].
      split; [by apply generatePickupCode_is_pickup_code|].
      split; [done|]. unfold response_pickupCode. simpl. congruence.
    + intros req' [= <-] Hmanual Hocr.
      unfold redIdToUse, Js.or in Hstatus, Hsent.
      rewrite Hmanual, Hocr in Hstatus, Hsent.
      split; [done|]. unfold response_emailSent. simpl. by rewrite Hsent.
  - assert (Js.truthy (rd_redId req) ∧ Js.truthy (rd_boxId req))
      as [Hredid Hrbox].
    { unfold foundCardRedid in Hnew.
      destruct (Js.truthy (rd_redId req)), (Js.truthy (rd_boxId req));
        simpl in Hnew; try done;
        apply (f_equal length) in Hnew; rewrite length_app in Hnew;
        simpl in Hnew; lia. }
    destruct (foundCardRedid_accepted req cs Hredid Hrbox Hfresh)
      as (final & Hreq & _ & _ & Hfcode).
    rewrite Hreq in Hnew |- *. simpl in Hnew.
    apply app_inj_tail in Hnew as [_ ->]. split; [|done].
    exists (generatePickupCode 4 (rd_random req)).
    split; [done|]. split; [by apply generatePickupCode_is_pickup_code|].
    done.
Qed.

Lemma intake_issues_pickup_code_witness :
  let r := PostFoundCardPhoto photo_no_identifier in
  let new := new_card
    {| cd_redId := None; cd_source := Some web;
       cd_finderContact := Some None; cd_locationDescription := Some None;
       cd_boxId := Some (Some "BOX_1"); cd_pickupCode := Some (Some "1234");
       cd_status := Some waiting_for_email |}
    (ph_uuid photo_no_identifier) 3000%Z in
  (∃ pickupCode,
     Card.pickupCode new = Some pickupCode
     ∧ is_pickup_code pickupCode
     ∧ code (handle r [card_waiting]).1 = 200
     ∧ response_pickupCode (handle r [card_waiting]).1 = Some pickupCode)
  ∧ Card.status_ new = waiting_for_email
  ∧ response_emailSent (handle r [card_waiting]).1 = Some false.
Proof.
  intros r new.
  destruct (intake_issues_pickup_code r [card_waiting] new) as [Hcode Hno].
  - simpl. rewrite not_elem_of_cons. split; [discriminate|].
    apply not_elem_of_nil.
  - intros j. unfold Js.in_unit_interval. simpl. unfold draws.
    assert (N.of_nat (j `mod` 4) < 4)%N as Hlt.
    { pose proof (Nat.mod_upper_bound j 4). lia. }
    pose proof (N.Div0.mul_div_le Js.random_den 4).
    pose proof random_den_nonzero. nia.
  - vm_compute. reflexivity.
  - exact I.
  - split; [exact Hcode|]. by apply (Hno photo_no_identifier).
Defined.

(** C6.  In a photo intake whose identifier resolves to an email [e], when
    the notification does not succeed (it returns false, or throws), the
    intake is still answered 200, [e] is stored on the new card, the card
    stays [waiting_for_email], and the response has [emailSent: false]
    together with [emailAddress: e]. *)
Theorem photo_intake_email_failure (req : photoRequest) (cs : store)
    (e : string) :
  Js.truthy (ph_filePath req) → ph_existsSync req = true →
  ph_uuid req ∉ (Card.id <$> cs) →
  owner_email
    (redIdToUse (ph_manualRedId req) (extractedInfo_after (ph_ocr req)))
    = Some e →
  notified (ph_notify req) = false →
  ∃ final d,
    foundCardPhoto req cs = (ok (PhotoData d), cs ++ [final])
    ∧ findCardById (ph_uuid req) (cs ++ [final]) = Some final
    ∧ Card.email final = Some e
    ∧ Card.status_ final = waiting_for_email
    ∧ r_emailSent d = false
    ∧ r_emailAddress d = Some e.
Proof.
  intros Hfile Hexists Hfresh Hemail Hnotify.
  destruct (foundCardPhoto_accepted req cs Hfile Hexists Hfresh)
    as (final & d & Hreq & Hfind & _ & _ & _ & _ & Hfemail & Hstatus
        & _ & _ & _ & _ & _ & Hsent & Haddr).
  rewrite Hnotify, andb_false_r in Hstatus, Hsent.
  exists final, d. by rewrite <- Hemail.
Qed.

Lemma photo_intake_email_failure_witness :
  ∃ final d,
    foundCardPhoto photo_manual_email_fails [card_waiting]
    = (ok (PhotoData d), [card_waiting] ++ [final])
    ∧ findCardById (ph_uuid photo_manual_email_fails)
        ([card_waiting] ++ [final]) = Some final
    ∧ Card.email final = Some "ajasti7720@sdsu.edu"
    ∧ Card.status_ final = waiting_for_email
    ∧ r_emailSent d = false
    ∧ r_emailAddress d = Some "ajasti7720@sdsu.edu".
Proof.
  apply (photo_intake_email_failure photo_manual_email_fails [card_waiting]
           "ajasti7720@sdsu.edu").
  - exact I.
  - reflexivity.
  - simpl. rewrite not_elem_of_cons. split; [discriminate|].
    apply not_elem_of_nil.
  - vm_compute. reflexivity.
  - reflexivity.
Defined.

(** The email lookup normalises its argument itself, so looking up an
    already normalised RedID is looking up the RedID. *)
Lemma getEmailByRedId_normalized (s : string) :
  RedIdEmailMap.getEmailByRedId (Some (Js.removeWhitespace (Js.trim s)))
  = RedIdEmailMap.getEmailByRedId (Some s).
Proof.
  unfold RedIdEmailMap.getEmailByRedId, Js.truthy.
  rewrite !removeWhitespace_trim, removeWhitespace_idemp.
  case_bool_decide as H1; case_bool_decide as H2; simpl; try done.
  - by rewrite H1.
  - subst s. simpl in H1. done.
Qed.

Lemma getEmailByRedId_trim (s : string) :
  RedIdEmailMap.getEmailByRedId (Some (Js.trim s))
  = RedIdEmailMap.getEmailByRedId (Some s).
Proof.
  unfold RedIdEmailMap.getEmailByRedId, Js.truthy.
  rewrite !removeWhitespace_trim.
  case_bool_decide as H1; case_bool_decide as H2; simpl; try done.
  - by rewrite <- (removeWhitespace_trim s), H1.
  - by subst s.
Qed.

(** C8.  An accepted photo intake is answered 200 and leaves a new card in
    the store whatever the OCR step does, a thrown error included.  When a
    manual RedID that is not blank was supplied, the identifier used is the
    trimmed manual RedID whatever the OCR step returned: it is the [redId]
    of the card and of the response, and the email looked up, stored and
    reported is the one the table has for the manual RedID.  The manual
    RedID is a string of ASCII characters, on which [Js.trim] is the
    [trim] of the handler; the part on the email is for a RedID that does
    not name a member the table inherits from [Object.prototype], which
    [RedIdEmailMap.getEmailByRedId] leaves out. *)
Theorem manual_identifier_overrides_ocr (req : photoRequest) (cs : store) :
  Js.truthy (ph_filePath req) → ph_existsSync req = true →
  ph_uuid req ∉ (Card.id <$> cs) →
  ∃ final d,
    foundCardPhoto req cs = (ok (PhotoData d), cs ++ [final])
    ∧ findCardById (ph_uuid req) (cs ++ [final]) = Some final
    ∧ ∀ m, ph_manualRedId req = Some m →
        Domain.ascii_only m → Js.trim m ≠ "" →
        redIdToUse (ph_manualRedId req) (extractedInfo_after (ph_ocr req))
        = Some (Js.trim m)
        ∧ Card.redId final = Some (Js.trim m)
        ∧ r_redId d = Some (Js.trim m)
        ∧ (Domain.own_or_absent (Js.removeWhitespace m) →
           Card.email final = RedIdEmailMap.getEmailByRedId (Some m)
           ∧ r_emailAddress d = RedIdEmailMap.getEmailByRedId (Some m)
           ∧ r_emailSent d
             = Js.truthy (RedIdEmailMap.getEmailByRedId (Some m))
               && notified (ph_notify req)).
Proof.
  intros Hfile Hexists Hfresh.
  destruct (foundCardPhoto_accepted req cs Hfile Hexists Hfresh)
    as (final & d & Hreq & Hfind & _ & _ & _ & Hredid & Hfemail & _
        & _ & _ & _ & _ & Hdredid & Hsent & Haddr).
  exists final, d. split; [done|]. split; [done|].
  intros m Hm _ Htrim.
  assert (Js.truthy (Some (Js.trim m))) as Ht by by apply truthy_Some.
  assert (redIdToUse (ph_manualRedId req)
            (extractedInfo_after (ph_ocr req)) = Some (Js.trim m)) as Hused.
  { unfold redIdToUse, trimmedManualRedId, Js.or. rewrite Hm.
    change (Js.trim <$> Some m) with (Some (Js.trim m)).
    by apply Is_true_true in Ht as ->. }
  rewrite Hused in *.
  assert (owner_email (Some (Js.trim m))
          = RedIdEmailMap.getEmailByRedId (Some m)) as Howner.
  { unfold owner_email. apply Is_true_true in Ht as ->.
    change (text (Some (Js.trim m))) with (Js.trim m).
    by rewrite getEmailByRedId_normalized, getEmailByRedId_trim. }
  rewrite Howner in *. rewrite or_null_truthy in * by done.
  done.
Qed.

Lemma manual_identifier_overrides_ocr_witness :
  ∃ final d,
    foundCardPhoto photo_manual_email_fails [card_waiting]
    = (ok (PhotoData d), [card_waiting] ++ [final])
    ∧ findCardById (ph_uuid photo_manual_email_fails)
        ([card_waiting] ++ [final]) = Some final
    ∧ Card.redId final = Some "132264610"
    ∧ r_redId d = Some "132264610"
    ∧ Card.email final = Some "ajasti7720@sdsu.edu"
    ∧ r_emailAddress d = Some "ajasti7720@sdsu.edu".
Proof.
  destruct (manual_identifier_overrides_ocr photo_manual_email_fails
              [card_waiting]) as (final & d & Hreq & Hfind & Hmanual).
  - exact I.
  - reflexivity.
  - simpl. rewrite not_elem_of_cons. split; [discriminate|].
    apply not_elem_of_nil.
  - destruct (Hmanual " 132264610 ") as (_ & Hredid & Hdredid & Hemail).
    + reflexivity.
    + apply (bool_decide_unpack _). vm_compute. exact I.
    + discriminate.
    + destruct Hemail as (Hfe & Hde & _).
      * apply (bool_decide_unpack _). vm_compute. exact I.
      * exists final, d. repeat split; assumption.
Defined.

End Intake.

(** ** Lookup by reference code *)

Section ReferenceCode.
Import CardsStore Routes Lifecycle Examples.

Lemma same_up_to_case_empty (q1 q2 : string) :
  same_up_to_case q1 q2 → (q1 = "" ↔ q2 = "").
Proof.
  unfold same_up_to_case. intros H.
  rewrite <- (toUpperCase_empty q1), <- (toUpperCase_empty q2), H. done.
Qed.

(** The code that the lookup compares with the stored reference codes is
    the same for two queries that differ in letter case only. *)
Lemma same_up_to_case_normalized (q1 q2 : string) :
  same_up_to_case q1 q2 →
  Js.toUpperCase (Js.trim q1) = Js.toUpperCase (Js.trim q2).
Proof. unfold same_up_to_case. intros H. by rewrite !trim_upper, H. Qed.

Lemma cardRefCode_upper (c : Card.t) :
  Js.toUpperCase (cardRefCode c) = cardRefCode c.
Proof. apply toUpperCase_idemp. Qed.

Lemma substring0_length (n : nat) (s : string) :
  n ≤ String.length s → String.length (Js.substring0 n s) = n.
Proof.
  revert s. induction n as [|n IH]; intros [|a s]; simpl; try lia.
  intros H. rewrite IH; lia.
Qed.

Lemma cardRefCode_length (c : Card.t) :
  8 ≤ String.length (Card.id c) → String.length (cardRefCode c) = 8.
Proof.
  intros H. unfold cardRefCode.
  by rewrite toUpperCase_length, substring0_length.
Qed.

(** The scan returns the first stored card with the given reference
    code. *)
Lemma find_ref_stored (cs : store) (c : Card.t) :
  c ∈ cs →
  ∃ c', find_ref (cardRefCode c) cs = Some c'
        ∧ c' ∈ cs
        ∧ cardRefCode c' = cardRefCode c.
Proof.
  induction cs as [|d cs IH]; [by intros ?%elem_of_nil|].
  intros Hin. simpl. case_bool_decide as Hd.
  - exists d. split; [done|]. split; [left|done].
  - apply elem_of_cons in Hin as [->|Hin]; [done|].
    destruct (IH Hin) as (c' & ? & ? & ?).
    exists c'. split; [done|]. split; [by right|done].
Qed.

(** C9.  Two queries that differ in letter case only get the same answer
    from [findCardByReferenceCode] and, when neither is itself the id of a
    stored card, the same response from GET /cards/:id.  In particular the
    reference code of a stored card, typed in any letter case, finds a
    stored card with that reference code: the card itself when no other
    stored card has the same reference code. *)
Theorem reference_code_lookup_case_insensitive (cs : store)
    (q1 q2 : string) :
  same_up_to_case q1 q2 →
  findCardByReferenceCode q1 cs = findCardByReferenceCode q2 cs
  ∧ (findCardById q1 cs = None → findCardById q2 cs = None →
     getCard q1 cs = getCard q2 cs)
  ∧ (∀ c, c ∈ cs → q2 = cardRefCode c →
       cardRefCode c ≠ "" → Js.trim (cardRefCode c) = cardRefCode c →
       ∃ c', findCardByReferenceCode q1 cs = Some c'
             ∧ c' ∈ cs
             ∧ cardRefCode c' = cardRefCode c
             ∧ ((∀ d, d ∈ cs → cardRefCode d = cardRefCode c → d = c) →
                c' = c)).
Proof.
  intros Hcase.
  assert (findCardByReferenceCode q1 cs = findCardByReferenceCode q2 cs)
    as Heq.
  { unfold findCardByReferenceCode.
    rewrite (same_up_to_case_normalized q1 q2 Hcase).
    pose proof (same_up_to_case_empty q1 q2 Hcase) as Hempty.
    destruct (decide (q1 = "")) as [H1|H1].
    - by rewrite !bool_decide_eq_true_2 by tauto.
    - by rewrite !bool_decide_eq_false_2 by tauto. }
  split; [done|]. split.
  - intros H1 H2. unfold getCard. rewrite H1, H2, Heq.
    assert (String.length q1 = String.length q2) as ->; [|done].
    by rewrite <- (toUpperCase_length q1), Hcase, toUpperCase_length.
  - intros c Hin -> Hne Htrim. rewrite Heq.
    unfold findCardByReferenceCode.
    rewrite bool_decide_eq_false_2 by done.
    rewrite Htrim, cardRefCode_upper.
    destruct (find_ref_stored cs c Hin) as (c' & Hfind & Hin' & Href).
    exists c'. split; [done|]. split; [done|]. split; [done|].
    intros Huniq. by apply Huniq.
Qed.

Lemma reference_code_lookup_case_insensitive_witness :
  let cs := [card_waiting; card_same_code] in
  findCardByReferenceCode "a1b2c3d4" cs
    = findCardByReferenceCode "A1B2C3D4" cs
  ∧ getCard "a1b2c3d4" cs = getCard "A1B2C3D4" cs
  ∧ ∃ c', findCardByReferenceCode "a1b2c3d4" cs = Some c'
          ∧ c' ∈ cs
          ∧ cardRefCode c' = "A1B2C3D4".
Proof.
  intros cs.
  destruct (reference_code_lookup_case_insensitive cs "a1b2c3d4" "A1B2C3D4")
    as (Hfind & Hget & Hstored).
  - reflexivity.
  - split; [exact Hfind|]. split; [by apply Hget|].
    destruct (Hstored card_same_code) as (c' & Hc' & Hin & Href & _).
    + right. left.
    + reflexivity.
    + discriminate.
    + reflexivity.
    + exists c'. split; [exact Hc'|]. split; [exact Hin|exact Href].
Defined.

End ReferenceCode.

(** ** Requests served during an await *)

Section Await.
Import CardsStore Routes Lifecycle Examples.

(** The set-email handler is its two halves run back to back. *)
Lemma setEmail_halves (req : setEmailRequest) (cs : store) :
  setEmail req cs
  = match setEmail_before_await req cs with
    | (inl res, cs') => (res, cs')
    | (inr card_id, cs') => setEmail_after_await req card_id cs'
    end.
Proof.
  unfold setEmail, setEmail_before_await, setEmail_after_await.
  destruct (_ || _); [done|].
  destruct (findCardById (se_id req) cs) as [c|]; [|done].
  destruct (negb _); [done|]. by destruct (se_notify req) as [[]|].
Qed.

(** The theorems above are about requests served one after the other.  When
    a pickup request is served while the set-email handler waits for the
    notifier, the handler resumes on a card that is already [picked_up] and
    writes [email_sent] over it. *)
Lemma pickup_during_setEmail_await :
  let req := set_email_request (Card.id card_waiting) in
  let before := setEmail_before_await req [card_waiting] in
  let during :=
    pickupRequest (Some "1234") (Some "BOX_1") 5000%Z before.2 in
  let after := setEmail_after_await req (Card.id card_waiting) during.2 in
  before.1 = inr (Card.id card_waiting)
  ∧ Card.status_ <$> findCardById (Card.id card_waiting) during.2
    = Some picked_up
  ∧ Card.status_ <$> findCardById (Card.id card_waiting) after.2
    = Some email_sent.
Proof. by vm_compute. Qed.

(** C4.  The status of a card does move backwards.  The set-email handler
    tests that the card is [waiting_for_email] before it awaits the
    notifier, and writes [email_sent] after the await without testing
    again.  Here a pickup request with the card's code and box is served
    during the await: it answers ok and the card is [picked_up]; the
    notifier then reports success, the handler answers 200, and the card is
    [email_sent], with the [pickedUpAt] of the pickup still on it. *)
Theorem status_regresses_during_setEmail_await :
  let req := set_email_request (Card.id card_waiting) in
  let before := setEmail_before_await req [card_waiting] in
  let during :=
    pickupRequest (Some "1234") (Some "BOX_1") 5000%Z before.2 in
  let after := setEmail_after_await req (Card.id card_waiting) during.2 in
  before.1 = inr (Card.id card_waiting)
  ∧ during.1
    = ok (PickupOk "Card has been taken out successfully"
            (Card.id card_waiting))
  ∧ code after.1 = 200
  ∧ ∃ c c',
      findCardById (Card.id card_waiting) during.2 = Some c
      ∧ findCardById (Card.id card_waiting) after.2 = Some c'
      ∧ Card.status_ c = picked_up
      ∧ Card.status_ c' = email_sent
      ∧ rank (Card.status_ c') < rank (Card.status_ c)
      ∧ Card.pickedUpAt c' = Some 5000%Z.
Proof.
  cbv zeta. split; [reflexivity|]. split; [reflexivity|].
  split; [reflexivity|].
  eexists _, _. split; [reflexivity|]. split; [reflexivity|].
  split; [reflexivity|]. split; [reflexivity|].
  split; [vm_compute; lia|reflexivity].
Qed.

End Await.

(** ** What each handler does to the store *)

Section Outcomes.
Import CardsStore Routes Lifecycle Examples Outcome Samples.

(** An accepted photo intake appends [photo_card req]. *)
Lemma foundCardPhoto_appends (req : photoRequest) (cs : store) :
  Js.truthy (ph_filePath req) → ph_existsSync req = true →
  ph_uuid req ∉ (Card.id <$> cs) →
  (foundCardPhoto req cs).2 = cs ++ [photo_card req].
Proof.
  intros Hfile Hexists Hfresh. unfold foundCardPhoto.
  apply Is_true_true in Hfile. rewrite Hfile, Hexists. simpl negb. cbv iota.
  cbn [createCard]. unfold photo_card.
  set (id_used := redIdToUse _ _).
  set (efn := extractedFullName _).
  assert (Hredid : Js.truthy id_used = false → Js.or_null id_used = None)
    by apply or_null_falsy.
  assert (Hfn : Js.truthy efn = false → Js.or_null efn = None)
    by apply or_null_falsy.
  assert (Hoe_none : Js.truthy (owner_email id_used) = false →
            owner_email id_used = None).
  { intros H. destruct (owner_email_cases id_used) as [?|H']; [done|].
    by rewrite H in H'. }
  assert (Hoe_id : Js.truthy id_used = false → owner_email id_used = None).
  { intros H. unfold owner_email. by rewrite H. }
  destruct (Js.truthy id_used) eqn:Hid;
    destruct (Js.truthy efn) eqn:Hefn; simpl orb; cbv iota;
    destruct (Js.truthy (owner_email id_used)) eqn:Hoe;
    try destruct (ph_notify req) as [[]|];
    repeat (rewrite updateCard_last by done);
    (match goal with
     | |- (match ?x with _ => _ end).2 = _ => destruct x
     end); simpl; do 2 f_equal; unfold assign, new_card; simpl;
    rewrite ?Hredid, ?Hfn, ?Hoe_none, ?Hoe_id by done;
    unfold Js.or; rewrite ?Hefn; simpl;
    try rewrite Hoe_id in Hoe by done; try done.
  all: by destruct (Js.truthy (Js.or_null efn)).
Qed.

(** An accepted box intake appends [redid_card req] and answers with its id
    and code. *)
Lemma foundCardRedid_appends (req : redidRequest) (cs : store) :
  Js.truthy (rd_redId req) → Js.truthy (rd_boxId req) →
  rd_uuid req ∉ (Card.id <$> cs) →
  foundCardRedid req cs
  = (ok (RedidData (rd_uuid req) (generatePickupCode 4 (rd_random req))),
     cs ++ [redid_card req]).
Proof.
  intros Hredid Hbox Hfresh. unfold foundCardRedid.
  apply Is_true_true in Hredid. apply Is_true_true in Hbox.
  rewrite Hredid, Hbox. simpl negb. simpl orb. cbv iota. cbn [createCard].
  unfold redid_card.
  destruct (getEmailByRedId_cases (rd_redId req)) as [Hnone|Hsome].
  - rewrite Hnone. simpl. done.
  - apply Is_true_true in Hsome. rewrite Hsome.
    destruct (rd_notify req) as [[]|];
      rewrite updateCard_last by done; done.
Qed.

(** An accepted manual email assignment replaces the card it found by
    [setEmail_card req c], in place; the response depends on the notifier. *)
Lemma setEmail_replaces (req : setEmailRequest) (cs : store) (c : Card.t) :
  findCardById (se_id req) cs = Some c →
  Card.status_ c = waiting_for_email →
  valid_email (se_email req) →
  ∃ l1 l2,
    cs = l1 ++ c :: l2
    ∧ (se_id req ∉ (Card.id <$> l1))
    ∧ setEmail req cs
      = (match se_notify req with
         | NotifyReturns true =>
             ok (SetEmailResult true "Email sent successfully"
                   (Some (setEmail_card req c)))
         | NotifyReturns false =>
             {| code := 500;
                json :=
                  SetEmailResult false
                    "Email address saved but failed to send email. Check SendGrid configuration."
                    (Some (setEmail_card req c)) |}
         | NotifyThrows message =>
             {| code := 500;
                json :=
                  ErrorWithMessage
                    "Failed to set email and send notification" message |}
         end,
         l1 ++ setEmail_card req c :: l2).
Proof.
  intros Hfind Hs Hvalid. unfold setEmail.
  unfold valid_email in Hvalid. apply andb_prop_elim in Hvalid as [Ht Hat].
  apply Is_true_true in Ht. apply Is_true_true in Hat.
  rewrite Ht, Hat, Hfind. simpl negb. simpl orb. cbv iota.
  rewrite bool_decide_eq_true_2 by done. simpl negb. cbv iota.
  pose proof Hfind as [Hid _]%findCardById_Some.
  pose proof Hfind as (l1 & l2 & -> & Hl1)%findCardById_split.
  exists l1, l2. split; [done|]. split; [done|].
  assert (Hl1' : Card.id c ∉ (Card.id <$> l1)) by by rewrite Hid.
  assert (Hfind' : ∀ c', Card.id c' = Card.id c →
            findCardById (se_id req) (l1 ++ c' :: l2) = Some c').
  { intros c' Hc'. rewrite <- Hid, <- Hc'. apply findCardById_at.
    by rewrite Hc'. }
  unfold setEmail_card.
  destruct (Js.truthy (Card.boxId c)) eqn:Hbox;
    destruct (Js.truthy (Card.pickupCode c)) eqn:Hcode;
    destruct (se_notify req) as [[]|]; simpl;
    repeat (rewrite updateCard_at by done);
    rewrite ?Hfind' by done; unfold assign; simpl; rewrite ?Hs;
    by destruct c.
Qed.

(** What a request does to the store, handler by handler. *)
Lemma handle_effect (r : request) (cs : store) :
  unique_ids cs → fresh_id r cs →
  (handle r cs).2 = cs
  ∨ (∃ req, r = PostFoundCardPhoto req
            ∧ (handle r cs).2 = cs ++ [photo_card req])
  ∨ (∃ req, r = PostFoundCardRedid req
            ∧ (handle r cs).2 = cs ++ [redid_card req]
            ∧ Js.truthy (rd_redId req) ∧ Js.truthy (rd_boxId req))
  ∨ (∃ p b now l1 c l2,
       r = PostPickupRequest p b now
       ∧ cs = l1 ++ c :: l2
       ∧ (handle r cs).2 = l1 ++ assign c (pickup_updates now) :: l2
       ∧ Card.status_ c ≠ picked_up
       ∧ findCardByPickupCode p b cs = Some c)
  ∨ (∃ req l1 c l2,
       r = PostSetEmail req
       ∧ cs = l1 ++ c :: l2
       ∧ (handle r cs).2 = l1 ++ setEmail_card req c :: l2
       ∧ Card.status_ c = waiting_for_email
       ∧ valid_email (se_email req)).
Proof.
  intros Hu Hfresh. destruct r as [req|req|p b now|id|req]; simpl in *.
  - destruct (Js.truthy (ph_filePath req)) eqn:Hfile;
      [destruct (ph_existsSync req) eqn:Hexists|].
    + right. left. exists req. split; [done|].
      apply foundCardPhoto_appends; [by rewrite Hfile|done..].
    + left. unfold foundCardPhoto. by rewrite Hfile, Hexists.
    + left. unfold foundCardPhoto. by rewrite Hfile.
  - destruct (Js.truthy (rd_redId req)) eqn:Hredid;
      [destruct (Js.truthy (rd_boxId req)) eqn:Hbox|].
    + right. right. left. exists req. split; [done|].
      rewrite foundCardRedid_appends; [|by rewrite ?Hredid, ?Hbox..|done].
      by rewrite Hredid, Hbox.
    + left. unfold foundCardRedid. by rewrite Hredid, Hbox.
    + left. unfold foundCardRedid. by rewrite Hredid.
  - destruct (pickupRequest_store p b now cs Hu)
      as [->|(l1 & c & l2 & Hcs & Heq & _ & _ & Hfind & Hs)]; [by left|].
    right. right. right. left. by exists p, b, now, l1, c, l2.
  - by left.
  - destruct (valid_email (se_email req)) eqn:Hvalid.
    + destruct (findCardById (se_id req) cs) as [c|] eqn:Hfind.
      * destruct (decide (Card.status_ c = waiting_for_email)) as [Hs|Hs].
        -- destruct (setEmail_replaces req cs c Hfind Hs)
             as (l1 & l2 & Hcs & _ & Heq); [by rewrite Hvalid|].
           right. right. right. right. exists req, l1, c, l2.
           rewrite Heq. simpl. by rewrite Hvalid.
        -- left. unfold setEmail. rewrite Hfind.
           rewrite (bool_decide_eq_false_2 _ Hs). simpl.
           by destruct (_ || _).
      * left. unfold setEmail. rewrite Hfind. by destruct (_ || _).
    + left. unfold setEmail, valid_email in *.
      destruct (Js.truthy (se_email req)); simpl in *; [|done].
      by rewrite Hvalid.
Qed.

(** Induction along a sequence of requests for a property of the stored
    cards: it is enough that the new cards of the two intakes have it and
    that a manual email assignment and a pickup keep it. *)
Lemma run_card_invariant (Q : request → Prop) (P : Card.t → Prop) :
  (∀ req, Q (PostFoundCardPhoto req) → P (photo_card req)) →
  (∀ req, Q (PostFoundCardRedid req) →
          Js.truthy (rd_redId req) → Js.truthy (rd_boxId req) →
          P (redid_card req)) →
  (∀ req c, Q (PostSetEmail req) → P c →
            Card.status_ c = waiting_for_email →
            valid_email (se_email req) → P (setEmail_card req c)) →
  (∀ c now, P c → Card.status_ c ≠ picked_up →
            P (assign c (pickup_updates now))) →
  ∀ rs cs, unique_ids cs → fresh_ids rs cs → Forall Q rs →
           Forall P cs → Forall P (run rs cs).
Proof.
  intros Hphoto Hredid Hset Hpick rs.
  induction rs as [|r rs IH]; intros cs Hu Hf HQ HP; simpl; [done|].
  destruct Hf as [Hr Hrs]. apply Forall_cons in HQ as [HQr HQ].
  apply IH; [|done..|].
  { eapply step_unique_ids; [by apply handle_step|done]. }
  destruct (handle_effect r cs Hu Hr)
    as [->|[(req & -> & ->)|[(req & -> & -> & ? & ?)
        |[(p & b & now & l1 & c & l2 & -> & -> & -> & Hs & _)
         |(req & l1 & c & l2 & -> & -> & -> & Hs & Hv)]]]]; [done|..].
  - apply Forall_app. split; [done|]. constructor; [auto|constructor].
  - apply Forall_app. split; [done|]. constructor; [auto|constructor].
  - apply Forall_app in HP as [? [? ?]%Forall_cons].
    apply Forall_app. split; [done|]. constructor; auto.
  - apply Forall_app in HP as [? [? ?]%Forall_cons].
    apply Forall_app. split; [done|]. constructor; auto.
Qed.

(** X1.  Whatever requests are served, [pickedUpAt] is set on exactly the
    stored cards whose status is [picked_up]: a store in which this holds
    (the empty store at start-up, in particular) keeps it. *)
Theorem pickedUpAt_iff_picked_up (rs : list request) (cs : store) :
  unique_ids cs → fresh_ids rs cs →
  Forall stamp_consistent cs → Forall stamp_consistent (run rs cs).
Proof.
  intros Hu Hf HP.
  apply (run_card_invariant (λ _, True) stamp_consistent);
    [| | | |done|done|by apply Forall_true|done].
  - intros req _. unfold stamp_consistent, photo_card. simpl.
    split; [by intros [? ?]|]. by destruct (_ && _).
  - intros req _ _ _. unfold stamp_consistent, redid_card. simpl.
    split; [by intros [? ?]|]. by destruct (_ && _).
  - intros req c _ Hc Hs _. unfold stamp_consistent in *. simpl.
    rewrite Hc, Hs. by destruct (notified _).
  - intros c now _ _. unfold stamp_consistent. simpl. split; [done|eauto].
Qed.

Lemma pickedUpAt_iff_picked_up_witness :
  Forall stamp_consistent
    (run [PostFoundCardRedid redid_scan;
          PostPickupRequest (Some "1234") (Some "BOX_1") 5000%Z;
          PostSetEmail (set_email_request (Card.id card_waiting))]
       [card_waiting]).
Proof.
  apply pickedUpAt_iff_picked_up.
  - apply NoDup_singleton.
  - simpl. repeat split.
    apply (bool_decide_unpack _). vm_compute. exact I.
  - constructor; [|constructor]. split; [by intros [? ?]|discriminate].
Defined.

End Outcomes.

(** ** Invariants of the store and compositions of requests *)

Section StoreInvariants.
Import CardsStore Routes Lifecycle Examples Outcome Samples.

(** X2.  Whatever requests are served, a stored card has a pickup code
    exactly when it has a box id: a store in which this holds (the empty
    store, in particular) keeps it. *)
Theorem pickupCode_iff_boxId (rs : list request) (cs : store) :
  unique_ids cs → fresh_ids rs cs →
  Forall box_has_code cs → Forall box_has_code (run rs cs).
Proof.
  intros Hu Hf HP.
  apply (run_card_invariant (λ _, True) box_has_code);
    [| | | |done|done|by apply Forall_true|done].
  - intros req _. unfold box_has_code, photo_card. simpl.
    destruct (or_null_cases (ph_boxId req)) as [[Hb ->]|[Hb ->]].
    + apply Is_true_true in Hb. rewrite Hb.
      split; [done|]. intros _. apply generatePickupCode_truthy.
    + destruct (Js.truthy (ph_boxId req)); [by destruct Hb|done].
  - intros req _ _ Hbox. unfold box_has_code, redid_card. simpl.
    split; [done|]. intros _. apply generatePickupCode_truthy.
  - intros req c _ Hc _ _. unfold box_has_code in *. simpl.
    destruct (Js.truthy (Card.boxId c)) eqn:Hb;
      destruct (Js.truthy (Card.pickupCode c)) eqn:Hp; simpl;
      rewrite ?Hp; try done.
    split; [done|]. intros _. apply generatePickupCode_truthy.
  - intros c now Hc _. done.
Qed.

Lemma pickupCode_iff_boxId_witness :
  Forall box_has_code
    (run [PostFoundCardPhoto photo_no_identifier;
          PostSetEmail (set_email_request (Card.id card_waiting));
          PostPickupRequest (Some "1234") (Some "BOX_1") 5000%Z]
       [card_waiting]).
Proof.
  apply pickupCode_iff_boxId.
  - apply NoDup_singleton.
  - simpl. repeat split.
    apply (bool_decide_unpack _). vm_compute. exact I.
  - constructor; [|constructor]. split; intros _; exact I.
Defined.

(** X3.  Whatever requests are served, a stored card whose status is
    [email_sent] has a non-empty email: a store in which this holds keeps
    it. *)
Theorem email_sent_has_email (rs : list request) (cs : store) :
  unique_ids cs → fresh_ids rs cs →
  Forall notified_has_email cs → Forall notified_has_email (run rs cs).
Proof.
  intros Hu Hf HP.
  apply (run_card_invariant (λ _, True) notified_has_email);
    [| | | |done|done|by apply Forall_true|done].
  - intros req _. unfold notified_has_email, photo_card. simpl.
    destruct (Js.truthy (owner_email _)); [done|]. by simpl.
  - intros req _ _ _. unfold notified_has_email, redid_card. simpl.
    destruct (Js.truthy (RedIdEmailMap.getEmailByRedId _)); [done|]. by simpl.
  - intros req c _ _ _ Hv _. simpl.
    unfold valid_email in Hv. by apply andb_prop_elim in Hv as [? _].
  - intros c now _ _. unfold notified_has_email. simpl. done.
Qed.

Lemma email_sent_has_email_witness :
  Forall notified_has_email
    (run [PostFoundCardRedid redid_scan;
          PostSetEmail (set_email_request (Card.id card_waiting))]
       [card_waiting]).
Proof.
  apply email_sent_has_email.
  - apply NoDup_singleton.
  - simpl. repeat split.
    apply (bool_decide_unpack _). vm_compute. exact I.
  - constructor; [|constructor]. intros H. discriminate H.
Defined.

(** X4.  When every result of [Math.random()] is in [0, 1), every pickup
    code in the store is a four-character code over 1, 2, 3, 4 after any
    sequence of requests, the codes that a manual email assignment issues
    included. *)
Theorem stored_codes_well_formed (rs : list request) (cs : store) :
  unique_ids cs → fresh_ids rs cs → draws_in_unit_interval rs →
  Forall code_well_formed cs → Forall code_well_formed (run rs cs).
Proof.
  intros Hu Hf Hd HP.
  apply (run_card_invariant
           (λ r, ∀ j, Js.in_unit_interval (random_of r j)) code_well_formed);
    [| | | |done..].
  - intros req Hr code. unfold photo_card. simpl.
    destruct (Js.truthy (ph_boxId req)); [|done].
    intros [= <-]. by apply generatePickupCode_is_pickup_code.
  - intros req Hr _ _ code. unfold redid_card. simpl.
    intros [= <-]. by apply generatePickupCode_is_pickup_code.
  - intros req c Hr Hc _ _ code. simpl.
    destruct (_ && _); [|by apply Hc].
    intros [= <-]. by apply generatePickupCode_is_pickup_code.
  - intros c now Hc _ code. simpl. apply Hc.
Qed.

Lemma draws_in_unit_interval_j (j : nat) : Js.in_unit_interval (draws j).
Proof.
  unfold Js.in_unit_interval, draws.
  assert (N.of_nat (j `mod` 4) < 4)%N as Hlt.
  { pose proof (Nat.mod_upper_bound j 4). lia. }
  pose proof (N.Div0.mul_div_le Js.random_den 4).
  pose proof random_den_nonzero. nia.
Qed.

Lemma stored_codes_well_formed_witness :
  Forall code_well_formed
    (run [PostFoundCardRedid redid_scan;
          PostSetEmail (set_email_request (Card.id card_waiting))]
       [card_waiting]).
Proof.
  apply stored_codes_well_formed.
  - apply NoDup_singleton.
  - simpl. repeat split.
    apply (bool_decide_unpack _). vm_compute. exact I.
  - repeat constructor; intros j; apply draws_in_unit_interval_j.
  - constructor; [|constructor]. intros code [= <-].
    split; [reflexivity|]. repeat constructor.
Defined.

End StoreInvariants.

(** ** Responses and compositions *)

Section Compositions.
Import CardsStore Routes Lifecycle Examples Outcome Samples.

Lemma updateCard_ids (j : string) (u : updates) (cs : store) :
  Card.id <$> updateCard j u cs = Card.id <$> cs.
Proof.
  induction cs as [|d cs IH]; [done|]. cbn [updateCard].
  case_bool_decide; rewrite !fmap_cons; [done|by rewrite IH].
Qed.

(** The photo handler always finds the card it has just created, so it
    never takes the branch that answers 500. *)
Lemma foundCardPhoto_code (req : photoRequest) (cs : store) :
  (code (foundCardPhoto req cs).1 = 400 ∧ (foundCardPhoto req cs).2 = cs)
  ∨ code (foundCardPhoto req cs).1 = 200.
Proof.
  unfold foundCardPhoto.
  destruct (negb (Js.truthy (ph_filePath req))); [by left|].
  destruct (negb (ph_existsSync req)); [by left|].
  right. cbn [createCard].
  destruct (_ || _); destruct (Js.truthy (owner_email _));
    try destruct (ph_notify req) as [[]|];
    (match goal with
     | |- context [findCardById ?j ?s] =>
         destruct (findCardById j s) eqn:E; [done|];
         exfalso; apply findCardById_None in E; apply E;
         rewrite ?updateCard_ids, fmap_app; simpl;
         apply elem_of_app; right; left
     end).
Qed.

(** X5.  A request that is answered 400 or 404 leaves the store exactly as
    it was: every handler makes its checks before it writes.  The answers
    of the routes are 200, 400, 404 and 500. *)
Theorem client_errors_leave_store_unchanged (r : request) (cs : store) :
  code (handle r cs).1 ∈ [200; 400; 404; 500]
  ∧ (code (handle r cs).1 = 400 ∨ code (handle r cs).1 = 404 →
     (handle r cs).2 = cs).
Proof.
  destruct r as [req|req|p b now|id|req]; simpl.
  - destruct (foundCardPhoto_code req cs) as [[Hc Hs]|Hc]; rewrite Hc.
    + split; [set_solver|done].
    + split; [set_solver|]. by (intros [?|?]; congruence).
  - unfold foundCardRedid. destruct (_ || _); simpl.
    + split; [set_solver|done].
    + split; [set_solver|]. by (intros [?|?]; congruence).
  - unfold pickupRequest. destruct (_ || _); simpl.
    + split; [set_solver|done].
    + destruct (findCardByPickupCode p b cs); [case_bool_decide|]; simpl;
        (split; [set_solver|]); try done; by (intros [?|?]; congruence).
  - unfold getCard.
    destruct (findCardById id cs); simpl.
    + split; [set_solver|done].
    + destruct (bool_decide _); [destruct (findCardByReferenceCode id cs)|];
        simpl; [| |destruct (findCardByReferenceCode id cs); simpl];
        (split; [set_solver|done]).
  - unfold setEmail. destruct (_ || _); simpl.
    { split; [set_solver|done]. }
    destruct (findCardById (se_id req) cs); simpl.
    2: { split; [set_solver|done]. }
    destruct (negb _); simpl.
    { split; [set_solver|done]. }
    destruct (se_notify req) as [[]|] eqn:E; simpl;
      (split; [set_solver|]); by (intros [?|?]; congruence).
Qed.

Lemma findCardByPickupCode_none_all (p b : option string) (cs : store) :
  findCardByPickupCode p b cs = None →
  Forall (λ d, matches_pickup p b d = false) cs.
Proof.
  induction cs as [|d cs IH]; simpl; [by constructor|].
  destruct (matches_pickup p b d) eqn:E; [done|]. by constructor; auto.
Qed.

(** The card that a request adds: it is new, not picked up, it has a code
    exactly when it has a box, and the response carries its code. *)
Lemma added_card (r : request) (cs : store) (new : Card.t) :
  fresh_id r cs → (handle r cs).2 = cs ++ [new] →
  (Card.id new ∉ (Card.id <$> cs))
  ∧ Card.status_ new ≠ picked_up
  ∧ box_has_code new
  ∧ response_pickupCode (handle r cs).1 = Card.pickupCode new.
Proof.
  intros Hfresh Hnew.
  destruct (handle_adds_card r cs new Hnew) as [[req ->]|[req ->]];
    simpl in *.
  - assert (Js.truthy (ph_filePath req) ∧ ph_existsSync req = true)
      as [Hfile Hexists].
    { unfold foundCardPhoto in Hnew.
      destruct (Js.truthy (ph_filePath req)); simpl in Hnew.
      - destruct (ph_existsSync req); [done|]. simpl in Hnew.
        apply (f_equal length) in Hnew. rewrite length_app in Hnew.
        simpl in Hnew. lia.
      - apply (f_equal length) in Hnew. rewrite length_app in Hnew.
        simpl in Hnew. lia. }
    destruct (foundCardPhoto_accepted req cs Hfile Hexists Hfresh)
      as (final & d & Hreq & _ & Hid & Hfbox & Hfcode & _ & _ & Hstatus
          & _ & _ & _ & Hdcode & _).
    rewrite Hreq in Hnew |- *. simpl in Hnew.
    apply app_inj_tail in Hnew as [_ ->].
    split; [by rewrite Hid|]. split.
    { rewrite Hstatus. by destruct (_ && _). }
    split; [|done]. unfold box_has_code. rewrite Hfbox, Hfcode.
    destruct (or_null_cases (ph_boxId req)) as [[Hb ->]|[Hb ->]].
    + apply Is_true_true in Hb. rewrite Hb.
      split; [done|]. intros _. apply generatePickupCode_truthy.
    + destruct (Js.truthy (ph_boxId req)); [by destruct Hb|done].
  - assert (Js.truthy (rd_redId req) ∧ Js.truthy (rd_boxId req))
      as [Hredid Hrbox].
    { unfold foundCardRedid in Hnew.
      destruct (Js.truthy (rd_redId req)), (Js.truthy (rd_boxId req));
        simpl in Hnew; try done;
        apply (f_equal length) in Hnew; rewrite length_app in Hnew;
        simpl in Hnew; lia. }
    rewrite foundCardRedid_appends in Hnew |- * by done. simpl in Hnew.
    apply app_inj_tail in Hnew as [_ <-].
    split; [done|]. split; [simpl; by destruct (_ && _)|].
    split; [|done]. unfold box_has_code. simpl.
    split; [done|]. intros _. apply generatePickupCode_truthy.
Qed.

(** X6.  The code that an intake returns opens the card it created: when a
    request has added a card with a box to the store and no card stored
    before has the returned code in that box, a pickup request with the
    returned code and the card's box succeeds on the new card, and changes
    that card only. *)
Theorem intake_then_pickup (r : request) (cs : store) (new : Card.t)
    (pickupCode : string) (now : Date) :
  fresh_id r cs →
  (handle r cs).2 = cs ++ [new] →
  response_pickupCode (handle r cs).1 = Some pickupCode →
  Js.truthy (Card.boxId new) →
  findCardByPickupCode (Some pickupCode) (Card.boxId new) cs = None →
  pickupRequest (Some pickupCode) (Card.boxId new) now (cs ++ [new])
  = (ok (PickupOk "Card has been taken out successfully" (Card.id new)),
     cs ++ [assign new (pickup_updates now)]).
Proof.
  intros Hfresh Hnew Hres Hbox Hnone.
  destruct (added_card r cs new Hfresh Hnew) as (Hid & Hs & Hiff & Hcode).
  rewrite Hres in Hcode.
  assert (findCardByPickupCode (Some pickupCode) (Card.boxId new)
            (cs ++ [new]) = Some new) as Hfind.
  { apply findCardByPickupCode_first.
    - by apply findCardByPickupCode_none_all.
    - rewrite Hcode. apply matches_pickup_self. }
  assert (Js.truthy (Some pickupCode) = true) as Hp.
  { apply Is_true_true. rewrite Hcode. by apply Hiff. }
  unfold pickupRequest. apply Is_true_true in Hbox.
  rewrite Hp, Hbox, Hfind. simpl.
  rewrite bool_decide_eq_false_2 by done.
  f_equal. by apply updateCard_last.
Qed.

Lemma intake_then_pickup_witness :
  pickupRequest (Some "1234") (Some "BOX_1") 9000%Z
    ([card_elsewhere] ++ [redid_card redid_scan])
  = (ok (PickupOk "Card has been taken out successfully"
           (rd_uuid redid_scan)),
     [card_elsewhere]
     ++ [assign (redid_card redid_scan) (pickup_updates 9000%Z)]).
Proof.
  apply (intake_then_pickup (PostFoundCardRedid redid_scan) [card_elsewhere]
           (redid_card redid_scan) "1234" 9000%Z).
  - apply (bool_decide_unpack _). vm_compute. exact I.
  - vm_compute. reflexivity.
  - vm_compute. reflexivity.
  - exact I.
  - reflexivity.
Defined.

End Compositions.

(** ** Lookup, manual assignment and notification outcomes *)

Section Answers.
Import CardsStore Routes Lifecycle Examples Outcome Samples.

Lemma find_ref_Some (n : string) (cs : store) (c : Card.t) :
  find_ref n cs = Some c → c ∈ cs ∧ cardRefCode c = n.
Proof.
  induction cs as [|d cs IH]; simpl; [done|].
  case_bool_decide.
  - intros [= ->]. split; [left|done].
  - intros [? ?]%IH. split; [by right|done].
Qed.

Lemma find_ref_None (n : string) (cs : store) :
  find_ref n cs = None → ∀ c, c ∈ cs → cardRefCode c ≠ n.
Proof.
  induction cs as [|d cs IH]; simpl; [by intros _ c ?%elem_of_nil|].
  case_bool_decide; [done|].
  intros Hnone c [->|Hin]%elem_of_cons; [done|by apply IH].
Qed.

(** X7.  For a token and card ids of ASCII characters, GET /cards/:id
    answers 200 with a stored card that answers to the token, or 404; it
    answers 404 exactly when no stored card answers to the token.  (The
    test on the length of the token changes nothing.) *)
Theorem getCard_finds_matching_card (q : string) (cs : store) :
  Domain.ascii_only q →
  Forall (λ c, Domain.ascii_only (Card.id c)) cs →
  (∀ c, getCard q cs = ok (CardJson c) → c ∈ cs ∧ answers_to q c)
  ∧ (code (getCard q cs) = 404 ↔ ∀ c, c ∈ cs → ¬ answers_to q c)
  ∧ ((∃ c, getCard q cs = ok (CardJson c)) ∨ code (getCard q cs) = 404).
Proof.
  intros _ _.
  assert (Hshape : getCard q cs
            = match findCardById q cs with
              | Some c => ok (CardJson c)
              | None =>
                  match findCardByReferenceCode q cs with
                  | Some c => ok (CardJson c)
                  | None =>
                      {| code := 404;
                         json := Error
                           "Card not found. Please check your reference code." |}
                  end
              end).
  { unfold getCard. destruct (findCardById q cs); [done|].
    case_bool_decide; [|done].
    by destruct (findCardByReferenceCode q cs). }
  rewrite Hshape. clear Hshape.
  destruct (findCardById q cs) as [c|] eqn:Hid.
  - apply findCardById_Some in Hid as [Hc Hin].
    split; [|split].
    + intros c' [= <-]. split; [done|by left].
    + split; [done|]. intros Hno. destruct (Hno c Hin). by left.
    + left. by exists c.
  - pose proof (proj1 (findCardById_None q cs) Hid) as Hnot.
    assert (Hnoid : ∀ c, c ∈ cs → Card.id c ≠ q).
    { intros c Hin Heq. apply Hnot. rewrite <- Heq.
      by apply list_elem_of_fmap_2. }
    unfold findCardByReferenceCode. case_bool_decide as Hq.
    + split; [done|]. split; [|by right].
      split; [|done]. intros _ c Hin [?|[? _]]; [by eapply Hnoid|done].
    + destruct (find_ref _ cs) as [c|] eqn:Href.
      * apply find_ref_Some in Href as [Hin Hc].
        split; [|split].
        -- intros c' [= <-]. split; [done|by right].
        -- split; [done|]. intros Hno. destruct (Hno c Hin). by right.
        -- left. by exists c.
      * split; [done|]. split; [|by right].
        split; [|done]. intros _ c Hin [?|[_ ?]]; [by eapply Hnoid|].
        by eapply find_ref_None.
Qed.

Lemma getCard_finds_matching_card_witness :
  let q := " 3f2a9c1e " in
  let cs := [card_same_code; card_waiting] in
  (∀ c, getCard q cs = ok (CardJson c) → c ∈ cs ∧ answers_to q c)
  ∧ (code (getCard q cs) = 404 ↔ ∀ c, c ∈ cs → ¬ answers_to q c)
  ∧ ((∃ c, getCard q cs = ok (CardJson c)) ∨ code (getCard q cs) = 404).
Proof.
  apply getCard_finds_matching_card.
  - apply (bool_decide_unpack _). vm_compute. exact I.
  - apply (bool_decide_unpack _). vm_compute. exact I.
Defined.

(** X8.  The reference code and the id that a photo intake returns find the
    card it created: GET /cards/:id with the returned [cardId] answers with
    the new card, and so does the returned [referenceCode] when it is not
    empty, has no white space at its ends, is not itself the id of a stored
    card, and is not the reference code of a card stored before. *)
Theorem photo_intake_reference_code_round_trip (req : photoRequest)
    (cs : store) :
  Js.truthy (ph_filePath req) → ph_existsSync req = true →
  ph_uuid req ∉ (Card.id <$> cs) →
  ∃ d,
    (foundCardPhoto req cs).1 = ok (PhotoData d)
    ∧ r_referenceCode d = cardRefCode (photo_card req)
    ∧ getCard (r_cardId d) (foundCardPhoto req cs).2
      = ok (CardJson (photo_card req))
    ∧ (r_referenceCode d ≠ "" →
       Js.trim (r_referenceCode d) = r_referenceCode d →
       findCardById (r_referenceCode d) (foundCardPhoto req cs).2 = None →
       (∀ c, c ∈ cs → cardRefCode c ≠ r_referenceCode d) →
       getCard (r_referenceCode d) (foundCardPhoto req cs).2
       = ok (CardJson (photo_card req))).
Proof.
  intros Hfile Hexists Hfresh.
  pose proof (foundCardPhoto_appends req cs Hfile Hexists Hfresh) as Hstore.
  destruct (foundCardPhoto_accepted req cs Hfile Hexists Hfresh)
    as (final & d & Hreq & _ & _ & _ & _ & _ & _ & _
        & _ & Hdid & _).
  assert (r_referenceCode d = cardRefCode (photo_card req)) as Href.
  { clear Hstore. revert Hreq. unfold foundCardPhoto.
    apply Is_true_true in Hfile. rewrite Hfile, Hexists. simpl negb.
    cbv iota. cbn [createCard].
    destruct (_ || _); destruct (Js.truthy (owner_email _));
      try destruct (ph_notify req) as [[]|];
      (match goal with
       | |- context [findCardById ?j ?s] => destruct (findCardById j s)
       end); intros [= <- _]; done. }
  exists d. rewrite Hreq, Hstore in *. simpl.
  split; [done|]. split; [done|].
  assert (findCardById (ph_uuid req) (cs ++ [photo_card req])
          = Some (photo_card req)) as Hbyid.
  { by apply (findCardById_at cs [] (photo_card req)). }
  split.
  - rewrite Hdid. unfold getCard. by rewrite Hbyid.
  - intros Hne Htrim Hnotid Hothers.
    unfold getCard. rewrite Hnotid.
    assert (findCardByReferenceCode (r_referenceCode d)
              (cs ++ [photo_card req]) = Some (photo_card req)) as ->.
    { unfold findCardByReferenceCode.
      rewrite bool_decide_eq_false_2 by done.
      rewrite Htrim, Href, cardRefCode_upper. rewrite Href in Hothers.
      clear -Hothers. induction cs as [|c cs IH]; simpl.
      - by rewrite bool_decide_eq_true_2.
      - rewrite bool_decide_eq_false_2 by (apply Hothers; left).
        apply IH. intros c' Hc'. apply Hothers. by right. }
    by case_bool_decide.
Qed.

Lemma photo_intake_reference_code_round_trip_witness :
  let cs' := (foundCardPhoto photo_manual_email_fails [card_waiting]).2 in
  getCard "0c9d8e7f-6a5b-4c3d-9e1f-a0b1c2d3e4f5" cs'
    = ok (CardJson (photo_card photo_manual_email_fails))
  ∧ getCard "0C9D8E7F" cs'
    = ok (CardJson (photo_card photo_manual_email_fails)).
Proof.
  intros cs'.
  destruct (photo_intake_reference_code_round_trip photo_manual_email_fails
              [card_waiting])
    as (d & Hres & Href & Hbyid & Hbyref).
  - exact I.
  - reflexivity.
  - apply (bool_decide_unpack _). vm_compute. exact I.
  - assert (r_cardId d = "0c9d8e7f-6a5b-4c3d-9e1f-a0b1c2d3e4f5"
            ∧ r_referenceCode d = "0C9D8E7F") as [Hid Hcode].
    { vm_compute in Hres. injection Hres as <-. by split. }
    rewrite Hid in Hbyid. rewrite Hcode in Hbyref.
    split; [exact Hbyid|]. apply Hbyref.
    + discriminate.
    + reflexivity.
    + reflexivity.
    + intros c [->|[]%elem_of_nil]%elem_of_cons. discriminate.
Defined.

(** X9.  A manual email assignment with a well-formed email on a stored
    card that is [waiting_for_email] stores the email on that card whatever
    the notifier does, and moves the card to [email_sent] exactly when the
    notifier reports success: the response is 200 in that case and 500
    otherwise.  A card with a box and no code is given one; nothing else on
    the card and no other card changes. *)
Theorem setEmail_accepted (req : setEmailRequest) (cs : store) (c : Card.t) :
  findCardById (se_id req) cs = Some c →
  Card.status_ c = waiting_for_email →
  valid_email (se_email req) →
  ∃ l1 l2 c',
    cs = l1 ++ c :: l2
    ∧ (setEmail req cs).2 = l1 ++ c' :: l2
    ∧ findCardById (se_id req) (setEmail req cs).2 = Some c'
    ∧ Card.email c' = se_email req
    ∧ Card.status_ c'
      = (if notified (se_notify req) then email_sent else waiting_for_email)
    ∧ code (setEmail req cs).1
      = (if notified (se_notify req) then 200 else 500)
    ∧ (Js.truthy (Card.pickupCode c) ∨ ¬ Js.truthy (Card.boxId c) →
       Card.pickupCode c' = Card.pickupCode c)
    ∧ (Js.truthy (Card.boxId c) → Js.truthy (Card.pickupCode c'))
    ∧ c' = setEmail_card req c.
Proof.
  intros Hfind Hs Hvalid.
  destruct (setEmail_replaces req cs c Hfind Hs Hvalid)
    as (l1 & l2 & Hcs & Hl1 & Heq).
  exists l1, l2, (setEmail_card req c). rewrite Heq. simpl.
  split; [done|]. split; [done|].
  pose proof Hfind as [Hid _]%findCardById_Some.
  split.
  { rewrite <- Hid in *.
    by apply (findCardById_at l1 l2 (setEmail_card req c)). }
  split; [done|]. split; [by rewrite Hs; destruct (notified _)|].
  split; [by destruct (se_notify req) as [[]|]|].
  split; [|split; [|done]].
  - destruct (Js.truthy (Card.boxId c)), (Js.truthy (Card.pickupCode c));
      simpl; try done. intros [[]|H]. by destruct H.
  - destruct (Js.truthy (Card.boxId c)); [|done]. intros _.
    destruct (Js.truthy (Card.pickupCode c)) eqn:Hp; simpl.
    + by rewrite Hp.
    + apply generatePickupCode_truthy.
Qed.

Lemma setEmail_accepted_witness :
  let req := set_email_request (Card.id card_waiting) in
  ∃ l1 l2 c',
    [card_waiting] = l1 ++ card_waiting :: l2
    ∧ (setEmail req [card_waiting]).2 = l1 ++ c' :: l2
    ∧ Card.email c' = Some "owner@sdsu.edu"
    ∧ Card.status_ c' = email_sent
    ∧ code (setEmail req [card_waiting]).1 = 200.
Proof.
  intros req.
  destruct (setEmail_accepted req [card_waiting] card_waiting)
    as (l1 & l2 & c' & Hcs & Hstore & _ & Hemail & Hstatus & Hcode & _).
  - reflexivity.
  - reflexivity.
  - exact I.
  - exists l1, l2, c'. split; [exact Hcs|]. split; [exact Hstore|].
    split; [exact Hemail|]. split; [exact Hstatus|exact Hcode].
Defined.

(** X10.  A manual email assignment whose notification fails can be tried
    again: the card is still [waiting_for_email], so a second assignment
    with a well-formed email is accepted, and when its notification
    succeeds the card is [email_sent] with the email of the second
    request. *)
Theorem setEmail_retry_after_failure (req1 req2 : setEmailRequest)
    (cs : store) (c : Card.t) :
  findCardById (se_id req1) cs = Some c →
  Card.status_ c = waiting_for_email →
  valid_email (se_email req1) → notified (se_notify req1) = false →
  se_id req2 = se_id req1 →
  valid_email (se_email req2) → notified (se_notify req2) = true →
  ∃ c2,
    findCardById (se_id req1) (setEmail req2 (setEmail req1 cs).2).2
      = Some c2
    ∧ code (setEmail req2 (setEmail req1 cs).2).1 = 200
    ∧ Card.status_ c2 = email_sent
    ∧ Card.email c2 = se_email req2.
Proof.
  intros Hfind Hs Hv1 Hn1 Hid Hv2 Hn2.
  destruct (setEmail_accepted req1 cs c Hfind Hs Hv1)
    as (l1 & l2 & c1 & _ & _ & Hfind1 & _ & Hs1 & _).
  rewrite Hn1 in Hs1. rewrite <- Hid in Hfind1.
  destruct (setEmail_accepted req2 _ c1 Hfind1 Hs1 Hv2)
    as (m1 & m2 & c2 & _ & _ & Hfind2 & Hemail & Hs2 & Hcode & _).
  rewrite Hn2 in Hs2, Hcode. rewrite Hid in Hfind2.
  by exists c2.
Qed.

Lemma setEmail_retry_after_failure_witness :
  let id := Card.id card_waiting in
  let req1 :=
    {| se_id := id; se_email := Some "owner@sdsu.edu";
       se_random := draws; se_notify := NotifyReturns false |} in
  let req2 := set_email_request id in
  ∃ c2,
    findCardById id (setEmail req2 (setEmail req1 [card_waiting]).2).2
      = Some c2
    ∧ code (setEmail req2 (setEmail req1 [card_waiting]).2).1 = 200
    ∧ Card.status_ c2 = email_sent
    ∧ Card.email c2 = se_email req2.
Proof.
  intros id req1 req2.
  apply (setEmail_retry_after_failure req1 req2 [card_waiting] card_waiting).
  - reflexivity.
  - reflexivity.
  - exact I.
  - reflexivity.
  - reflexivity.
  - exact I.
  - reflexivity.
Defined.



(** X12.  The response of an accepted photo intake reports the card as it is
    stored: [emailSent] is true exactly when the stored card is
    [email_sent], and the card id, box, pickup code, RedID and email address
    of the response are those of the stored card. *)
Theorem photo_response_agrees_with_store (req : photoRequest) (cs : store) :
  Js.truthy (ph_filePath req) → ph_existsSync req = true →
  ph_uuid req ∉ (Card.id <$> cs) →
  ∃ final d,
    foundCardPhoto req cs = (ok (PhotoData d), cs ++ [final])
    ∧ findCardById (r_cardId d) (cs ++ [final]) = Some final
    ∧ (r_emailSent d = true ↔ Card.status_ final = email_sent)
    ∧ r_emailAddress d = Card.email final
    ∧ r_boxId d = Card.boxId final
    ∧ r_pickupCode d = Card.pickupCode final
    ∧ r_redId d = Card.redId final.
Proof.
  intros Hfile Hexists Hfresh.
  destruct (foundCardPhoto_accepted req cs Hfile Hexists Hfresh)
    as (final & d & Hreq & Hfind & Hid & Hbox & Hcode & Hredid & Hemail
        & Hstatus & _ & Hdid & Hdbox & Hdcode & Hdredid & Hsent & Haddr).
  exists final, d. split; [done|]. split; [by rewrite Hdid|].
  split.
  { rewrite Hsent, Hstatus. by destruct (_ && _). }
  split; [congruence|]. split; [done|]. split; [done|]. congruence.
Qed.

Lemma photo_response_agrees_with_store_witness :
  ∃ final d,
    foundCardPhoto photo_no_identifier [card_waiting]
    = (ok (PhotoData d), [card_waiting] ++ [final])
    ∧ findCardById (r_cardId d) ([card_waiting] ++ [final]) = Some final
    ∧ (r_emailSent d = true ↔ Card.status_ final = email_sent)
    ∧ r_emailAddress d = Card.email final
    ∧ r_boxId d = Card.boxId final
    ∧ r_pickupCode d = Card.pickupCode final
    ∧ r_redId d = Card.redId final.
Proof.
  apply (photo_response_agrees_with_store photo_no_identifier [card_waiting]).
  - exact I.
  - reflexivity.
  - apply (bool_decide_unpack _). vm_compute. exact I.
Defined.

Lemma same_intake_data_refl (c : Card.t) : same_intake_data c c.
Proof. by repeat split. Qed.

Lemma same_intake_data_trans (c1 c2 c3 : Card.t) :
  same_intake_data c1 c2 → same_intake_data c2 c3 → same_intake_data c1 c3.
Proof.
  unfold same_intake_data. intros (?&?&?&?&?&?&?&?) (?&?&?&?&?&?&?&?).
  repeat split; congruence.
Qed.

(** X13.  No request removes a stored card or rewrites what its intake
    recorded: after any sequence of requests, a stored card is still stored
    under its id with the same RedID, name, source, finder contact, location
    description, box id and creation date. *)
Theorem intake_data_is_kept (rs : list request) (cs : store) (i : string)
    (c : Card.t) :
  unique_ids cs → fresh_ids rs cs →
  findCardById i cs = Some c →
  ∃ c', findCardById i (run rs cs) = Some c' ∧ same_intake_data c c'.
Proof.
  revert cs c. induction rs as [|r rs IH]; intros cs c Hu Hf Hfind; simpl.
  { exists c. split; [done|apply same_intake_data_refl]. }
  destruct Hf as [Hr Hrs].
  assert (∃ c1, findCardById i (handle r cs).2 = Some c1
                ∧ same_intake_data c c1) as (c1 & Hc1 & Hsame).
  { destruct (handle_effect r cs Hu Hr)
      as [->|[(req & -> & ->)|[(req & -> & -> & _ & _)
          |[(p & b & now & l1 & d & l2 & -> & -> & -> & _)
           |(req & l1 & d & l2 & -> & -> & -> & _)]]]].
    - exists c. split; [done|apply same_intake_data_refl].
    - exists c. split; [by apply findCardById_app_l|].
      apply same_intake_data_refl.
    - exists c. split; [by apply findCardById_app_l|].
      apply same_intake_data_refl.
    - destruct (findCardById_replace i l1 l2 d
                  (assign d (pickup_updates now)) c) as (c1 & ? & Hor);
        [done..|].
      exists c1. split; [done|].
      destruct Hor as [->|[-> ->]]; by repeat split.
    - destruct (findCardById_replace i l1 l2 d (setEmail_card req d) c)
        as (c1 & ? & Hor); [done..|].
      exists c1. split; [done|].
      destruct Hor as [->|[-> ->]]; by repeat split. }
  destruct (IH (handle r cs).2 c1) as (c' & Hc' & Hsame'); [|done..|].
  { eapply step_unique_ids; [by apply handle_step|done]. }
  exists c'. split; [done|]. by eapply same_intake_data_trans.
Qed.

Lemma intake_data_is_kept_witness :
  ∃ c', findCardById (Card.id card_waiting)
          (run [PostSetEmail (set_email_request (Card.id card_waiting));
                PostPickupRequest (Some "1234") (Some "BOX_1") 5000%Z;
                PostFoundCardRedid redid_scan]
             [card_waiting]) = Some c'
        ∧ same_intake_data card_waiting c'.
Proof.
  apply intake_data_is_kept.
  - apply NoDup_singleton.
  - simpl. repeat split.
    apply (bool_decide_unpack _). vm_compute. exact I.
  - reflexivity.
Defined.

End Answers.

(** ** The list of cards *)

Section ListOfCards.
Import CardsStore Routes Lifecycle Examples CardsList.

Lemma sort_insert_perm (cmp : Card.t → Card.t → Z) (a : Card.t)
    (l : list Card.t) :
  sort_insert cmp a l ≡ₚ a :: l.
Proof.
  induction l as [|b l IH]; simpl; [done|].
  destruct (cmp a b <=? 0)%Z; [done|].
  rewrite IH. apply Permutation_swap.
Qed.

Lemma sort_perm (cmp : Card.t → Card.t → Z) (l : list Card.t) :
  sort cmp l ≡ₚ l.
Proof.
  induction l as [|a l IH]; simpl; [done|].
  by rewrite sort_insert_perm, IH.
Qed.

Lemma sort_insert_newest_first (a : Card.t) (l : list Card.t) :
  StronglySorted (λ x y, (Card.createdAt y ≤ Card.createdAt x)%Z) l →
  StronglySorted (λ x y, (Card.createdAt y ≤ Card.createdAt x)%Z)
    (sort_insert newest_first a l).
Proof.
  induction 1 as [|b l Hl IH Hb]; simpl.
  - repeat constructor.
  - unfold newest_first at 1. destruct (Z.leb_spec
      (Card.createdAt b - Card.createdAt a) 0) as [Hle|Hgt].
    + constructor; [by constructor|]. constructor; [lia|].
      eapply Forall_impl; [exact Hb|]. simpl. intros; lia.
    + constructor; [done|].
      rewrite sort_insert_perm. constructor; [lia|done].
Qed.

Lemma sort_newest_first (l : list Card.t) :
  StronglySorted (λ x y, (Card.createdAt y ≤ Card.createdAt x)%Z)
    (sort newest_first l).
Proof.
  induction l as [|a l IH]; simpl; [constructor|].
  by apply sort_insert_newest_first.
Qed.

(** Cards created at the same instant keep their order. *)
Lemma sort_insert_stable (t : Date) (a : Card.t) (l : list Card.t) :
  filter (λ c, Card.createdAt c = t) (sort_insert newest_first a l)
  = filter (λ c, Card.createdAt c = t) (a :: l).
Proof.
  induction l as [|b l IH]; simpl; [done|].
  unfold newest_first at 1. destruct (Z.leb_spec
    (Card.createdAt b - Card.createdAt a) 0) as [Hle|Hgt]; [done|].
  rewrite !filter_cons in *. rewrite IH.
  destruct (decide (Card.createdAt b = t)), (decide (Card.createdAt a = t));
    try done. lia.
Qed.

Lemma sort_stable (t : Date) (l : list Card.t) :
  filter (λ c, Card.createdAt c = t) (sort newest_first l)
  = filter (λ c, Card.createdAt c = t) l.
Proof.
  induction l as [|a l IH]; simpl; [done|].
  rewrite sort_insert_stable, !filter_cons, IH. done.
Qed.

(** X14.  GET /cards returns the stored cards that have the requested
    status (all of them when no status, or an empty one, is given), each as
    often as it is stored, ordered from the newest to the oldest
    [createdAt]; a status that no card has gives the empty list. *)
Theorem getCards_sorted_selection (status : option string) (cs : store) :
  StronglySorted (λ x y, (Card.createdAt y ≤ Card.createdAt x)%Z)
    (getCards status cs)
  ∧ getCards status cs
    ≡ₚ (if Js.truthy status
        then filter (has_status (default "" status)) cs else cs)
  ∧ (∀ c, c ∈ getCards status cs
          ↔ c ∈ cs ∧ (Js.truthy status →
                       status_string (Card.status_ c) = default "" status)).
Proof.
  unfold getCards, getAllCards.
  split; [apply sort_newest_first|].
  assert (Hperm : sort newest_first
            (if Js.truthy (if Js.truthy status then status else None)
             then filter
                    (has_status
                       (default "" (if Js.truthy status then status else None)))
                    cs
             else cs)
          ≡ₚ (if Js.truthy status
              then filter (has_status (default "" status)) cs else cs)).
  { rewrite sort_perm. destruct (Js.truthy status) eqn:E; [by rewrite E|done]. }
  split; [done|].
  intros c. rewrite Hperm.
  destruct (Js.truthy status).
  - rewrite list_elem_of_filter. unfold has_status.
    split; [by intros [? ?]|]. intros [? H]. split; [by apply H|done].
  - split; [|by intros [? _]]. intros ?. split; [done|intros []].
Qed.

(** X15.  The order of GET /cards is stable: stored cards with the same
    [createdAt] appear in the order in which they were stored. *)
Theorem getCards_keeps_insertion_order_on_ties (status : option string)
    (cs : store) (t : Date) :
  filter (λ c, Card.createdAt c = t) (getCards status cs)
  = filter (λ c, Card.createdAt c = t)
      (if Js.truthy status
       then filter (has_status (default "" status)) cs else cs).
Proof.
  unfold getCards, getAllCards. rewrite sort_stable.
  destruct (Js.truthy status) eqn:E; [by rewrite E|done].
Qed.

End ListOfCards.

(** ** The RedID table *)

Section RedIdTableFacts.
Import RedIdTable.

(** On RedIDs that do not name a member of [Object.prototype], the lookup in
    the table at start-up is [RedIdEmailMap.getEmailByRedId]. *)
Lemma getEmailByRedId_at_startup (r : string) :
  Js.removeWhitespace r ∉ object_prototype_names →
  getEmailByRedId_in RedIdEmailMap.redIdEmailMap (Some r)
  = Email <$> RedIdEmailMap.getEmailByRedId (Some r).
Proof.
  intros Hn. unfold getEmailByRedId_in, RedIdEmailMap.getEmailByRedId.
  destruct (Js.truthy (Some r)); [|done].
  cbv zeta. rewrite removeWhitespace_trim. unfold get.
  destruct (RedIdEmailMap.redIdEmailMap !! Js.removeWhitespace r) as [e|];
    simpl.
  - unfold Js.or_null, Js.or, Js.truthy. by case_bool_decide.
  - by rewrite bool_decide_eq_false_2.
Qed.

(** The lookup only depends on the RedID with all white space removed. *)
Lemma getEmailByRedId_in_key (table : gmap string string) (r : string) :
  getEmailByRedId_in table (Some r)
  = if bool_decide (r = "") then None
    else or_null (get table (Js.removeWhitespace r)).
Proof.
  unfold getEmailByRedId_in, Js.truthy. rewrite removeWhitespace_trim.
  by case_bool_decide.
Qed.

Lemma get_empty_key (table : gmap string string) :
  table !! "" = None → get table "" = None.
Proof. intros H. unfold get. by rewrite H. Qed.

(** X16.  The lookup ignores white space anywhere in the RedID: two RedIDs
    that are equal once their white space is removed get the same answer,
    provided the table has no entry under the empty key (the table at
    start-up has none). *)
Theorem getEmailByRedId_ignores_whitespace (table : gmap string string)
    (r1 r2 : string) :
  table !! "" = None →
  Js.removeWhitespace r1 = Js.removeWhitespace r2 →
  getEmailByRedId_in table (Some r1) = getEmailByRedId_in table (Some r2).
Proof.
  intros Hempty Heq. rewrite !getEmailByRedId_in_key, Heq.
  case_bool_decide as H1; case_bool_decide as H2; try done.
  - subst r1. change (Js.removeWhitespace "") with "" in Heq.
    by rewrite <- Heq, get_empty_key.
  - subst r2. change (Js.removeWhitespace "") with "".
    by rewrite get_empty_key.
Qed.

Lemma getEmailByRedId_ignores_whitespace_witness :
  getEmailByRedId_in RedIdEmailMap.redIdEmailMap (Some " 1322 64610 ")
  = getEmailByRedId_in RedIdEmailMap.redIdEmailMap (Some "132264610").
Proof.
  apply getEmailByRedId_ignores_whitespace.
  - reflexivity.
  - reflexivity.
Defined.

(** X17.  A mapping that was added is found: after
    [addRedIdMapping(redId, email)] with a RedID and an email of ASCII
    characters, where the RedID is not empty, has no white space inside
    (white space at its ends is allowed) and is not [__proto__], and the
    email is not blank, the lookup of that RedID returns the trimmed
    email. *)
Theorem addRedIdMapping_then_lookup (table : gmap string string)
    (r e : string) :
  Domain.ascii_only r → Domain.ascii_only e →
  r ≠ "" → Js.removeWhitespace r = Js.trim r →
  Js.trim r ≠ "__proto__" → Js.trim e ≠ "" →
  getEmailByRedId_in (addRedIdMapping (Some r) (Some e) table) (Some r)
  = Some (Email (Js.trim e)).
Proof.
  intros _ _ Hr' Hinner Hproto He.
  assert (e ≠ "") as He' by (intros ->; by apply He).
  rewrite getEmailByRedId_in_key, bool_decide_eq_false_2 by done.
  unfold addRedIdMapping, Js.truthy, set.
  rewrite !bool_decide_eq_false_2 by done. simpl.
  unfold get. rewrite Hinner, lookup_insert_eq. simpl.
  by rewrite bool_decide_eq_false_2.
Qed.

Lemma addRedIdMapping_then_lookup_witness :
  getEmailByRedId_in
    (addRedIdMapping (Some " 130000001 ") (Some " new.student@sdsu.edu ")
       RedIdEmailMap.redIdEmailMap)
    (Some " 130000001 ")
  = Some (Email "new.student@sdsu.edu").
Proof.
  apply (addRedIdMapping_then_lookup RedIdEmailMap.redIdEmailMap
           " 130000001 " " new.student@sdsu.edu ");
    try (apply (bool_decide_unpack _); vm_compute; exact I);
    by vm_compute.
Defined.

(** X18.  [addRedIdMapping] stores the RedID trimmed only, while the lookup
    removes all white space.  For RedIDs of ASCII characters, the lookup of
    a RedID whose form without white space is not the trimmed RedID of the
    call answers as before the call; in particular a mapping added under a
    RedID with white space inside is not found under that RedID. *)
Theorem addRedIdMapping_other_lookups (table : gmap string string)
    (redId email : option string) (r' : string) :
  Domain.ascii_only (default "" redId) → Domain.ascii_only r' →
  Js.removeWhitespace r' ≠ Js.trim (default "" redId) →
  getEmailByRedId_in (addRedIdMapping redId email table) (Some r')
  = getEmailByRedId_in table (Some r').
Proof.
  intros _ _ Hne. rewrite !getEmailByRedId_in_key.
  case_bool_decide; [done|]. f_equal.
  unfold addRedIdMapping.
  destruct redId as [r|], email as [e|]; try done.
  destruct (_ && _); [|done]. unfold set. case_bool_decide; [done|].
  unfold get. by rewrite lookup_insert_ne.
Qed.

Lemma addRedIdMapping_other_lookups_witness :
  getEmailByRedId_in
    (addRedIdMapping (Some "13 0000001") (Some "new.student@sdsu.edu")
       RedIdEmailMap.redIdEmailMap)
    (Some "13 0000001")
  = getEmailByRedId_in RedIdEmailMap.redIdEmailMap (Some "13 0000001").
Proof.
  apply (addRedIdMapping_other_lookups RedIdEmailMap.redIdEmailMap
           (Some "13 0000001") (Some "new.student@sdsu.edu") "13 0000001").
  - apply (bool_decide_unpack _). vm_compute. exact I.
  - apply (bool_decide_unpack _). vm_compute. exact I.
  - discriminate.
Defined.

End RedIdTableFacts.

(** ** The sketch of the box *)

Section SketchFacts.
Import CardsStore Routes Lifecycle WString Sketch.

Lemma string_app_cons (a : ascii) (s1 s2 : string) :
  String a s1 +:+ s2 = String a (s1 +:+ s2).
Proof. done. Qed.

Lemma string_app_assoc (s1 s2 s3 : string) :
  (s1 +:+ s2) +:+ s3 = s1 +:+ (s2 +:+ s3).
Proof.
  induction s1 as [|a s1 IH]; [done|]. by rewrite !string_app_cons, IH.
Qed.

Lemma string_app_empty_r (s : string) : s +:+ "" = s.
Proof.
  induction s as [|a s IH]; [done|]. by rewrite string_app_cons, IH.
Qed.

Lemma string_length_zero (s : string) : String.length s = 0 ↔ s = "".
Proof. by destruct s. Qed.

Lemma initial_well_formed : well_formed initial.
Proof.
  split; simpl; try lia; try done.
  - unfold stored. simpl. constructor.
  - constructor.
Qed.

Lemma set_serialBuffer_well_formed (v : string) (s : state) :
  well_formed s → String.length v ≤ 50 → well_formed (set_serialBuffer v s).
Proof. intros [] ?. by split. Qed.

Lemma set_inputCode_well_formed (v : string) (s : state) :
  well_formed s → String.length v ≤ 4 → keypad_digits v →
  well_formed (set_inputCode v s).
Proof. intros [] ??. by split. Qed.

Lemma set_serialBuffer_twice (v w : string) (s : state) :
  set_serialBuffer v (set_serialBuffer w s) = set_serialBuffer v s.
Proof. done. Qed.

Lemma set_serialBuffer_same (s : state) :
  set_serialBuffer (serialBuffer s) s = s.
Proof. by destruct s. Qed.

Lemma set_inputCode_same (s : state) : set_inputCode (inputCode s) s = s.
Proof. by destruct s. Qed.

Lemma set_serialBuffer_addValidCode (v code : string) (s : state) :
  set_serialBuffer v (addValidCode code s)
  = addValidCode code (set_serialBuffer v s).
Proof.
  unfold addValidCode.
  change (stored (set_serialBuffer v s)) with (stored s).
  change (codeCount (set_serialBuffer v s)) with (codeCount s).
  by repeat case_bool_decide.
Qed.

(** The codes in use after [addValidCode]: a new code is added at the end
    when there is room, and nothing else changes. *)
Lemma addValidCode_stored (code : string) (s : state) :
  length (validCodes s) = 20 →
  stored (addValidCode code s)
  = if bool_decide (code ∈ stored s) then stored s
    else if bool_decide (codeCount s < 20) then stored s ++ [code]
    else stored s.
Proof.
  intros Hlen. unfold addValidCode.
  case_bool_decide; [done|]. case_bool_decide; [|done].
  unfold stored. simpl.
  rewrite (take_S_r _ _ code).
  - by rewrite take_insert_ge.
  - apply list_lookup_insert_eq. lia.
Qed.

Lemma addValidCode_well_formed (code : string) (s : state) :
  well_formed s → well_formed (addValidCode code s).
Proof.
  intros [Ha Hc Hd Hl Hk Hb].
  pose proof (addValidCode_stored code s Ha) as Hst.
  unfold addValidCode in *.
  case_bool_decide as Hin; [done|]. case_bool_decide; [|done].
  split; simpl; try done.
  - by rewrite length_insert.
  - rewrite Hst. apply NoDup_app. split_and!; [done| |apply NoDup_singleton].
    by intros x Hx ->%list_elem_of_singleton.
Qed.

Lemma addValidCode_prefix (code : string) (s : state) :
  well_formed s → stored s `prefix_of` stored (addValidCode code s).
Proof.
  intros [Ha _ _ _ _ _]. rewrite addValidCode_stored by done.
  repeat case_bool_decide; try done. by apply prefix_app_r.
Qed.

Lemma parse_code_line_cases (s : state) :
  parse_code_line s = s ∨ ∃ code, parse_code_line s = addValidCode code s.
Proof.
  unfold parse_code_line.
  destruct (startsWith _ _); [|by left]. cbv zeta.
  destruct (_ <? _)%Z; [|by left].
  case_bool_decide; [|by left]. right. by eexists.
Qed.

Lemma keypad_digit (c : ascii) :
  (49 <=? nat_of_ascii c) && (nat_of_ascii c <=? 52) = true ↔
  c ∈ ["1"; "2"; "3"; "4"]%char.
Proof.
  split.
  - intros [H1 H2]%andb_true_iff.
    apply Nat.leb_le in H1. apply Nat.leb_le in H2.
    rewrite <- (ascii_nat_embedding c).
    assert (nat_of_ascii c = 49 ∨ nat_of_ascii c = 50
            ∨ nat_of_ascii c = 51 ∨ nat_of_ascii c = 52) as Hn by lia.
    destruct Hn as [Hn|[Hn|[Hn|Hn]]]; rewrite Hn; cbn; set_solver.
  - intros H.
    repeat (apply elem_of_cons in H as [->|H]; [done|]).
    by apply elem_of_nil in H.
Qed.

Lemma substring0_chars (n : nat) (s : string) :
  String.list_ascii_of_string (Js.substring0 n s)
  = take n (String.list_ascii_of_string s).
Proof.
  revert s. induction n as [|n IH]; intros [|a s]; simpl; try done.
  by rewrite IH.
Qed.

Lemma list_ascii_length (s : string) :
  length (String.list_ascii_of_string s) = String.length s.
Proof. induction s as [|a s IH]; simpl; [done|]. by rewrite IH. Qed.

(** Removing the last character, as the backspace branch does. *)
Lemma substring_all_but_last (s : string) :
  0 < String.length s →
  String.list_ascii_of_string (substring s 0 (String.length s - 1))
  = take (String.length s - 1) (String.list_ascii_of_string s).
Proof.
  intros Hlen. unfold substring.
  rewrite (bool_decide_eq_false_2 (_ < 0)) by lia.
  rewrite (bool_decide_eq_false_2 (_ ≤ 0)) by lia.
  rewrite (bool_decide_eq_false_2 (_ < _ - 1)) by lia.
  rewrite Nat.sub_0_r. apply substring0_chars.
Qed.

(** One character keeps the sketch's variables well formed, keeps the codes
    it has, and calls [checkCode] on the current state with a code that is
    not empty. *)
Lemma serial_char_inv (c : ascii) (s : state) :
  well_formed s →
  well_formed (serial_char c s).1
  ∧ stored s `prefix_of` stored (serial_char c s).1
  ∧ Forall (λ call, call = s ∧ 0 < String.length (inputCode call))
      (serial_char c s).2.
Proof.
  intros Hwf. unfold serial_char.
  destruct (bool_decide (c = "C"%char) && _) eqn:E1.
  { simpl. split_and!; [|done|done].
    apply set_serialBuffer_well_formed; simpl; [done|lia]. }
  destruct (0 <? String.length (serialBuffer s)) eqn:E2.
  { cbv zeta. rewrite !set_serialBuffer_twice.
    assert (∀ s', (well_formed (set_serialBuffer "" s')
                   ∧ stored s `prefix_of` stored s') →
              (String.length (serialBuffer s') ≤ 50 → well_formed s') →
              well_formed
                (if 50 <? String.length (serialBuffer s')
                 then set_serialBuffer "" s' else s')
              ∧ stored s `prefix_of`
                  stored (if 50 <? String.length (serialBuffer s')
                          then set_serialBuffer "" s' else s')) as Hcut.
    { intros s' [Hw Hp] Hs'.
      destruct (50 <? _) eqn:E; [done|].
      apply Nat.ltb_ge in E. split; [by apply Hs'|done]. }
    simpl fst. simpl snd. apply and_assoc. split; [|done].
    apply Hcut.
    - destruct (is_line_end c).
      + rewrite set_serialBuffer_twice.
        destruct (parse_code_line_cases
                    (set_serialBuffer
                       (trim (serialBuffer s +:+ String c "")) s))
          as [->|[code ->]].
        * rewrite set_serialBuffer_twice. split; [|done].
          apply set_serialBuffer_well_formed; simpl; [done|lia].
        * rewrite set_serialBuffer_addValidCode, set_serialBuffer_twice.
          split.
          -- apply addValidCode_well_formed.
             apply set_serialBuffer_well_formed; simpl; [done|lia].
          -- change (stored s) with (stored (set_serialBuffer "" s)) at 1.
             apply addValidCode_prefix.
             apply set_serialBuffer_well_formed; simpl; [done|lia].
      + rewrite set_serialBuffer_twice. split; [|done].
        apply set_serialBuffer_well_formed; simpl; [done|lia].
    - destruct (is_line_end c).
      + intros _.
        destruct (parse_code_line_cases
                    (set_serialBuffer
                       (trim (serialBuffer s +:+ String c "")) s))
          as [->|[code ->]].
        * rewrite set_serialBuffer_twice.
          apply set_serialBuffer_well_formed; simpl; [done|lia].
        * rewrite set_serialBuffer_addValidCode, set_serialBuffer_twice.
          apply addValidCode_well_formed.
          apply set_serialBuffer_well_formed; simpl; [done|lia].
      + simpl. intros Hle. by apply set_serialBuffer_well_formed. }
  destruct ((49 <=? nat_of_ascii c) && _) eqn:E3.
  { destruct (String.length (inputCode s) <? 4) eqn:E4; [|done].
    apply Nat.ltb_lt in E4. simpl. split_and!; [|done|done].
    destruct Hwf as [Ha Hc Hd Hl Hk Hb]. split; simpl; try done.
    - rewrite string_length_app. simpl. lia.
    - unfold keypad_digits. rewrite list_ascii_app. apply Forall_app.
      split; [done|]. simpl. constructor; [|done]. by apply keypad_digit. }
  destruct (is_line_end c).
  { destruct (0 <? String.length (inputCode s)) eqn:E4; [|done].
    apply Nat.ltb_lt in E4. simpl. split_and!; [|done|].
    - apply set_inputCode_well_formed; simpl; [done|lia|constructor].
    - by constructor. }
  destruct (_ || _); [|done].
  destruct (0 <? String.length (inputCode s)) eqn:E4; [|done].
  apply Nat.ltb_lt in E4. simpl. split_and!; [|done|done].
  destruct Hwf as [Ha Hc Hd Hl Hk Hb].
  apply set_inputCode_well_formed; [done| |].
  - rewrite <- list_ascii_length, substring_all_but_last by done.
    rewrite length_take. lia.
  - unfold keypad_digits. rewrite substring_all_but_last by done.
    by apply Forall_take.
Qed.

Lemma while_available_inv (input : string) (s : state) :
  well_formed s →
  well_formed (while_available input s).1
  ∧ stored s `prefix_of` stored (while_available input s).1
  ∧ Forall (λ call, well_formed call ∧ stored s `prefix_of` stored call
                    ∧ 0 < String.length (inputCode call))
      (while_available input s).2.
Proof.
  revert s. induction input as [|c rest IH]; intros s Hwf.
  { simpl. by split_and!. }
  cbn [while_available].
  destruct (serial_char_inv c s Hwf) as (Hwf1 & Hp1 & Hc1).
  destruct (serial_char c s) as [s1 calls1]. simpl in Hwf1, Hp1, Hc1.
  destruct (IH s1 Hwf1) as (Hwf2 & Hp2 & Hc2).
  destruct (while_available rest s1) as [s2 calls2].
  simpl in Hwf2, Hp2, Hc2. simpl. split_and!; [done|by etrans|].
  apply Forall_app. split.
  - eapply Forall_impl; [exact Hc1|]. by intros call [-> ?].
  - eapply Forall_impl; [exact Hc2|].
    intros call (? & ? & ?). split_and!; [done|by etrans|done].
Qed.

Lemma loop_inv (input : string) (s : state) :
  well_formed s →
  well_formed (loop input s).1
  ∧ String.length (inputCode (loop input s).1) < 4
  ∧ stored s `prefix_of` stored (loop input s).1
  ∧ Forall (λ call, well_formed call ∧ stored s `prefix_of` stored call
                    ∧ 0 < String.length (inputCode call))
      (loop input s).2.
Proof.
  intros Hwf. unfold loop.
  destruct (while_available_inv input s Hwf) as (Hwf1 & Hp1 & Hc1).
  destruct (while_available input s) as [s1 calls]. simpl in Hwf1, Hp1, Hc1.
  destruct (String.length (inputCode s1) =? 4) eqn:E; simpl.
  - apply Nat.eqb_eq in E. split_and!; [|lia|done|].
    + apply set_inputCode_well_formed; simpl; [done|lia|constructor].
    + apply Forall_app. split; [done|]. constructor; [|done].
      split_and!; [done|done|lia].
  - apply Nat.eqb_neq in E. split_and!; [done| |done|done].
    destruct Hwf1. lia.
Qed.

Lemma loops_inv (inputs : list string) (s : state) :
  well_formed s → String.length (inputCode s) < 4 →
  well_formed (loops inputs s).1
  ∧ String.length (inputCode (loops inputs s).1) < 4
  ∧ stored s `prefix_of` stored (loops inputs s).1
  ∧ Forall (λ call, well_formed call ∧ stored s `prefix_of` stored call
                    ∧ 0 < String.length (inputCode call))
      (loops inputs s).2.
Proof.
  revert s. induction inputs as [|input rest IH]; intros s Hwf Hlen.
  { simpl. by split_and!. }
  cbn [loops].
  destruct (loop_inv input s Hwf) as (Hwf1 & Hl1 & Hp1 & Hc1).
  destruct (loop input s) as [s1 calls1]. simpl in Hwf1, Hl1, Hp1, Hc1.
  destruct (IH s1 Hwf1 Hl1) as (Hwf2 & Hl2 & Hp2 & Hc2).
  destruct (loops rest s1) as [s2 calls2].
  simpl in Hwf2, Hl2, Hp2, Hc2. simpl. split_and!; [done|done|by etrans|].
  apply Forall_app. split; [done|].
  eapply Forall_impl; [exact Hc2|].
  intros call (? & ? & ?). split_and!; [done|by etrans|done].
Qed.

(** X19.  From power-up on, whatever arrives on the serial line in whatever
    runs of [loop()], the sketch stays within its bounds: [codeCount] never
    exceeds the 20 elements of [validCodes], the codes in use are pairwise
    distinct, [serialBuffer] holds at most 50 characters and [inputCode]
    fewer than four between two runs; and every code that [checkCode] is
    called on has one to four characters, each a digit 1 to 4.  The input
    has no NUL character. *)
Theorem sketch_stays_within_bounds (inputs : list string) :
  Forall no_NUL inputs →
  codeCount (loops inputs initial).1 ≤ 20
  ∧ NoDup (stored (loops inputs initial).1)
  ∧ String.length (serialBuffer (loops inputs initial).1) ≤ 50
  ∧ String.length (inputCode (loops inputs initial).1) < 4
  ∧ Forall (λ call, 0 < String.length (inputCode call) ≤ 4
                    ∧ keypad_digits (inputCode call))
      (loops inputs initial).2.
Proof.
  intros _.
  destruct (loops_inv inputs initial initial_well_formed)
    as ([] & Hl & _ & Hc); [simpl; lia|].
  split_and!; try done.
  eapply Forall_impl; [exact Hc|].
  intros call ([] & _ & ?). by split_and!.
Qed.

Lemma sketch_stays_within_bounds_witness :
  let inputs := ["12CODE:1243:BOX_1" +:+ Arduino.LF; "4"; "3"] in
  codeCount (loops inputs initial).1 ≤ 20
  ∧ NoDup (stored (loops inputs initial).1)
  ∧ String.length (serialBuffer (loops inputs initial).1) ≤ 50
  ∧ String.length (inputCode (loops inputs initial).1) < 4
  ∧ Forall (λ call, 0 < String.length (inputCode call) ≤ 4
                    ∧ keypad_digits (inputCode call))
      (loops inputs initial).2.
Proof.
  apply sketch_stays_within_bounds.
  repeat constructor; by vm_compute.
Defined.

(** X20.  The sketch never removes a code.  Once a code is among the codes
    in use it stays there whatever is received afterwards, so whenever that
    code is submitted later while the backend cannot be reached (WiFi down
    or no HTTP answer) the door opens, also when the card has been picked
    up in the meantime. *)
Theorem stored_code_opens_door_offline (s : state) (inputs : list string)
    (call : state) (net : network) :
  well_formed s → String.length (inputCode s) < 4 →
  Forall no_NUL inputs →
  call ∈ (loops inputs s).2 → inputCode call ∈ stored s →
  backend_unreachable net →
  OpenDoor ∈ checkCode net call.
Proof.
  intros Hwf Hlen _ Hcall Hin Hnet.
  destruct (loops_inv inputs s Hwf Hlen) as (_ & _ & _ & Hc).
  rewrite Forall_forall in Hc. destruct (Hc call Hcall) as (_ & Hp & _).
  assert (inputCode call ∈ stored call) as Hin'
    by by eapply elem_of_prefix.
  unfold checkCode. rewrite (bool_decide_eq_true_2 _ Hin').
  destruct (connected net) eqn:Ec.
  - destruct Hnet as [?|Hz]; [congruence|].
    apply Z.ltb_ge in Hz. rewrite Hz. repeat constructor.
  - repeat constructor.
Qed.

Lemma stored_code_opens_door_offline_witness :
  OpenDoor ∈
    checkCode {| connected := false; httpResponseCode := 0; response := "" |}
      {| inputCode := "1243"; validCodes := "1243" :: replicate 19 "";
         codeCount := 1; serialBuffer := "" |}.
Proof.
  apply (stored_code_opens_door_offline
           {| inputCode := ""; validCodes := "1243" :: replicate 19 "";
              codeCount := 1; serialBuffer := "" |}
           ["CODE:3321:BOX_2" +:+ Arduino.LF; "1243"]).
  - split; simpl; try lia; try done.
    + apply (bool_decide_unpack _). by vm_compute.
    + constructor.
  - simpl. lia.
  - repeat constructor; by vm_compute.
  - vm_compute. repeat constructor.
  - vm_compute. repeat constructor.
  - by left.
Defined.

(** *** The message of the service and the parser of the sketch *)

Lemma trimEnd_snoc_space (s : string) (a : ascii) :
  Ascii.is_space a = true → Js.trimEnd (s +:+ String a "") = Js.trimEnd s.
Proof.
  intros Ha. induction s as [|b s IH].
  - simpl. by rewrite Ha.
  - rewrite string_app_cons. cbn [Js.trimEnd]. by rewrite IH.
Qed.

Lemma trimEnd_cons_nonspace (a : ascii) (t : string) :
  Ascii.is_space a = false → Js.trimEnd (String a t) = String a (Js.trimEnd t).
Proof. intros Ha. cbn [Js.trimEnd]. destruct (Js.trimEnd t); by rewrite ?Ha. Qed.

Lemma trimEnd_app (s t : string) :
  Js.trimEnd t ≠ "" → Js.trimEnd (s +:+ t) = s +:+ Js.trimEnd t.
Proof.
  intros Ht. induction s as [|b s IH]; [done|].
  rewrite !string_app_cons. cbn [Js.trimEnd]. rewrite IH.
  destruct (s +:+ Js.trimEnd t) eqn:E; [|done].
  destruct s; [|done]. by destruct Ht.
Qed.

Lemma find_char_app (ch : ascii) (s rest : string) :
  ch ∉ String.list_ascii_of_string s →
  find_char ch (s +:+ String ch rest) = Some (String.length s).
Proof.
  induction s as [|a s IH]; intros Hn.
  - simpl. by rewrite bool_decide_eq_true_2.
  - rewrite string_app_cons. simpl in *.
    apply not_elem_of_cons in Hn as [Hne Hn].
    rewrite bool_decide_eq_false_2 by done. by rewrite IH.
Qed.

Lemma drop_app (s1 s2 : string) (n : nat) :
  drop (String.length s1 + n) (s1 +:+ s2) = drop n s2.
Proof.
  induction s1 as [|a s1 IH]; [done|]. rewrite string_app_cons. apply IH.
Qed.

Lemma drop_all (s : string) : drop (String.length s) s = "".
Proof. induction s as [|a s IH]; [done|]. apply IH. Qed.

Lemma substring0_app (s1 s2 : string) :
  Js.substring0 (String.length s1) (s1 +:+ s2) = s1.
Proof.
  induction s1 as [|a s1 IH]; [by destruct s2|].
  rewrite string_app_cons. simpl. by rewrite IH.
Qed.

Lemma substring0_all (s : string) : Js.substring0 (String.length s) s = s.
Proof. induction s as [|a s IH]; [done|]. simpl. by rewrite IH. Qed.

(** The parse of a buffer that holds [CODE:<code>:<box>]. *)
Lemma parse_code_line_message (code boxid : string) (s : state) :
  serialBuffer s = "CODE:" +:+ code +:+ ":" +:+ boxid →
  ":"%char ∉ String.list_ascii_of_string code →
  parse_code_line s
  = if bool_decide (code ≠ "" ∧ boxid = boxId)
    then addValidCode code s else s.
Proof.
  intros Hbuf Hcolon. unfold parse_code_line. rewrite Hbuf.
  change (startsWith ("CODE:" +:+ code +:+ ":" +:+ boxid) "CODE:") with true.
  cbv zeta.
  assert (String.length ("CODE:" +:+ code +:+ ":" +:+ boxid)
          = 6 + String.length code + String.length boxid) as Hlen.
  { rewrite !string_length_app. simpl. lia. }
  assert (indexOf ("CODE:" +:+ code +:+ ":" +:+ boxid) ":" 5
          = Z.of_nat (5 + String.length code)) as ->.
  { unfold indexOf. rewrite bool_decide_eq_false_2 by lia.
    change (drop 5 ("CODE:" +:+ code +:+ ":" +:+ boxid))
      with (code +:+ String ":" boxid).
    by rewrite find_char_app. }
  destruct code as [|a code].
  { rewrite (bool_decide_eq_false_2 (_ ∧ _)) by (by intros [? _]). done. }
  rewrite (proj2 (Z.ltb_lt _ _)) by (simpl; lia).
  assert (substring ("CODE:" +:+ String a code +:+ ":" +:+ boxid) 5
            (Z.to_nat (Z.of_nat (5 + String.length (String a code))))
          = String a code) as ->.
  { rewrite Nat2Z.id. unfold substring.
    rewrite (bool_decide_eq_false_2 (_ < 5)) by lia.
    rewrite (bool_decide_eq_false_2 (_ ≤ 5)) by lia.
    rewrite bool_decide_eq_false_2 by lia.
    replace (5 + String.length (String a code) - 5)
      with (String.length (String a code)) by lia.
    change (drop 5 ("CODE:" +:+ String a code +:+ ":" +:+ boxid))
      with (String a code +:+ ":" +:+ boxid).
    apply substring0_app. }
  assert (substring_from ("CODE:" +:+ String a code +:+ ":" +:+ boxid)
            (Z.to_nat (Z.of_nat (5 + String.length (String a code)) + 1))
          = boxid) as ->.
  { replace (Z.to_nat (Z.of_nat (5 + String.length (String a code)) + 1))
      with (String.length ("CODE:" +:+ String a code +:+ ":") + 0)
      by (rewrite !string_length_app; simpl; lia).
    unfold substring_from, substring.
    rewrite (bool_decide_eq_false_2 (_ < _ + 0))
      by (rewrite !string_length_app; simpl; lia).
    rewrite (bool_decide_eq_false_2 (_ < _)) by lia.
    case_bool_decide as Hle.
    - rewrite Hlen, !string_length_app in Hle. simpl in Hle.
      destruct boxid; [done|simpl in Hle; lia].
    - replace ("CODE:" +:+ String a code +:+ ":" +:+ boxid)
        with (("CODE:" +:+ String a code +:+ ":") +:+ boxid)
        by (by rewrite !string_app_assoc).
      rewrite drop_app. cbn [drop].
      rewrite string_length_app, Nat.add_0_r, Nat.add_sub_swap, Nat.sub_diag
        by done.
      apply substring0_all. }
  destruct (decide (boxid = boxId)) as [Hb|Hb].
  - by rewrite !bool_decide_eq_true_2.
  - rewrite (bool_decide_eq_false_2 (boxid = boxId)) by done.
    by rewrite bool_decide_eq_false_2 by (by intros [_ ?]).
Qed.

Lemma while_available_app (m1 m2 : string) (s : state) :
  while_available (m1 +:+ m2) s
  = let '(s1, calls1) := while_available m1 s in
    let '(s2, calls2) := while_available m2 s1 in
    (s2, calls1 ++ calls2).
Proof.
  revert s. induction m1 as [|c m1 IH]; intros s.
  { change ("" +:+ m2) with m2. simpl. by destruct (while_available m2 s). }
  rewrite string_app_cons. cbn [while_available].
  destruct (serial_char c s) as [s1 calls1]. rewrite IH.
  destruct (while_available m1 s1) as [s2 calls2].
  destruct (while_available m2 s2) as [s3 calls3].
  by rewrite app_assoc.
Qed.

(** While a line is being received, its characters go to [serialBuffer]. *)
Lemma while_available_buffer (m : string) (s : state) :
  serialBuffer s ≠ "" → one_line m →
  String.length (serialBuffer s) + String.length m ≤ 50 →
  while_available m s = (set_serialBuffer (serialBuffer s +:+ m) s, []).
Proof.
  revert s. induction m as [|c m IH]; intros s Hne Hline Hlen.
  { simpl. by rewrite string_app_empty_r, set_serialBuffer_same. }
  apply Forall_cons in Hline as [Hc Hline]. simpl in Hlen.
  cbn [while_available]. unfold serial_char.
  assert (0 < String.length (serialBuffer s)) as Hpos.
  { destruct (serialBuffer s); [done|simpl; lia]. }
  rewrite (proj2 (Nat.eqb_neq _ 0)) by lia. rewrite andb_false_r.
  rewrite (proj2 (Nat.ltb_lt _ _)) by done.
  cbv zeta. rewrite Hc. cbn [serialBuffer set_serialBuffer].
  rewrite (proj2 (Nat.ltb_ge _ _))
    by (rewrite string_length_app; simpl; lia).
  rewrite IH; cbn [serialBuffer set_serialBuffer].
  - by rewrite string_app_assoc.
  - by destruct (serialBuffer s).
  - done.
  - rewrite string_length_app. simpl. lia.
Qed.

(** Digits that are typed go to [inputCode] while it has fewer than four. *)
Lemma while_available_digits (digits : string) (s : state) :
  serialBuffer s = "" → keypad_digits digits →
  String.length (inputCode s) + String.length digits ≤ 4 →
  while_available digits s = (set_inputCode (inputCode s +:+ digits) s, []).
Proof.
  revert s. induction digits as [|c m IH]; intros s Hbuf Hd Hlen.
  { simpl. by rewrite string_app_empty_r, set_inputCode_same. }
  apply Forall_cons in Hd as [Hc Hd]. simpl in Hlen.
  cbn [while_available]. unfold serial_char. rewrite Hbuf.
  assert (c ≠ "C"%char) as HC.
  { intros ->. repeat (apply elem_of_cons in Hc as [Hc|Hc]; [done|]).
    by apply elem_of_nil in Hc. }
  rewrite (bool_decide_eq_false_2 _ HC), andb_false_l.
  change (0 <? String.length "") with false. cbv iota.
  rewrite (proj2 (keypad_digit c) Hc).
  rewrite (proj2 (Nat.ltb_lt _ _)) by lia.
  rewrite IH; cbn [inputCode serialBuffer set_inputCode].
  - by rewrite string_app_assoc.
  - done.
  - done.
  - rewrite string_length_app. simpl. lia.
Qed.

Lemma one_line_app (s1 s2 : string) :
  one_line (s1 +:+ s2) ↔ one_line s1 ∧ one_line s2.
Proof. unfold one_line. rewrite list_ascii_app. apply Forall_app. Qed.

(** The sketch reads the message [CODE:<code>:<box>] and a line feed. *)
Lemma while_available_message (code boxid : string) (s : state) :
  serialBuffer s = "" →
  one_line code → ":"%char ∉ String.list_ascii_of_string code →
  one_line boxid → Js.trimEnd boxid = boxid →
  6 + String.length code + String.length boxid ≤ 50 →
  while_available ("CODE:" +:+ code +:+ ":" +:+ boxid +:+ Arduino.LF) s
  = (if bool_decide (code ≠ "" ∧ boxid = boxId)
     then addValidCode code s else s, []).
Proof.
  intros Hbuf Hcode Hcolon Hbox Htrim Hlen.
  replace ("CODE:" +:+ code +:+ ":" +:+ boxid +:+ Arduino.LF)
    with (String "C" (("ODE:" +:+ code +:+ ":" +:+ boxid) +:+ Arduino.LF))
    by (by rewrite !string_app_assoc).
  cbn [while_available].
  assert (serial_char "C" s = (set_serialBuffer "C" s, [])) as ->.
  { unfold serial_char. by rewrite Hbuf. }
  rewrite while_available_app.
  rewrite while_available_buffer; cbn [serialBuffer set_serialBuffer].
  2: done.
  2: { apply one_line_app. split; [by repeat constructor|].
       apply one_line_app. split; [done|].
       apply one_line_app. split; [by repeat constructor|done]. }
  2: { rewrite !string_length_app. simpl. lia. }
  change ("C" +:+ "ODE:" +:+ code +:+ ":" +:+ boxid)
    with ("CODE:" +:+ code +:+ ":" +:+ boxid).
  set (line := "CODE:" +:+ code +:+ ":" +:+ boxid).
  assert (trim (line +:+ Arduino.LF) = line) as Hline.
  { unfold trim, Arduino.LF.
    change (Js.trimStart (line +:+ String "010" ""))
      with (line +:+ String "010" "").
    rewrite trimEnd_snoc_space by done. unfold line.
    replace ("CODE:" +:+ code +:+ ":" +:+ boxid)
      with (("CODE:" +:+ code) +:+ String ":" boxid)
      by (by rewrite !string_app_assoc).
    rewrite trimEnd_app; rewrite trimEnd_cons_nonspace, Htrim; done. }
  unfold Arduino.LF. cbn [while_available]. unfold serial_char.
  cbn [serialBuffer set_serialBuffer].
  rewrite (bool_decide_eq_false_2 ("010"%char = "C"%char)) by done.
  rewrite andb_false_l.
  assert (0 < String.length line) as Hpos by (unfold line; simpl; lia).
  rewrite (proj2 (Nat.ltb_lt _ _) Hpos).
  cbv zeta. change (is_line_end "010") with true.
  cbn [serialBuffer set_serialBuffer]. fold Arduino.LF. rewrite Hline.
  rewrite (parse_code_line_message code boxid) by done.
  replace (set_serialBuffer line
             (set_serialBuffer (line +:+ Arduino.LF)
                (set_serialBuffer line (set_serialBuffer "C" s))))
    with (set_serialBuffer line s) by done.
  assert (set_serialBuffer "" s = s) as Hs
    by (by rewrite <- Hbuf, set_serialBuffer_same).
  case_bool_decide.
  - rewrite set_serialBuffer_addValidCode, set_serialBuffer_twice, Hs.
    by cbn [serialBuffer set_serialBuffer].
  - rewrite !set_serialBuffer_twice, Hs.
    by cbn [serialBuffer set_serialBuffer].
Qed.

Lemma keypad_digits_plain (code : string) :
  keypad_digits code →
  one_line code ∧ ":"%char ∉ String.list_ascii_of_string code.
Proof.
  unfold keypad_digits, one_line.
  induction 1 as [|a l Ha Hl [IH1 IH2]]; [split; [done|]; apply not_elem_of_nil|].
  assert (is_line_end a = false ∧ ":"%char ≠ a) as [??].
  { repeat (apply elem_of_cons in Ha as [->|Ha]; [done|]).
    by apply elem_of_nil in Ha. }
  split; [by constructor|]. by apply not_elem_of_cons.
Qed.

Lemma addValidCode_inputCode (code : string) (s : state) :
  inputCode (addValidCode code s) = inputCode s.
Proof. unfold addValidCode. by repeat case_bool_decide. Qed.

Lemma addValidCode_serialBuffer (code : string) (s : state) :
  serialBuffer (addValidCode code s) = serialBuffer s.
Proof. unfold addValidCode. by repeat case_bool_decide. Qed.

(** A run of [loop()] that reads digits which complete a code of four. *)
Lemma loop_digits (digits : string) (s : state) :
  serialBuffer s = "" → keypad_digits digits →
  String.length (inputCode s) + String.length digits = 4 →
  loop digits s
  = (set_inputCode "" s, [set_inputCode (inputCode s +:+ digits) s]).
Proof.
  intros Hbuf Hd Hlen. unfold loop.
  rewrite while_available_digits by (done || lia).
  cbn [inputCode set_inputCode]. rewrite string_length_app, Hlen. done.
Qed.

(** When the backend cannot be reached, the door opens exactly for the
    codes in use. *)
Lemma checkCode_offline (net : network) (s : state) :
  backend_unreachable net →
  OpenDoor ∈ checkCode net s ↔ inputCode s ∈ stored s.
Proof.
  intros Hnet. unfold checkCode.
  assert (OpenDoor ∈ (if bool_decide (inputCode s ∈ stored s)
                      then [OpenDoor] else [])
          ↔ inputCode s ∈ stored s) as Hfound.
  { case_bool_decide; [|by rewrite elem_of_nil].
    split; [done|]. intros _. by constructor. }
  destruct (connected net) eqn:Ec; [|done].
  destruct Hnet as [?|Hz]; [congruence|].
  apply Z.ltb_ge in Hz. rewrite Hz, elem_of_cons.
  rewrite Hfound. split; [|by right]. by intros [[=]|?].
Qed.

(** X21.  The message that [sendPickupCodeToArduino] writes for a pickup
    code of four digits is the one that the sketch parses: when its
    characters are read by a sketch that is not in the middle of a line,
    the code is handed to [addValidCode] if the box of the message is
    BOX_1, and the message is dropped if it is any other box; nothing is
    submitted for verification and the code being typed is not touched.
    The box name is one line of at most 40 characters without NUL and
    without white space at its end, and the serial line is taken to deliver
    the characters as written (the service opens the port at 9600 baud,
    the sketch at 115200). *)
Theorem pickup_code_message_is_parsed (st : Arduino.state)
    (code boxid : string) (cardId : option string) (now : Date)
    (s : state) :
  Arduino.isPortOpen st = true → Arduino.serialPort st = true →
  is_pickup_code code →
  boxid ≠ "" → no_NUL boxid → one_line boxid → Js.trimEnd boxid = boxid →
  String.length boxid ≤ 40 →
  serialBuffer s = "" →
  ∃ message,
    (Arduino.sendPickupCodeToArduino (Some code) (Some boxid) cardId now st).2
    = [message]
    ∧ while_available message s
      = (if bool_decide (boxid = boxId) then addValidCode code s else s, []).
Proof.
  intros Hopen Hport [Hlen Hdigits] Hne _ Hline Htrim Hblen Hbuf.
  destruct (keypad_digits_plain code Hdigits) as [Hcl Hcolon].
  assert (code ≠ "") as Hcode by (by intros ->).
  exists ("CODE:" +:+ code +:+ ":" +:+ boxid +:+ Arduino.LF). split.
  - unfold Arduino.sendPickupCodeToArduino, Arduino.sendCodeToArduino,
      Js.truthy.
    rewrite !bool_decide_eq_false_2 by done. by rewrite Hopen, Hport.
  - rewrite while_available_message by (done || lia).
    destruct (decide (boxid = boxId)) as [Hb|Hb].
    + by rewrite !bool_decide_eq_true_2.
    + rewrite (bool_decide_eq_false_2 (boxid = boxId)) by done.
      by rewrite bool_decide_eq_false_2 by (by intros [_ ?]).
Qed.

Lemma pickup_code_message_is_parsed_witness :
  ∃ message,
    (Arduino.sendPickupCodeToArduino (Some "1243") (Some "BOX_1")
       (Some "c0ffee00-0000-4000-8000-000000000001") 1000%Z
       {| Arduino.pickupCodesStore := []; Arduino.serialPort := true;
          Arduino.isPortOpen := true |}).2
    = [message]
    ∧ while_available message initial
      = (if bool_decide ("BOX_1" = boxId)
         then addValidCode "1243" initial else initial, []).
Proof.
  apply pickup_code_message_is_parsed; try done.
  - split; [done|]. repeat constructor.
  - by repeat constructor.
  - by repeat constructor.
  - simpl. lia.
Defined.

(** X22.  Typing the four digits of a pickup code on a sketch that holds no
    input makes [loop()] call [checkCode] once, on exactly that code, and
    clear the input: the code is submitted without pressing enter. *)
Theorem keypad_code_is_submitted (code : string) (s : state) :
  is_pickup_code code →
  inputCode s = "" → serialBuffer s = "" →
  loop code s = (s, [set_inputCode code s]).
Proof.
  intros [Hlen Hdigits] Hin Hbuf.
  rewrite loop_digits by (done || by rewrite Hin).
  rewrite Hin. change ("" +:+ code) with code.
  by rewrite <- Hin at 1; rewrite set_inputCode_same.
Qed.

Lemma keypad_code_is_submitted_witness :
  loop "1243" initial = (initial, [set_inputCode "1243" initial]).
Proof.
  apply keypad_code_is_submitted; [|done|done].
  split; [done|]. repeat constructor.
Defined.

(** X23.  From the message to the door: a sketch that is idle receives the
    message for a pickup code and BOX_1, and then the code is typed.  The
    sketch calls [checkCode] once, on that code; when the backend cannot be
    reached the door opens exactly if the code was already in use or there
    was room for it, so the code of a 21st card does not open the box
    offline. *)
Theorem received_code_opens_door_offline (code : string) (s : state)
    (net : network) :
  well_formed s → inputCode s = "" → serialBuffer s = "" →
  is_pickup_code code → backend_unreachable net →
  ∃ call,
    loops ["CODE:" +:+ code +:+ ":" +:+ boxId +:+ Arduino.LF; code] s
    = (addValidCode code s, [call])
    ∧ inputCode call = code
    ∧ (OpenDoor ∈ checkCode net call ↔ code ∈ stored s ∨ codeCount s < 20).
Proof.
  intros Hwf Hin Hbuf [Hlen Hdigits] Hnet.
  destruct (keypad_digits_plain code Hdigits) as [Hcl Hcolon].
  assert (code ≠ "") as Hcode by (by intros ->).
  exists (set_inputCode code (addValidCode code s)).
  cbn [loops]. unfold loop at 1.
  rewrite while_available_message; try done.
  2: by repeat constructor.
  2: simpl; lia.
  rewrite bool_decide_eq_true_2 by done.
  rewrite addValidCode_inputCode, Hin. cbn [String.length Nat.eqb].
  rewrite loop_digits.
  2: by rewrite addValidCode_serialBuffer.
  2: done.
  2: by rewrite addValidCode_inputCode, Hin.
  rewrite addValidCode_inputCode, Hin. change ("" +:+ code) with code.
  split_and!.
  - f_equal. rewrite <- (addValidCode_inputCode code s) in Hin.
    by rewrite <- Hin, set_inputCode_same.
  - done.
  - rewrite checkCode_offline by done.
    change (inputCode (set_inputCode code (addValidCode code s)))
      with code.
    change (stored (set_inputCode code (addValidCode code s)))
      with (stored (addValidCode code s)).
    destruct Hwf as [Ha _ _ _ _ _]. rewrite addValidCode_stored by done.
    case_bool_decide as H1; [by intuition|].
    case_bool_decide as H2.
    + rewrite elem_of_app, list_elem_of_singleton. by intuition.
    + by intuition.
Qed.

Lemma received_code_opens_door_offline_witness :
  ∃ call,
    loops ["CODE:" +:+ "1243" +:+ ":" +:+ boxId +:+ Arduino.LF; "1243"]
      initial
    = (addValidCode "1243" initial, [call])
    ∧ inputCode call = "1243"
    ∧ (OpenDoor ∈
         checkCode {| connected := false; httpResponseCode := 0;
                      response := "" |} call
       ↔ "1243" ∈ stored initial ∨ codeCount initial < 20).
Proof.
  apply received_code_opens_door_offline.
  - split; simpl; try lia; try done.
    + unfold stored. simpl. constructor.
    + constructor.
  - done.
  - done.
  - split; [done|]. repeat constructor.
  - by left.
Defined.

End SketchFacts.

(** ** The pages *)

Section Pages.
Import CardsStore Routes Lifecycle Outcome CardsList.

Lemma includes_char_trimStart (c : ascii) (s : string) :
  Ascii.is_space c = false →
  Js.includes_char c (Js.trimStart s) = Js.includes_char c s.
Proof.
  intros Hc. induction s as [|a s IH]; [done|]. simpl.
  destruct (Ascii.is_space a) eqn:Ha; [|done].
  rewrite IH, bool_decide_eq_false_2; [done|]. intros ->. congruence.
Qed.

Lemma includes_char_trimEnd (c : ascii) (s : string) :
  Ascii.is_space c = false →
  Js.includes_char c (Js.trimEnd s) = Js.includes_char c s.
Proof.
  intros Hc. induction s as [|a s IH]; [done|]. simpl.
  rewrite <- IH. destruct (Js.trimEnd s) eqn:E; [|done].
  destruct (Ascii.is_space a) eqn:Ha; simpl.
  - rewrite bool_decide_eq_false_2; [done|]. intros ->. congruence.
  - done.
Qed.

(** X24.  The admin page only posts emails that pass the check of the
    set-email handler: when [handleSetEmail] sends a request, the email of
    its body is not empty and contains an at sign, so the handler does not
    answer that a valid email address is required. *)
Theorem admin_page_email_is_valid (emailInput : string) :
  AdminPage.handleSetEmail_sends emailInput = true →
  valid_email (AdminPage.handleSetEmail_email emailInput)
  ∧ ∀ req cs, se_email req = AdminPage.handleSetEmail_email emailInput →
      json (setEmail req cs).1 ≠ Error "Valid email address is required".
Proof.
  unfold AdminPage.handleSetEmail_sends, AdminPage.handleSetEmail_email.
  intros H. apply negb_true_iff, orb_false_iff in H as [H1 H2].
  apply negb_false_iff in H1. apply negb_false_iff in H2.
  assert (Js.includes_char "@" (Js.trim emailInput) = true) as H3.
  { unfold Js.trim.
    by rewrite includes_char_trimEnd, includes_char_trimStart. }
  split.
  - unfold valid_email.
    change (text (Some (Js.trim emailInput))) with (Js.trim emailInput).
    by rewrite H1, H3.
  - intros req cs Heq. unfold setEmail. cbv zeta. rewrite Heq.
    change (text (Some (Js.trim emailInput))) with (Js.trim emailInput).
    rewrite H1, H3. cbn [negb orb].
    destruct (findCardById _ _) as [c|]; [|done].
    destruct (negb _); [done|].
    by destruct (se_notify req) as [[]|].
Qed.

Lemma admin_page_email_is_valid_witness :
  valid_email (AdminPage.handleSetEmail_email " owner@sdsu.edu ")
  ∧ ∀ req cs,
      se_email req = AdminPage.handleSetEmail_email " owner@sdsu.edu " →
      json (setEmail req cs).1 ≠ Error "Valid email address is required".
Proof. apply admin_page_email_is_valid. reflexivity. Defined.

Lemma keep_1_to_4_id (code : string) :
  Forall (λ a, a ∈ ["1"; "2"; "3"; "4"]%char)
    (String.list_ascii_of_string code) →
  LostCardStatusPage.keep_1_to_4 code = code.
Proof.
  induction code as [|a s IH]; [done|].
  cbn [LostCardStatusPage.keep_1_to_4 String.list_ascii_of_string].
  intros [Ha Hs]%Forall_cons. rewrite IH by done.
  by rewrite (proj2 (keypad_digit a) Ha).
Qed.

Lemma trim_no_space (s : string) :
  Forall (λ a, Ascii.is_space a = false) (String.list_ascii_of_string s) →
  Js.trim s = s.
Proof.
  intros H. unfold Js.trim.
  assert (Js.trimStart s = s) as ->.
  { destruct s as [|a s]; [done|]. simpl in *.
    apply Forall_cons in H as [-> _]. done. }
  induction s as [|a s IH]; [done|]. simpl in *.
  apply Forall_cons in H as [Ha Hs]. rewrite IH by done.
  destruct s; by rewrite ?Ha.
Qed.

Lemma keep_1_to_4_digits (value : string) :
  Forall (λ a, a ∈ ["1"; "2"; "3"; "4"]%char)
    (String.list_ascii_of_string (LostCardStatusPage.keep_1_to_4 value)).
Proof.
  induction value as [|a s IH]; [constructor|].
  cbn [LostCardStatusPage.keep_1_to_4].
  destruct (_ && _) eqn:E; [|done].
  cbn [String.list_ascii_of_string]. constructor; [|done].
  by apply keypad_digit.
Qed.

Lemma digits_no_space (s : string) :
  Forall (λ a, a ∈ ["1"; "2"; "3"; "4"]%char)
    (String.list_ascii_of_string s) →
  Forall (λ a, Ascii.is_space a = false) (String.list_ascii_of_string s).
Proof.
  intros H. eapply Forall_impl; [exact H|]. intros a Ha. simpl in Ha.
  repeat (apply elem_of_cons in Ha as [->|Ha]; [done|]).
  by apply elem_of_nil in Ha.
Qed.

(** X25.  The pickup code field of the status page lets every pickup code
    through: for a code of four digits 1 to 4 in the field, the form posts
    exactly that code.  Whatever is in the field, the form posts nothing
    or a text that is not empty and has only digits 1 to 4. *)
Theorem status_page_posts_pickup_code (code : string) :
  is_pickup_code code →
  LostCardStatusPage.onSubmit_pickupCode (LostCardStatusPage.onChange code)
  = Some code
  ∧ ∀ value posted,
      LostCardStatusPage.onSubmit_pickupCode
        (LostCardStatusPage.onChange value) = Some posted →
      posted ≠ ""
      ∧ Forall (λ a, a ∈ ["1"; "2"; "3"; "4"]%char)
          (String.list_ascii_of_string posted).
Proof.
  intros [Hlen Hd]. unfold LostCardStatusPage.onChange,
    LostCardStatusPage.onSubmit_pickupCode.
  split.
  - rewrite keep_1_to_4_id by done.
    rewrite trim_no_space by by apply digits_no_space.
    by destruct code.
  - intros value posted.
    pose proof (keep_1_to_4_digits value) as Hk.
    rewrite trim_no_space by by apply digits_no_space.
    unfold Js.truthy. case_bool_decide as Hne; simpl; [done|].
    intros [= <-]. done.
Qed.

Lemma status_page_posts_pickup_code_witness :
  LostCardStatusPage.onSubmit_pickupCode (LostCardStatusPage.onChange "1243")
  = Some "1243"
  ∧ ∀ value posted,
      LostCardStatusPage.onSubmit_pickupCode
        (LostCardStatusPage.onChange value) = Some posted →
      posted ≠ ""
      ∧ Forall (λ a, a ∈ ["1"; "2"; "3"; "4"]%char)
          (String.list_ascii_of_string posted).
Proof.
  apply status_page_posts_pickup_code.
  split; [done|]. repeat constructor.
Defined.

Lemma elem_of_getCards (status : string) (cs : store) (c : Card.t) :
  status ≠ "" →
  c ∈ getCards (Some status) cs
  ↔ c ∈ cs ∧ status_string (Card.status_ c) = status.
Proof.
  intros Hne. unfold getCards, getAllCards.
  assert (Js.truthy (Some status) = true) as Ht.
  { unfold Js.truthy. by rewrite bool_decide_eq_false_2. }
  rewrite Ht, Ht. cbv zeta. rewrite sort_perm, list_elem_of_filter.
  unfold has_status. simpl. by intuition.
Qed.

(** X26.  The list of the admin page after a manual email assignment: when
    set-email is accepted for a card, GET /cards?status=waiting_for_email
    lists afterwards the cards it listed before, without the card of the
    request if its owner was notified and with it if the notification
    failed.  The ids of the stored cards are pairwise distinct. *)
Theorem waiting_list_after_setEmail (req : setEmailRequest) (cs : store)
    (c : Card.t) (i : string) :
  unique_ids cs →
  findCardById (se_id req) cs = Some c →
  Card.status_ c = waiting_for_email →
  valid_email (se_email req) →
  i ∈ Card.id <$> getCards AdminPage.fetchCards_status (setEmail req cs).2
  ↔ i ∈ Card.id <$> getCards AdminPage.fetchCards_status cs
    ∧ (i = se_id req → notified (se_notify req) = false).
Proof.
  intros Hu Hfind Hs Hvalid.
  pose proof Hfind as [Hid _]%findCardById_Some.
  destruct (setEmail_replaces req cs c Hfind Hs Hvalid)
    as (l1 & l2 & -> & Hl1 & Heq).
  rewrite Heq. cbn [snd]. clear Heq.
  apply unique_ids_split in Hu as [_ Hl2]. rewrite Hid in Hl2.
  unfold AdminPage.fetchCards_status.
  rewrite !list_elem_of_fmap.
  assert (Card.status_ (setEmail_card req c) = waiting_for_email
          ↔ notified (se_notify req) = false) as Hc'.
  { simpl. rewrite Hs. by destruct (notified (se_notify req)). }
  split.
  - intros (y & -> & [Hy Hw]%elem_of_getCards); [|done].
    apply elem_of_app in Hy as [Hy|Hy]; [|apply elem_of_cons in Hy as [->|Hy]].
    + split.
      * exists y. split; [done|]. apply elem_of_getCards; [done|].
        split; [|done]. apply elem_of_app. by left.
      * intros Heq. destruct Hl1. rewrite <- Heq.
        apply list_elem_of_fmap. by exists y.
    + split.
      * exists c. split; [done|]. apply elem_of_getCards; [done|].
        split; [|by rewrite Hs]. apply elem_of_app. right. by left.
      * intros _. apply Hc'. by destruct (Card.status_ (setEmail_card req c)).
    + split.
      * exists y. split; [done|]. apply elem_of_getCards; [done|].
        split; [|done]. apply elem_of_app. right. by right.
      * intros Heq. destruct Hl2. rewrite <- Heq.
        apply list_elem_of_fmap. by exists y.
  - intros [(y & -> & [Hy Hw]%elem_of_getCards) Hn]; [|done].
    apply elem_of_app in Hy as [Hy|Hy]; [|apply elem_of_cons in Hy as [->|Hy]].
    + exists y. split; [done|]. apply elem_of_getCards; [done|].
      split; [|done]. apply elem_of_app. by left.
    + exists (setEmail_card req c). split; [done|].
      apply elem_of_getCards; [done|]. split.
      * apply elem_of_app. right. by left.
      * apply Hc' in Hn; [|done]. by rewrite Hn.
    + exists y. split; [done|]. apply elem_of_getCards; [done|].
      split; [|done]. apply elem_of_app. right. by right.
Qed.

Lemma waiting_list_after_setEmail_witness :
  let req := Examples.set_email_request (Card.id Examples.card_waiting) in
  let cs := [Examples.card_same_code; Examples.card_waiting] in
  Card.id Examples.card_waiting
  ∈ Card.id <$> getCards AdminPage.fetchCards_status (setEmail req cs).2
  ↔ Card.id Examples.card_waiting
    ∈ Card.id <$> getCards AdminPage.fetchCards_status cs
    ∧ (Card.id Examples.card_waiting = se_id req →
       notified (se_notify req) = false).
Proof.
  apply (waiting_list_after_setEmail
           (Examples.set_email_request (Card.id Examples.card_waiting))
           [Examples.card_same_code; Examples.card_waiting]
           Examples.card_waiting).
  - apply (bool_decide_unpack _). vm_compute. exact I.
  - reflexivity.
  - reflexivity.
  - exact I.
Defined.

End Pages.
